(** * AI SEO Web Crawler: the crawl orchestration loop

    A shallow embedding of [handleCrawlStart] (src/App.tsx) and of the two
    service entry points it calls, [analyzePages] and [extractLinksFromPage]
    (services/geminiService), followed by the properties of the frontier,
    the visited set, the inlink map and the page budget.

    Modelling decisions.
    - [targetPageCount], [analyzedCount] and [status] are JavaScript numbers
      holding integers (a page count, a sum of array lengths, a response
      schema field of type INTEGER): they are [Z].
    - [(targetPageCount - analyzedCount) * 1.5] is computed over [Q], where
      the product is exact as it is in a double for every integer a run
      can hold.
    - [Set<string>] is [gset string], [Map<string, Inlink[]>] is
      [gmap string (list Inlink)], arrays are lists.
    - The Gemini round trip ([ai.models.generateContent], [response.text],
      [JSON.parse]) and the platform's [URL] constructor are parameters:
      functions of an abstract external state, so that two calls with the
      same arguments may answer differently.
    - [extractLinksFromPage] returns the value of [JSON.parse] behind a
      cast and without a check: the reply is either iterable, with the
      links it yields, or not iterable, and then the [for ... of] of
      [handleCrawlStart] throws a [TypeError] that [handleApiError] never
      sees.  [analyzePages] calls [data.map] inside its [try], so that a
      reply that is not an array is one more failure of the call.
    - The session carries an event [log] next to the program variables.  No
      branch reads it; it records the order of [queue.push], of the calls
      of [analyzePages] and of the calls of [extractLinksFromPage].
    - Timers ([setTimeout]) and the purely visual React state ([isLoading],
      [progressMessage]) have no counterpart here. *)

From Stdlib Require Import ZArith QArith Ascii String.
From stdpp Require Import base option list gmap sets strings pretty.

Local Open Scope Z_scope.
Set Warnings "-clear-no-such-hyp".

(** ** Data model (types.ts) *)

Record Inlink := mkInlink {
  sourceUrl : string;
  anchorText : string
}.

Record CrawledPage := mkCrawledPage {
  url : string;
  status : Z;
  crawlDepth : Z;
  redirectUrl : option string;
  canonicalUrl : option string;
  isNoIndex : bool;
  isNoFollow : bool;
  isBlockedByRobotsTxt : bool;
  inlinks : list Inlink;
  title : string;
  titleLength : Z;
  metaDescription : string;
  metaDescriptionLength : Z;
  h1s : list string;
  h2s : list string;
  wordCount : Z;
  duplicateContentScore : Q;
  missingAltTextImages : Z;
  schemaTypes : list string;
  urlParameters : list string;
  responseTimeMs : Z
}.

(** [{ ...page, inlinks: l }] *)
Definition with_inlinks (page : CrawledPage) (l : list Inlink) : CrawledPage :=
  {| url := url page; status := status page; crawlDepth := crawlDepth page;
     redirectUrl := redirectUrl page; canonicalUrl := canonicalUrl page;
     isNoIndex := isNoIndex page; isNoFollow := isNoFollow page;
     isBlockedByRobotsTxt := isBlockedByRobotsTxt page;
     inlinks := l;
     title := title page; titleLength := titleLength page;
     metaDescription := metaDescription page;
     metaDescriptionLength := metaDescriptionLength page;
     h1s := h1s page; h2s := h2s page; wordCount := wordCount page;
     duplicateContentScore := duplicateContentScore page;
     missingAltTextImages := missingAltTextImages page;
     schemaTypes := schemaTypes page; urlParameters := urlParameters page;
     responseTimeMs := responseTimeMs page |}.

(** The element type of [extractLinksFromPage]'s result,
    [{ url: string; anchorText: string }]. *)
Record Link := mkLink {
  link_url : string;
  link_anchorText : string
}.

(** What [extractLinksFromPage] returns behind its cast, the value of
    [JSON.parse]: something that [for ... of] can iterate, with the links
    it yields, or a value that is not iterable (an object, a number, a
    boolean, [null]). *)
Inductive LinksReply :=
  | Iterable (links : list Link)
  | NotIterable.

(** What a [try] block of the service can throw: an [Error] object with its
    message, or any other value. *)
Inductive Thrown :=
  | ThrownError (message : string)
  | ThrownOther.

(** What [handleCrawlStart]'s [catch] receives: the [TypeError] of
    [new URL(startUrl)], or an error thrown inside the loop, which is the
    [Error] built by [handleApiError] or the [TypeError] of a [for ... of]
    over a reply that is not iterable. *)
Inductive Failure :=
  | InvalidUrl (input : string)
  | ApiFailure (message : string).

(** Observable events of a crawl, in the order they happen. *)
Inductive Event :=
  | EvSeed (u : string)              (* queue.push(startUrl) *)
  | EvLink (u : string)              (* queue.push(link.url) *)
  | EvAnalyze (urls : list string)   (* analyzePages(batchUrls, startUrl) *)
  | EvExtract (pageUrl : string).    (* extractLinksFromPage(page.url, siteDomain) *)

Definition pushed_of (e : Event) : list string :=
  match e with
  | EvSeed u | EvLink u => [u]
  | _ => []
  end.

Definition batch_of (e : Event) : list (list string) :=
  match e with
  | EvAnalyze urls => [urls]
  | _ => []
  end.

Definition extract_of (e : Event) : list string :=
  match e with
  | EvExtract u => [u]
  | _ => []
  end.

(** Every URL given to [queue.push], in push order. *)
Definition pushed (l : list Event) : list string := l ≫= pushed_of.
(** Every batch given to [analyzePages], in call order. *)
Definition batches (l : list Event) : list (list string) := l ≫= batch_of.
(** Every page URL given to [extractLinksFromPage], in call order. *)
Definition extracted (l : list Event) : list string := l ≫= extract_of.

(** ** services/geminiService *)

(** [hay.includes(needle)] *)
Fixpoint includes (needle hay : string) : bool :=
  if String.prefix needle hay then true
  else match hay with
       | EmptyString => false
       | String _ rest => includes needle rest
       end.

(** [handleApiError(error, context)] never returns; the value here is the
    message of the [Error] it throws. *)
Definition handleApiError (error : Thrown) (context : string) : string :=
  match error with
  | ThrownError message =>
      if includes "JSON" message
      then "The AI returned an invalid data format during " +:+ context +:+ ". Please try again."
      else "Failed during " +:+ context +:+ ". Gemini API Error: " +:+ message
  | ThrownOther =>
      "An unknown error occurred in " +:+ context +:+ " while communicating with the Gemini API."
  end.

(** ** components/ResultsTable

    A string of the model stands for the JavaScript string with the same
    code units; code units from 256 up are outside the alphabet. *)

Definition double_quote : ascii := Eval cbv in ascii_of_nat 34.
Definition line_feed : ascii := Eval cbv in ascii_of_nat 10.
Definition carriage_return : ascii := Eval cbv in ascii_of_nat 13.


(** [setExpandedRowUrl(expandedRowUrl === url ? null : url)] *)
Definition handleRowClick (expandedRowUrl : option string) (u : string) : option string :=
  if bool_decide (expandedRowUrl = Some u) then None else Some u.

(** The pages of [results.map(...)] for which [expandedRowUrl === page.url]
    holds, that is, whose detail row is rendered. *)
Definition detail_rows (expandedRowUrl : option string) (pages : list CrawledPage)
  : list CrawledPage :=
  filter (fun page => expandedRowUrl = Some (url page)) pages.

(** [l.join(sep)] on an array of strings. *)
Fixpoint join (sep : string) (l : list string) : string :=
  match l with
  | [] => EmptyString
  | x :: rest =>
      match rest with
      | [] => x
      | _ => x +:+ sep +:+ join sep rest
      end
  end.

(** [str.replace] of every double quote by two of them (line 147). *)
Fixpoint replace_quotes (str : string) : string :=
  match str with
  | EmptyString => EmptyString
  | String c rest =>
      if Ascii.eqb c double_quote
      then String double_quote (String double_quote (replace_quotes rest))
      else String c (replace_quotes rest)
  end.

(** What [exportToCSV] passes to [escapeCsvField]: [null], a string, an
    array of strings or the array of inlinks. *)
Inductive CsvField :=
  | FieldNull
  | FieldString (s : string)
  | FieldStrings (l : list string)
  | FieldInlinks (l : list Inlink).

(** The template of line 137: the source URL, a space, and the anchor
    text between double quotes and parentheses. *)
Definition render_inlink (link : Inlink) : string :=
  sourceUrl link +:+ " (" +:+ String double_quote (anchorText link)
    +:+ String double_quote ")".

(** The [str] of [escapeCsvField] for a field that is not [null].  An empty
    array passes the [every] test whatever it is meant to hold and joins to
    the empty string on either branch. *)
Definition field_text (field : CsvField) : string :=
  match field with
  | FieldNull => EmptyString
  | FieldString s => s
  | FieldStrings l => join " | " l
  | FieldInlinks l => join " | " (map render_inlink l)
  end.

Definition escapeCsvField (field : CsvField) : string :=
  match field with
  | FieldNull => String double_quote (String double_quote EmptyString)
  | _ =>
      let str := field_text field in
      if includes "," str
         || includes (String double_quote EmptyString) str
         || includes (String line_feed EmptyString) str
      then String double_quote (replace_quotes str +:+ String double_quote EmptyString)
      else String double_quote (str +:+ String double_quote EmptyString)
  end.

Definition csv_headers : list string :=
  [ "URL"; "Status"; "Crawl Depth"; "Response Time (ms)"; "Redirect URL";
    "Canonical URL"; "isNoIndex"; "isNoFollow"; "isBlockedByRobotsTxt"; "Title";
    "Title Length"; "Meta Description"; "Meta Description Length"; "H1s"; "H2s";
    "Word Count"; "Duplicate Content Score"; "Missing Alt Text Images";
    "Schema Types"; "URL Parameters"; "Inlinks" ].

(** [String(b)] of a boolean, as [Array.prototype.join] renders it. *)
Definition booleanToString (b : bool) : string :=
  if b then "true" else "false".

Definition nullable (o : option string) : CsvField :=
  match o with
  | Some s => FieldString s
  | None => FieldNull
  end.

(** ** components/CrawlerForm *)

(** The code units below 256 that [String.prototype.trim] removes:
    WhiteSpace (TAB, VT, FF, SP, NBSP) and LineTerminator (LF, CR). *)
Definition is_space (c : ascii) : bool :=
  let n := nat_of_ascii c in
  ((9 <=? n)%nat && (n <=? 13)%nat) || (n =? 32)%nat || (n =? 160)%nat.

Fixpoint trim_start (s : string) : string :=
  match s with
  | EmptyString => EmptyString
  | String c rest => if is_space c then trim_start rest else s
  end.

Fixpoint trim_end (s : string) : string :=
  match s with
  | EmptyString => EmptyString
  | String c rest =>
      match trim_end rest with
      | EmptyString => if is_space c then EmptyString else String c EmptyString
      | kept => String c kept
      end
  end.

(** [s.trim()] *)
Definition trim (s : string) : string := trim_end (trim_start s).

(** [s.split(',')[0]] *)
Fixpoint before_comma (s : string) : string :=
  match s with
  | EmptyString => EmptyString
  | String c rest => if Ascii.eqb c ","%char then EmptyString else String c (before_comma rest)
  end.

Definition strip_start_quote (s : string) : string :=
  match s with
  | String c rest => if Ascii.eqb c double_quote then rest else s
  | EmptyString => EmptyString
  end.

Fixpoint strip_end_quote (s : string) : string :=
  match s with
  | EmptyString => EmptyString
  | String c rest =>
      match rest with
      | EmptyString => if Ascii.eqb c double_quote then EmptyString else s
      | _ => String c (strip_end_quote rest)
      end
  end.

(** The [replace] of line 289, whose pattern is a double quote at the
    start or a double quote at the end, with the flag g: a quote at the
    start goes, and so does a quote at the end (of what is left, for a
    string of one quote). *)
Definition strip_quotes (s : string) : string :=
  strip_end_quote (strip_start_quote s).

Definition is_break (c : ascii) : bool :=
  Ascii.eqb c carriage_return || Ascii.eqb c line_feed.

(** [content.split(/[\r\n]+/)]: the pieces between the maximal runs of CR
    and LF, the first and the last one possibly empty. *)
Fixpoint split_lines (content : string) : list string :=
  match content with
  | EmptyString => [EmptyString]
  | String c rest =>
      if is_break c then
        match rest with
        | String c' _ =>
            if is_break c' then split_lines rest else EmptyString :: split_lines rest
        | EmptyString => EmptyString :: split_lines rest
        end
      else
        match split_lines rest with
        | piece :: pieces => String c piece :: pieces
        | [] => [String c EmptyString]
        end
  end.

(** Whether some code unit of [s] satisfies [p]. *)
Fixpoint has_char (p : ascii -> bool) (s : string) : bool :=
  match s with
  | EmptyString => false
  | String c rest => p c || has_char p rest
  end.

(** A URL that the export and the upload carry unchanged: it starts with
    http and holds no line break, no double quote and no comma. *)
Definition exportable (u : string) : bool :=
  String.prefix "http" u
  && negb (has_char (fun c => is_break c || Ascii.eqb c double_quote || Ascii.eqb c ","%char) u).

(** A line of a plain list that is a URL and nothing else: it starts with
    http, holds no line break, and ends neither with a space nor with a
    double quote. *)
Definition plain_line (u : string) : bool :=
  String.prefix "http" u
  && negb (has_char is_break u)
  && String.eqb (trim_end u) u
  && String.eqb (strip_end_quote u) u.

(** [c === ','] *)
Definition is_comma (c : ascii) : bool := Ascii.eqb c ","%char.

(** A string that is empty or starts with something other than a line
    break. *)
Definition starts_clean (s : string) : bool :=
  match s with
  | String c _ => negb (is_break c)
  | EmptyString => true
  end.

(** A run of line breaks, possibly empty. *)
Definition all_breaks (s : string) : Prop :=
  has_char (fun c => negb (is_break c)) s = false.

(** A line of a file: not empty and without a line break. *)
Definition one_line (u : string) : Prop :=
  u <> EmptyString /\ has_char is_break u = false.

(** ** A small site, to run the crawl on

    Concrete collaborators: a site of a few pages under [example.com], an
    API that answers from it, and variants of the API that fail or that
    break the contract of one record per URL.  The external state is the
    number of API calls answered so far. *)

Module Demo.

Definition page (u : string) (st : Z) : CrawledPage :=
  mkCrawledPage u st 0 None None false false false [] "N/A" 3 "N/A" 3 [] [] 0 0 0 [] [] 0.

Fixpoint host_part (s : string) : string :=
  match s with
  | EmptyString => EmptyString
  | String c rest => if Ascii.eqb c "/"%char then EmptyString else String c (host_part rest)
  end.

(** The [URL] constructor on the inputs used here: an [https] URL has the
    host up to the first slash, anything else is rejected. *)
Definition hostname (s : string) : option string :=
  if String.prefix "https://" s
  then Some (host_part (String.substring 8 (String.length s - 8)%nat s))
  else None.

Definition home : string := "https://example.com".
Definition page_a : string := "https://example.com/a".
Definition page_b : string := "https://example.com/b".
Definition missing : string := "https://example.com/missing".

Definition links_of (pageUrl : string) : list Link :=
  if String.eqb pageUrl home then
    [ mkLink page_a "A";
      mkLink "https://blog.example.com/post" "Blog";
      mkLink "not a url" "Broken";
      mkLink page_b "B";
      mkLink page_a "A";
      mkLink "https://example.com/c" "C";
      mkLink "https://example.com/d" "D";
      mkLink "https://example.com/e" "E";
      mkLink "https://example.com/f" "F" ]
  else if String.eqb pageUrl page_a then
    [ mkLink page_b "B again"; mkLink missing "Gone" ]
  else if String.eqb pageUrl page_b then
    [ mkLink "https://example.com/g" "G" ]
  else if String.eqb pageUrl missing then
    [ mkLink "https://example.com/h" "H" ]
  else [].

Definition status_of (u : string) : Z :=
  if String.eqb u missing then 404 else 200.

Definition generateAnalysis (urls : list string) (ctx : string) (w : nat)
  : (Thrown + list CrawledPage) * nat :=
  (inr (map (fun u => page u (status_of u)) urls), S w).

Definition generateLinks (pageUrl siteDomain : string) (w : nat)
  : (Thrown + LinksReply) * nat :=
  (inr (Iterable (links_of pageUrl)), S w).

(** The API call number [k] (counted from 0 over both services), when it is
    an analysis, fails to decode. *)
Definition generateAnalysis_failing (k : nat) (urls : list string) (ctx : string) (w : nat)
  : (Thrown + list CrawledPage) * nat :=
  if Nat.eqb w k
  then (inl (ThrownError "Unexpected token < in JSON at position 0"), S w)
  else generateAnalysis urls ctx w.

(** The API call number [k], when it is a link extraction, fails. *)
Definition generateLinks_failing (k : nat) (pageUrl siteDomain : string) (w : nat)
  : (Thrown + LinksReply) * nat :=
  if Nat.eqb w k
  then (inl (ThrownError "503 Service Unavailable"), S w)
  else generateLinks pageUrl siteDomain w.

(** The API call number [k], when it is a link extraction, answers with a
    JSON object instead of an array. *)
Definition generateLinks_object (k : nat) (pageUrl siteDomain : string) (w : nat)
  : (Thrown + LinksReply) * nat :=
  if Nat.eqb w k then (inr NotIterable, S w)
  else generateLinks pageUrl siteDomain w.

(** An API that answers with two records for every URL asked. *)
Definition generateAnalysis_twice (urls : list string) (ctx : string) (w : nat)
  : (Thrown + list CrawledPage) * nat :=
  (inr (urls ≫= (fun u => [page u 200; page u 200])), S w).

(** An API that reports every page under the URL of [page_a]. *)
Definition generateAnalysis_renamed (urls : list string) (ctx : string) (w : nat)
  : (Thrown + list CrawledPage) * nat :=
  (inr (map (fun _ => page page_a 200) urls), S w).

(** A decimal rendering of the integer part, for the runs below. *)
Definition numberToString (q : Q) : string := pretty (Qnum q / Z.pos (Qden q)).

Definition urlErrorMessage (input : string) : string := "Invalid URL".

End Demo.

Section Crawler.

(** The state of everything outside the program: the model behind the API. *)
Variable World : Type.

(** The API round trip in [analyzePages]'s [try] block
    ([generateContent], [response.text.trim()], [JSON.parse]): the decoded
    array of records, or what the block throws (a payload that is not an
    array makes [data.map] throw inside the same block). *)
Variable generateAnalysis :
  list string -> string -> World -> (Thrown + list CrawledPage) * World.

(** The same round trip in [extractLinksFromPage]'s [try] block: the value
    of [JSON.parse], whatever it is, or what the block throws. *)
Variable generateLinks :
  string -> string -> World -> (Thrown + LinksReply) * World.

(** [new URL(s).hostname]; [None] when the constructor throws. *)
Variable hostname : string -> option string.

Definition analyzePages (urls : list string) (siteContextUrl : string) (w : World)
  : (string + list CrawledPage) * World :=
  if bool_decide (length urls = 0%nat) then (inr [], w)
  else
    match generateAnalysis urls siteContextUrl w with
    | (inr data, w') => (inr (map (fun p => with_inlinks p []) data), w')
    | (inl error, w') => (inl (handleApiError error "page analysis"), w')
    end.

Definition extractLinksFromPage (pageUrl siteDomain : string) (w : World)
  : (string + LinksReply) * World :=
  match generateLinks pageUrl siteDomain w with
  | (inr reply, w') => (inr reply, w')
  | (inl error, w') =>
      (inl (handleApiError error ("link extraction for " +:+ pageUrl)), w')
  end.

(** ** App.tsx: the session of one [handleCrawlStart] call *)

Record Session := mkSession {
  queue : list string;                       (* const queue: string[] *)
  seenUrls : gset string;                    (* const seenUrls = new Set<string>(...) *)
  allInlinks : gmap string (list Inlink);    (* const allInlinks = new Map<string, Inlink[]>() *)
  analyzedCount : Z;                         (* let analyzedCount = 0 *)
  results : list CrawledPage;                (* React state [results] *)
  log : list Event;
  world : World
}.

Definition set_queue (q : list string) (s : Session) : Session :=
  mkSession q (seenUrls s) (allInlinks s) (analyzedCount s) (results s) (log s) (world s).
Definition set_seenUrls (v : gset string) (s : Session) : Session :=
  mkSession (queue s) v (allInlinks s) (analyzedCount s) (results s) (log s) (world s).
Definition set_allInlinks (m : gmap string (list Inlink)) (s : Session) : Session :=
  mkSession (queue s) (seenUrls s) m (analyzedCount s) (results s) (log s) (world s).
Definition set_analyzedCount (n : Z) (s : Session) : Session :=
  mkSession (queue s) (seenUrls s) (allInlinks s) n (results s) (log s) (world s).
Definition set_results (r : list CrawledPage) (s : Session) : Session :=
  mkSession (queue s) (seenUrls s) (allInlinks s) (analyzedCount s) r (log s) (world s).
Definition set_world (w : World) (s : Session) : Session :=
  mkSession (queue s) (seenUrls s) (allInlinks s) (analyzedCount s) (results s) (log s) w.
Definition add_log (e : Event) (s : Session) : Session :=
  mkSession (queue s) (seenUrls s) (allInlinks s) (analyzedCount s) (results s)
            (log s ++ [e]) (world s).

(** The result of running a piece of the [try] block: it ran through, or it
    threw; the session is the one left behind either way. *)
Inductive Attempt :=
  | Done (s : Session)
  | Raised (message : string) (s : Session).

(** The result of one iteration of the [while] loop. *)
Inductive Step :=
  | Continue (s : Session)
  | Break (s : Session)
  | Throw (message : string) (s : Session).

(** The result of [handleCrawlStart]; [OutOfFuel] is a run cut after the
    given number of iterations, with the session at that point. *)
Inductive Outcome :=
  | Completed (s : Session)
  | Failed (f : Failure) (s : Session)
  | OutOfFuel (s : Session).

Definition session_of (o : Outcome) : Session :=
  match o with
  | Completed s | Failed _ s | OutOfFuel s => s
  end.

Definition BATCH_SIZE : Z := 5.

(** [allInlinks.get(u) || []] *)
Definition inlinks_of (m : gmap string (list Inlink)) (u : string) : list Inlink :=
  default [] (m !! u).

(** [queue.length > (targetPageCount - analyzedCount) * 1.5] *)
Definition oversupplied (targetPageCount : Z) (s : Session) : bool :=
  negb (Qle_bool (inject_Z (Z.of_nat (length (queue s))))
                 (inject_Z (targetPageCount - analyzedCount s) * (3 # 2))).

(** The body of [for (const link of newLinks)], lines 70-84.  Of the
    statements in its [try] only [new URL(link.url)] can throw.  The entry
    of [link.url] is replaced by a fresh array, [[...existingInlinks, edge]]:
    the array it held, which a page already emitted may share, is never
    written to, so that lists as values say all there is to say. *)
Definition record_link (siteDomain pageUrl : string) (s : Session) (link : Link) : Session :=
  match hostname (link_url link) with
  | None => s
  | Some linkHost =>
      let existingInlinks := inlinks_of (allInlinks s) (link_url link) in
      let s1 :=
        set_allInlinks
          (<[link_url link :=
               existingInlinks ++ [mkInlink pageUrl (link_anchorText link)]]>
             (allInlinks s)) s in
      if bool_decide (linkHost = siteDomain)
         && negb (bool_decide (link_url link ∈ seenUrls s1))
      then add_log (EvLink (link_url link))
             (set_queue (queue s1 ++ [link_url link])
                (set_seenUrls ({[link_url link]} ∪ seenUrls s1) s1))
      else s1
  end.

Definition record_links (siteDomain pageUrl : string) (s : Session) (newLinks : list Link)
  : Session :=
  fold_left (record_link siteDomain pageUrl) newLinks s.

(** The message of the [TypeError] that [for (const link of newLinks)]
    throws on a value that is not iterable, as V8 words it. *)
Definition notIterableMessage : string := "newLinks is not iterable".

(** The body of [for (const page of batchResults)], lines 62-85.  The
    value that [extractLinksFromPage] returned is iterated as it is: one
    that is not iterable makes the [for ... of] of line 70 throw. *)
Definition visit_page (targetPageCount : Z) (siteDomain : string)
    (s : Session) (page : CrawledPage) : Attempt :=
  if 400 <=? status page then Done s
  else if oversupplied targetPageCount s then Done s
  else
    let s1 := add_log (EvExtract (url page)) s in
    match extractLinksFromPage (url page) siteDomain (world s1) with
    | (inr (Iterable newLinks), w) =>
        Done (record_links siteDomain (url page) (set_world w s1) newLinks)
    | (inr NotIterable, w) => Raised notIterableMessage (set_world w s1)
    | (inl message, w) => Raised message (set_world w s1)
    end.

Fixpoint visit_pages (targetPageCount : Z) (siteDomain : string)
    (s : Session) (batchResults : list CrawledPage) : Attempt :=
  match batchResults with
  | [] => Done s
  | page :: rest =>
      match visit_page targetPageCount siteDomain s page with
      | Done s' => visit_pages targetPageCount siteDomain s' rest
      | Raised message s' => Raised message s'
      end
  end.

(** [batchResults.map(page => ({ ...page, inlinks: allInlinks.get(page.url) || [] }))] *)
Definition merge_inlinks (m : gmap string (list Inlink)) (batchResults : list CrawledPage)
  : list CrawledPage :=
  map (fun page => with_inlinks page (inlinks_of m (url page))) batchResults.

(** [Math.min(BATCH_SIZE, targetPageCount - analyzedCount)] as the
    [deleteCount] of [queue.splice(0, deleteCount)]: [splice] clamps it to
    [0 .. queue.length]. *)
Definition batch_limit (targetPageCount : Z) (s : Session) : nat :=
  Z.to_nat (Z.min BATCH_SIZE (targetPageCount - analyzedCount s)).

(** The body of the [while] loop, lines 43-88. *)
Definition crawl_batch (startUrl : string) (targetPageCount : Z) (siteDomain : string)
    (s : Session) : Step :=
  let batchUrls := take (batch_limit targetPageCount s) (queue s) in
  let s1 := set_queue (drop (batch_limit targetPageCount s) (queue s)) s in
  if bool_decide (length batchUrls = 0%nat) then Break s1
  else
    let s2 := add_log (EvAnalyze batchUrls) s1 in
    match analyzePages batchUrls startUrl (world s2) with
    | (inl message, w) => Throw message (set_world w s2)
    | (inr analyzed, w) =>
        let batchResults := merge_inlinks (allInlinks s2) analyzed in
        let s3 :=
          set_results (results s2 ++ batchResults)
            (set_analyzedCount (analyzedCount s2 + Z.of_nat (length batchResults))
               (set_world w s2)) in
        if targetPageCount <=? analyzedCount s3 then Break s3
        else
          match visit_pages targetPageCount siteDomain s3 batchResults with
          | Done s4 => Continue s4
          | Raised message s4 => Throw message s4
          end
    end.

(** [queue.length > 0 && analyzedCount < targetPageCount] *)
Definition loop_guard (targetPageCount : Z) (s : Session) : bool :=
  (0 <? Z.of_nat (length (queue s))) && (analyzedCount s <? targetPageCount).

(** The [while] loop, lines 42-89, cut after [fuel] iterations. *)
Fixpoint crawl_loop (fuel : nat) (startUrl : string) (targetPageCount : Z)
    (siteDomain : string) (s : Session) : Outcome :=
  if loop_guard targetPageCount s then
    match fuel with
    | O => OutOfFuel s
    | S fuel' =>
        match crawl_batch startUrl targetPageCount siteDomain s with
        | Continue s' => crawl_loop fuel' startUrl targetPageCount siteDomain s'
        | Break s' => Completed s'
        | Throw message s' => Failed (ApiFailure message) s'
        end
    end
  else Completed s.

(** Lines 18-36: [setResults([])], the queue, the visited set seeded with
    the exclusions, the seed pushed unless excluded. *)
Definition initial_session (startUrl : string) (excludedUrls : gset string) (w : World)
  : Session :=
  let s := mkSession [] excludedUrls ∅ 0 [] [] w in
  if bool_decide (startUrl ∈ seenUrls s) then s
  else add_log (EvSeed startUrl)
         (set_seenUrls ({[startUrl]} ∪ seenUrls s) (set_queue (queue s ++ [startUrl]) s)).

Definition handleCrawlStart (fuel : nat) (startUrl : string) (targetPageCount : Z)
    (excludedUrls : gset string) (w : World) : Outcome :=
  let s := initial_session startUrl excludedUrls w in
  match hostname startUrl with
  | None => Failed (InvalidUrl startUrl) s
  | Some siteDomain => crawl_loop fuel startUrl targetPageCount siteDomain s
  end.

(** ** Vocabulary of the properties *)

(** An event of link discovery: a call of the extractor, or the push of a
    link whose host is [d]. *)
Definition discovery_event (d : string) (e : Event) : Prop :=
  match e with
  | EvLink u => hostname u = Some d
  | EvExtract _ => True
  | _ => False
  end.

(** [grows d s s']: the session [s'] comes from [s] by link discovery alone.
    The queue grew at its tail by exactly the URLs pushed, none of them was
    in the visited set, and neither the results nor the counter moved. *)
Inductive grows (d : string) (s s' : Session) : Prop :=
  mkGrows (new : list Event) :
    log s' = log s ++ new ->
    queue s' = queue s ++ pushed new ->
    seenUrls s' = seenUrls s ∪ list_to_set (pushed new) ->
    NoDup (pushed new) ->
    (forall u, u ∈ pushed new -> u ∉ seenUrls s) ->
    Forall (discovery_event d) new ->
    results s' = results s ->
    analyzedCount s' = analyzedCount s ->
    grows d s s'.

Definition attempt_session (a : Attempt) : Session :=
  match a with
  | Done s | Raised _ s => s
  end.

Definition step_session (st : Step) : Session :=
  match st with
  | Continue s | Break s | Throw _ s => s
  end.

Definition host_ok (d : string) (e : Event) : Prop :=
  match e with
  | EvLink u => hostname u = Some d
  | _ => True
  end.

(** What holds between any two statements of the loop: the URLs pushed so
    far are the URLs dequeued so far followed by the queue; no URL was
    pushed twice; the visited set is the exclusions plus the URLs pushed,
    and the two are apart; the counter is the length of the results. *)
Record Inv (excluded : gset string) (d : string) (s : Session) : Prop := mkInv {
  inv_fifo : concat (batches (log s)) ++ queue s = pushed (log s);
  inv_nodup : NoDup (pushed (log s));
  inv_seen : seenUrls s = excluded ∪ list_to_set (pushed (log s));
  inv_excl : forall u, u ∈ pushed (log s) -> u ∉ excluded;
  inv_count : analyzedCount s = Z.of_nat (length (results s));
  inv_batches : Forall (fun b : list string => b <> []) (batches (log s));
  inv_hosts : Forall (host_ok d) (log s)
}.

(** The session right after [setResults], before the budget test. *)
Definition after_analysis (s : Session) (n : nat) (analyzed : list CrawledPage) (w : World)
  : Session :=
  let s2 := add_log (EvAnalyze (take n (queue s))) (set_queue (drop n (queue s)) s) in
  let batchResults := merge_inlinks (allInlinks s2) analyzed in
  set_results (results s2 ++ batchResults)
    (set_analyzedCount (analyzedCount s2 + Z.of_nat (length batchResults))
       (set_world w s2)).

(** [siteDomain], with a placeholder when the seed does not parse (the
    loop is not entered then). *)
Definition site_domain (startUrl : string) : string :=
  default EmptyString (hostname startUrl).

(** [data.map(p => ({ ...p, inlinks: [] }))] *)
Definition decoded (data : list CrawledPage) : list CrawledPage :=
  map (fun p => with_inlinks p []) data.

(** The three ways an iteration can go once its batch is not empty. *)
Inductive batch_run (startUrl : string) (t : Z) (d : string) (s : Session) : Step -> Prop :=
  | run_analysis_failed error w :
      generateAnalysis (take (batch_limit t s) (queue s)) startUrl (world s) = (inl error, w) ->
      batch_run startUrl t d s
        (Throw (handleApiError error "page analysis")
           (set_world w
              (add_log (EvAnalyze (take (batch_limit t s) (queue s)))
                 (set_queue (drop (batch_limit t s) (queue s)) s))))
  | run_budget_reached data w :
      generateAnalysis (take (batch_limit t s) (queue s)) startUrl (world s) = (inr data, w) ->
      t <= analyzedCount (after_analysis s (batch_limit t s) (decoded data) w) ->
      batch_run startUrl t d s (Break (after_analysis s (batch_limit t s) (decoded data) w))
  | run_discovery data w :
      generateAnalysis (take (batch_limit t s) (queue s)) startUrl (world s) = (inr data, w) ->
      analyzedCount (after_analysis s (batch_limit t s) (decoded data) w) < t ->
      batch_run startUrl t d s
        (match visit_pages t d (after_analysis s (batch_limit t s) (decoded data) w)
                 (merge_inlinks (allInlinks s) (decoded data)) with
         | Done s4 => Continue s4
         | Raised message s4 => Throw message s4
         end).

(** One record per URL asked, in order, each carrying the URL it is about. *)
Definition analyzer_echoes : Prop :=
  forall urls ctx w data w',
    generateAnalysis urls ctx w = (inr data, w') -> map url data = urls.

(** One record per URL asked. *)
Definition analyzer_cardinal : Prop :=
  forall urls ctx w data w',
    generateAnalysis urls ctx w = (inr data, w') -> length data = length urls.

(** The messages an error thrown inside the loop can carry: one built by
    [handleApiError], or the one of the [TypeError] of a reply that is not
    iterable. *)
Definition loop_error (message : string) : Prop :=
  (exists error context, message = handleApiError error context)
  \/ message = notIterableMessage.

Definition finished (o : Outcome) : Prop :=
  match o with
  | OutOfFuel _ => False
  | _ => True
  end.

(** The inlink map only grows: what [s] holds for a URL is the beginning
    of what [s'] holds for it. *)
Definition edges_kept (s s' : Session) : Prop :=
  forall u, inlinks_of (allInlinks s) u `prefix_of` inlinks_of (allInlinks s') u.

(** Every call of the extractor was for a page of the results with a
    status below 400, and every edge of the inlink map has such a call as
    its source and a URL that parses as its target. *)
Definition edges_sourced (s : Session) : Prop :=
  (forall v, v ∈ extracted (log s) ->
     exists page, page ∈ results s /\ url page = v /\ status page < 400)
  /\ (forall u edge, edge ∈ inlinks_of (allInlinks s) u ->
        sourceUrl edge ∈ extracted (log s) /\ is_Some (hostname u)).

(** Every link pushed has an edge in the inlink map. *)
Definition links_have_edges (s : Session) : Prop :=
  forall u, EvLink u ∈ log s -> inlinks_of (allInlinks s) u <> [].

(** A page of the results has no inlink exactly when it is the start
    page. *)
Definition start_page_rule (startUrl : string) (s : Session) : Prop :=
  forall page, page ∈ results s ->
    (url page = startUrl -> inlinks page = [])
    /\ (url page <> startUrl -> inlinks page <> []).

(** What the loop keeps about the origin of each URL: the seed is the only
    URL pushed without an edge, it is pushed first, and the map is empty
    until the first batch has been submitted. *)
Record Origin (startUrl : string) (excluded : gset string) (d : string) (s : Session)
  : Prop := mkOrigin {
  org_inv : Inv excluded d s;
  org_seed : forall u, EvSeed u ∈ log s -> u = startUrl;
  org_head : pushed (log s) = [] \/ exists rest, pushed (log s) = startUrl :: rest;
  org_empty : batches (log s) = [] -> allInlinks s = ∅;
  org_edges : links_have_edges s;
  org_rule : start_page_rule startUrl s
}.

(** ** ResultsTable: the CSV export *)

Section CsvExport.

(** [Number::toString] of the platform, as [Array.prototype.join] renders
    the numeric fields of a row. *)
Variable numberToString : Q -> string.

(** The [values.join(',')] of lines 155-178. *)
Definition csv_row (row : CrawledPage) : string :=
  join ","
    [ escapeCsvField (FieldString (url row));
      numberToString (inject_Z (status row));
      numberToString (inject_Z (crawlDepth row));
      numberToString (inject_Z (responseTimeMs row));
      escapeCsvField (nullable (redirectUrl row));
      escapeCsvField (nullable (canonicalUrl row));
      booleanToString (isNoIndex row);
      booleanToString (isNoFollow row);
      booleanToString (isBlockedByRobotsTxt row);
      escapeCsvField (FieldString (title row));
      numberToString (inject_Z (titleLength row));
      escapeCsvField (FieldString (metaDescription row));
      numberToString (inject_Z (metaDescriptionLength row));
      escapeCsvField (FieldStrings (h1s row));
      escapeCsvField (FieldStrings (h2s row));
      numberToString (inject_Z (wordCount row));
      numberToString (duplicateContentScore row);
      numberToString (inject_Z (missingAltTextImages row));
      escapeCsvField (FieldStrings (schemaTypes row));
      escapeCsvField (FieldStrings (urlParameters row));
      escapeCsvField (FieldInlinks (inlinks row)) ].

(** The [csvString] of [exportToCSV], lines 152-182; what follows it hands
    the string to the browser for download. *)
Definition exportToCSV (pages : list CrawledPage) : string :=
  join (String line_feed EmptyString) (join "," csv_headers :: map csv_row pages).

End CsvExport.

(** ** CrawlerForm: the exclusion file and the submission *)

(** The body of [lines.forEach], lines 283-299: the URL a line adds to the
    set, if any.  [isCsv] is [file.type === 'text/csv']. *)
Definition exclusion_line (isCsv : bool) (line : string) : option string :=
  let trimmed := trim line in
  let first_field :=
    if isCsv && includes "," trimmed then before_comma trimmed else trimmed in
  let urlToProcess := strip_quotes first_field in
  if String.prefix "http" urlToProcess then
    match hostname urlToProcess with
    | Some _ => Some urlToProcess
    | None => None
    end
  else None.

(** [reader.onload] of [handleFileChange], lines 277-303: the set given to
    [setExcludedUrls]. *)
Definition parse_exclusions (isCsv : bool) (content : string) : gset string :=
  list_to_set (omap (exclusion_line isCsv) (split_lines content)).

(** What [handleSubmit] does with the form: it sets an error, or it calls
    [onCrawl], which [App] binds to [handleCrawlStart]. *)
Inductive Submission :=
  | Rejected (message : string)
  | Started (o : Outcome).

Definition handleSubmit (fuel : nat) (u : string) (maxPages : Z)
    (excludedUrls : gset string) (w : World) : Submission :=
  if bool_decide (u = EmptyString)
  then Rejected "Please enter a valid URL to start crawling."
  else
    match hostname u with
    | None => Rejected "The entered URL is not valid. Please include http:// or https://"
    | Some _ => Started (handleCrawlStart fuel u maxPages excludedUrls w)
    end.

(** ** App.tsx: what the page shows *)

Section Rendering.

(** The message of the [TypeError] that [new URL(s)] throws. *)
Variable urlErrorMessage : string -> string.

(** The React state the render reads. *)
Record View := mkView {
  view_isLoading : bool;
  view_error : option string;
  view_results : list CrawledPage
}.

(** The state a run leaves: [setError(err.message)] in the [catch],
    [setIsLoading(false)] in the [finally]; a run cut short is still
    loading. *)
Definition view_of (o : Outcome) : View :=
  match o with
  | OutOfFuel s => mkView true None (results s)
  | Completed s => mkView false None (results s)
  | Failed (ApiFailure message) s => mkView false (Some message) (results s)
  | Failed (InvalidUrl input) s => mkView false (Some (urlErrorMessage input)) (results s)
  end.

End Rendering.

(** [error &&] of the render: [null] and the empty string are falsy. *)
Definition truthy (e : option string) : bool :=
  match e with
  | Some (String _ _) => true
  | _ => false
  end.

(** The four blocks of lines 123-143. *)
Definition shows_spinner (v : View) : bool := view_isLoading v.
Definition shows_error (v : View) : bool := truthy (view_error v).
Definition shows_table (v : View) : bool :=
  (negb (view_isLoading v) || (0 <? length (view_results v))%nat)
  && (0 <? length (view_results v))%nat.
Definition shows_placeholder (v : View) : bool :=
  negb (view_isLoading v) && (length (view_results v) =? 0)%nat
  && negb (truthy (view_error v)).

(** ** The event log *)

Lemma pushed_app (l k : list Event) : pushed (l ++ k) = pushed l ++ pushed k.
Proof. apply bind_app. Qed.

Lemma batches_app (l k : list Event) : batches (l ++ k) = batches l ++ batches k.
Proof. apply bind_app. Qed.

Lemma extracted_app (l k : list Event) : extracted (l ++ k) = extracted l ++ extracted k.
Proof. apply bind_app. Qed.

Lemma discovery_no_batches d (new : list Event) :
  Forall (discovery_event d) new -> batches new = [].
Proof.
  induction 1 as [|e new He _ IH]; [reflexivity|].
  change (batches (e :: new)) with (batch_of e ++ batches new).
  rewrite IH. destruct e; simpl in *; tauto.
Qed.

Lemma grows_refl d s : grows d s s.
Proof.
  apply (mkGrows d s s []); simpl; try done.
  - by rewrite app_nil_r.
  - by rewrite app_nil_r.
  - set_solver.
  - constructor.
  - set_solver.
Qed.

Lemma grows_trans d s1 s2 s3 : grows d s1 s2 -> grows d s2 s3 -> grows d s1 s3.
Proof.
  intros [n1 L1 Q1 V1 N1 F1 E1 R1 C1] [n2 L2 Q2 V2 N2 F2 E2 R2 C2].
  apply (mkGrows d s1 s3 (n1 ++ n2)); rewrite ?pushed_app.
  - by rewrite L2, L1, app_assoc.
  - by rewrite Q2, Q1, app_assoc.
  - rewrite V2, V1, list_to_set_app_L. set_solver.
  - apply NoDup_app. split_and!; [done| |done].
    intros u Hu Hu'. apply (F2 u Hu'). rewrite V1. set_solver.
  - intros u [Hu|Hu]%elem_of_app; [by apply F1|].
    intros Hs. apply (F2 u Hu). rewrite V1. set_solver.
  - by apply Forall_app.
  - congruence.
  - congruence.
Qed.

Lemma grows_world d s s' w : grows d s s' -> grows d s (set_world w s').
Proof. intros [n L Q V N F E R C]. by apply (mkGrows d s _ n). Qed.

Lemma record_link_grows d pageUrl s link : grows d s (record_link d pageUrl s link).
Proof.
  unfold record_link. destruct (hostname (link_url link)) as [h|] eqn:Hh;
    [|apply grows_refl].
  simpl. case_bool_decide as Hd; simpl.
  - case_bool_decide as Hs; simpl.
    + apply (mkGrows d s _ []); simpl; rewrite ?app_nil_r; try done;
        [set_solver|constructor|set_solver].
    + subst h. apply (mkGrows d s _ [EvLink (link_url link)]); simpl; try done.
      * set_solver.
      * apply NoDup_singleton.
      * intros u Hu. apply list_elem_of_singleton in Hu. by subst u.
      * by repeat constructor.
  - apply (mkGrows d s _ []); simpl; rewrite ?app_nil_r; try done;
      [set_solver|constructor|set_solver].
Qed.

Lemma record_links_grows d pageUrl newLinks s :
  grows d s (record_links d pageUrl s newLinks).
Proof.
  unfold record_links. revert s.
  induction newLinks as [|link rest IH]; intros s; simpl; [apply grows_refl|].
  eapply grows_trans; [apply record_link_grows|apply IH].
Qed.

Lemma visit_page_grows t d s page :
  grows d s (attempt_session (visit_page t d s page)).
Proof.
  unfold visit_page.
  destruct (400 <=? status page); [apply grows_refl|].
  destruct (oversupplied t s); [apply grows_refl|].
  assert (G : forall w, grows d s (set_world w (add_log (EvExtract (url page)) s))).
  { intros w. apply (mkGrows d s _ [EvExtract (url page)]); simpl; try done.
    - by rewrite app_nil_r.
    - set_solver.
    - constructor.
    - set_solver.
    - by repeat constructor. }
  destruct (extractLinksFromPage _ _ _) as [[message|[newLinks|]] w]; simpl.
  - apply G.
  - eapply grows_trans; [apply G|apply record_links_grows].
  - apply G.
Qed.

Lemma visit_pages_grows t d batchResults s :
  grows d s (attempt_session (visit_pages t d s batchResults)).
Proof.
  revert s. induction batchResults as [|page rest IH]; intros s; simpl;
    [apply grows_refl|].
  pose proof (visit_page_grows t d s page) as G.
  destruct (visit_page t d s page) as [s'|message s']; simpl in *; [|done].
  eapply grows_trans; [exact G|apply IH].
Qed.

(** ** The loop invariant *)

(** The proof rule of the loop: [P] holds while the loop runs, [Q] of the
    session it is left with, however it is left. *)
Lemma crawl_loop_rule (P Q : Session -> Prop) startUrl t d :
  (forall s, P s -> Q s) ->
  (forall s, P s -> loop_guard t s = true ->
     match crawl_batch startUrl t d s with
     | Continue s' => P s'
     | Break s' | Throw _ s' => Q s'
     end) ->
  forall fuel s, P s -> Q (session_of (crawl_loop fuel startUrl t d s)).
Proof.
  intros HPQ Hstep fuel. induction fuel as [|fuel IH]; intros s Hs; simpl.
  - destruct (loop_guard t s); simpl; auto.
  - destruct (loop_guard t s) eqn:Hg; simpl; [|auto].
    specialize (Hstep s Hs Hg).
    destruct (crawl_batch startUrl t d s); simpl in *; auto.
Qed.

Lemma crawl_loop_invariant (P : Session -> Prop) startUrl t d :
  (forall s, P s -> loop_guard t s = true ->
             P (step_session (crawl_batch startUrl t d s))) ->
  forall fuel s, P s -> P (session_of (crawl_loop fuel startUrl t d s)).
Proof.
  intros Hstep. apply crawl_loop_rule; [done|].
  intros s Hs Hg. specialize (Hstep s Hs Hg).
  by destruct (crawl_batch startUrl t d s).
Qed.

(** A run cut after [n] iterations resumes from where it was cut. *)
Lemma crawl_loop_resume startUrl t d n k s s' :
  crawl_loop n startUrl t d s = OutOfFuel s' ->
  crawl_loop (n + k) startUrl t d s = crawl_loop k startUrl t d s'.
Proof.
  revert s. induction n as [|n IH]; intros s; simpl.
  - destruct (loop_guard t s) eqn:Hg; [|done].
    intros [= <-]. destruct k; simpl; by rewrite ?Hg.
  - destruct (loop_guard t s) eqn:Hg; [|done].
    destruct (crawl_batch startUrl t d s); try done. apply IH.
Qed.

(** A run that ended within [n] iterations is the same with more fuel. *)
Lemma crawl_loop_stable startUrl t d n k s :
  (forall s', crawl_loop n startUrl t d s <> OutOfFuel s') ->
  crawl_loop (n + k) startUrl t d s = crawl_loop n startUrl t d s.
Proof.
  revert s. induction n as [|n IH]; intros s; simpl.
  - destruct (loop_guard t s) eqn:Hg.
    + intros H. by destruct (H s).
    + intros _. destruct k; simpl; by rewrite Hg.
  - destruct (loop_guard t s) eqn:Hg; [|done].
    destruct (crawl_batch startUrl t d s); try done. apply IH.
Qed.

Lemma Inv_initial startUrl excluded d w :
  Inv excluded d (initial_session startUrl excluded w).
Proof.
  unfold initial_session. simpl. case_bool_decide as Hx.
  - split; simpl; try done; [constructor|set_solver|set_solver].
  - split; simpl; try done.
    + apply NoDup_singleton.
    + set_solver.
    + intros u Hu. apply list_elem_of_singleton in Hu. by subst u.
    + by repeat constructor.
Qed.

Lemma Inv_grows excluded d s s' : Inv excluded d s -> grows d s s' -> Inv excluded d s'.
Proof.
  intros [F N V X C B H] [new L Q V' N' F' E R C'].
  pose proof (discovery_no_batches d new E) as Hb.
  split; rewrite ?L, ?Q, ?pushed_app, ?batches_app, ?Hb, ?app_nil_r.
  - by rewrite app_assoc, F.
  - apply NoDup_app. split_and!; [done| |done].
    intros u Hu Hu'. apply (F' u Hu'). rewrite V. set_solver.
  - rewrite V', V, list_to_set_app_L. set_solver.
  - intros u [Hu|Hu]%elem_of_app; [by apply X|].
    intros Hx. apply (F' u Hu). rewrite V. set_solver.
  - by rewrite C', R.
  - done.
  - apply Forall_app. split; [done|].
    eapply Forall_impl; [exact E|]. intros [] He; simpl in *; done.
Qed.

Lemma Inv_dequeue excluded d s n w :
  Inv excluded d s -> take n (queue s) <> [] ->
  Inv excluded d
    (set_world w (add_log (EvAnalyze (take n (queue s))) (set_queue (drop n (queue s)) s))).
Proof.
  intros [F N V X C B H] Hne.
  split; simpl; rewrite ?pushed_app, ?batches_app; simpl; rewrite ?app_nil_r; try done.
  - rewrite concat_app. simpl. rewrite app_nil_r, <- app_assoc, take_drop. done.
  - apply Forall_app. split; [done|]. by repeat constructor.
  - apply Forall_app. split; [done|]. by repeat constructor.
Qed.

Lemma Inv_after_analysis excluded d s n analyzed w :
  Inv excluded d s -> take n (queue s) <> [] ->
  Inv excluded d (after_analysis s n analyzed w).
Proof.
  intros HI Hne. destruct (Inv_dequeue excluded d s n w HI Hne) as [F N V X C B H].
  split; try done. simpl in *.
  rewrite length_app, Nat2Z.inj_add. lia.
Qed.

Lemma Inv_step startUrl excluded t d s :
  Inv excluded d s -> Inv excluded d (step_session (crawl_batch startUrl t d s)).
Proof.
  intros HI. unfold crawl_batch.
  set (n := batch_limit t s).
  case_bool_decide as Hlen; simpl.
  - destruct HI as [F N V X C B H]. split; simpl; try done.
    apply nil_length_inv in Hlen.
    rewrite <- (take_drop n (queue s)), Hlen in F. done.
  - assert (Hne : take n (queue s) <> []) by (intros E; by rewrite E in Hlen).
    destruct (analyzePages _ _ _) as [[message|analyzed] w] eqn:Ha; simpl.
    + by apply Inv_dequeue.
    + pose proof (Inv_after_analysis excluded d s n analyzed w HI Hne) as HI3.
      unfold after_analysis in HI3. simpl in HI3.
      match goal with |- context [if ?b then _ else _] => destruct b end;
        simpl; [exact HI3|].
      match goal with |- context [visit_pages ?t ?d ?s3 ?l] =>
        pose proof (visit_pages_grows t d l s3) as G;
        destruct (visit_pages t d s3 l) end; simpl in *;
        eapply Inv_grows; eauto.
Qed.

Lemma Inv_loop startUrl excluded t d fuel s :
  Inv excluded d s -> Inv excluded d (session_of (crawl_loop fuel startUrl t d s)).
Proof.
  apply crawl_loop_invariant. intros s' Hs _. by apply Inv_step.
Qed.

Lemma Inv_run fuel startUrl t excluded w :
  Inv excluded (site_domain startUrl)
    (session_of (handleCrawlStart fuel startUrl t excluded w)).
Proof.
  unfold handleCrawlStart, site_domain.
  destruct (hostname startUrl) as [d|]; simpl.
  - apply Inv_loop, Inv_initial.
  - apply Inv_initial.
Qed.

(** ** One iteration, case by case *)

Lemma analyzePages_nonempty urls ctx w :
  urls <> [] ->
  analyzePages urls ctx w =
    match generateAnalysis urls ctx w with
    | (inr data, w') => (inr (decoded data), w')
    | (inl error, w') => (inl (handleApiError error "page analysis"), w')
    end.
Proof.
  intros Hne. unfold analyzePages. case_bool_decide as Hl; [|done].
  by apply nil_length_inv in Hl.
Qed.

Lemma crawl_batch_empty startUrl t d s :
  take (batch_limit t s) (queue s) = [] ->
  crawl_batch startUrl t d s = Break (set_queue (drop (batch_limit t s) (queue s)) s).
Proof.
  intros He. unfold crawl_batch. rewrite He. by rewrite bool_decide_eq_true_2.
Qed.

Lemma crawl_batch_run startUrl t d s :
  take (batch_limit t s) (queue s) <> [] ->
  batch_run startUrl t d s (crawl_batch startUrl t d s).
Proof.
  intros Hne. unfold crawl_batch.
  rewrite bool_decide_eq_false_2 by (intros E; by apply nil_length_inv in E).
  simpl. rewrite analyzePages_nonempty by done.
  destruct (generateAnalysis _ _ _) as [[error|data] w] eqn:Hg.
  - by apply run_analysis_failed.
  - pose proof (run_budget_reached startUrl t d s data w Hg) as Hbudget.
    pose proof (run_discovery startUrl t d s data w Hg) as Hmore.
    unfold after_analysis in *. simpl in *.
    destruct (t <=? _) eqn:Hb;
      [apply Hbudget; by apply Z.leb_le|apply Hmore; by apply Z.leb_gt].
Qed.

Lemma guard_queue t s : loop_guard t s = true -> queue s <> [] /\ analyzedCount s < t.
Proof.
  unfold loop_guard. intros [Hq%Z.ltb_lt Ha%Z.ltb_lt]%andb_true_iff. split; [|lia].
  intros E. rewrite E in Hq. simpl in Hq. lia.
Qed.

Lemma guard_batch t s :
  loop_guard t s = true -> take (batch_limit t s) (queue s) <> [].
Proof.
  intros [Hq Ha]%guard_queue. unfold batch_limit, BATCH_SIZE.
  destruct (queue s) as [|u q]; [done|].
  destruct (Z.to_nat (Z.min 5 (t - analyzedCount s))) eqn:Hn; [lia|done].
Qed.

Lemma length_decoded data : length (decoded data) = length data.
Proof. apply length_map. Qed.

Lemma length_merge m pages : length (merge_inlinks m pages) = length pages.
Proof. apply length_map. Qed.

Lemma url_decoded data : map url (decoded data) = map url data.
Proof. unfold decoded. rewrite <- list_fmap_compose. done. Qed.

Lemma url_merge m pages : map url (merge_inlinks m pages) = map url pages.
Proof. unfold merge_inlinks. rewrite <- list_fmap_compose. done. Qed.

(** ** Empty batches *)

(** C10.  Given no URL, [analyzePages] answers the empty array at once and
    leaves the outside world as it was, whatever the API would have said;
    an iteration whose dequeued batch is empty leaves the loop without
    calling the analyzer; and no batch ever submitted to the analyzer is
    empty. *)
Theorem empty_batch_short_circuit fuel startUrl t excluded ctx w :
  analyzePages [] ctx w = (inr [], w)
  /\ (forall d s, take (batch_limit t s) (queue s) = [] ->
        crawl_batch startUrl t d s = Break (set_queue (drop (batch_limit t s) (queue s)) s)
        /\ log (step_session (crawl_batch startUrl t d s)) = log s
        /\ world (step_session (crawl_batch startUrl t d s)) = world s)
  /\ Forall (fun b : list string => b <> [])
        (batches (log (session_of (handleCrawlStart fuel startUrl t excluded w)))).
Proof.
  split_and!.
  - reflexivity.
  - intros d s He. by rewrite (crawl_batch_empty startUrl t d s He).
  - apply (inv_batches _ _ _ (Inv_run fuel startUrl t excluded w)).
Qed.

(** ** The test in front of the extractor *)

Lemma oversupplied_spec t s :
  oversupplied t s = true <->
  (inject_Z (t - analyzedCount s) * (3 # 2)
     < inject_Z (Z.of_nat (length (queue s))))%Q.
Proof.
  unfold oversupplied. rewrite negb_true_iff, <- not_true_iff_false, Qle_bool_iff.
  split; [apply Qnot_le_lt|apply Qlt_not_le].
Qed.

Lemma visit_page_skip t d s page :
  400 <= status page \/ oversupplied t s = true -> visit_page t d s page = Done s.
Proof.
  unfold visit_page. intros [Hs|Ho].
  - by rewrite (proj2 (Z.leb_le _ _) Hs).
  - rewrite Ho. by destruct (400 <=? status page).
Qed.

Lemma visit_page_call t d s page :
  status page < 400 -> oversupplied t s = false ->
  visit_page t d s page =
    match generateLinks (url page) d (world s) with
    | (inr (Iterable newLinks), w) =>
        Done (record_links d (url page)
                (set_world w (add_log (EvExtract (url page)) s)) newLinks)
    | (inr NotIterable, w) =>
        Raised notIterableMessage (set_world w (add_log (EvExtract (url page)) s))
    | (inl error, w) =>
        Raised (handleApiError error ("link extraction for " +:+ url page))
               (set_world w (add_log (EvExtract (url page)) s))
    end.
Proof.
  intros Hs Ho. unfold visit_page, extractLinksFromPage.
  rewrite (proj2 (Z.leb_gt _ _) Hs), Ho. simpl.
  by destruct (generateLinks _ _ _) as [[?|[?|]] ?].
Qed.

Lemma record_links_world d pageUrl newLinks s :
  world (record_links d pageUrl s newLinks) = world s.
Proof.
  revert s. induction newLinks as [|link l IH]; intros s; [done|].
  unfold record_links in *. simpl. rewrite IH. unfold record_link.
  destruct (hostname (link_url link)); [|done]. simpl.
  by destruct (bool_decide _ && _).
Qed.

Lemma visit_page_log t d s page :
  status page < 400 -> oversupplied t s = false ->
  exists new, Forall (discovery_event d) new
    /\ extracted new = []
    /\ log (attempt_session (visit_page t d s page))
       = log s ++ EvExtract (url page) :: new.
Proof.
  intros Hs Ho. rewrite (visit_page_call t d s page Hs Ho).
  destruct (generateLinks _ _ _) as [[error|[newLinks|]] w]; simpl;
    [exists []; by repeat split| |exists []; by repeat split].
  - set (s1 := set_world w (add_log (EvExtract (url page)) s)).
    assert (G : forall l s0, exists new, Forall (discovery_event d) new
                /\ extracted new = []
                /\ log (record_links d (url page) s0 l) = log s0 ++ new).
    { induction l as [|link l IH]; intros s0; simpl.
      - exists []. by rewrite app_nil_r.
      - destruct (IH (record_link d (url page) s0 link)) as (new & F & X & L).
        unfold record_links in *. simpl. rewrite L.
        unfold record_link.
        destruct (hostname (link_url link)) as [h|] eqn:Hh; [|by exists new].
        simpl. case_bool_decide as Hd; simpl; [|by exists new].
        case_bool_decide as Hv; simpl; [by exists new|].
        exists (EvLink (link_url link) :: new). split_and!.
        + constructor; [by subst h|done].
        + done.
        + by rewrite <- app_assoc. }
    destruct (G newLinks s1) as (new & F & X & L). exists new.
    split_and!; [done|done|]. rewrite L. subst s1. simpl. by rewrite <- app_assoc.
Qed.

(** ** Same-host restriction *)

Lemma record_link_foreign d pageUrl s link h :
  hostname (link_url link) = Some h -> h <> d ->
  queue (record_link d pageUrl s link) = queue s
  /\ seenUrls (record_link d pageUrl s link) = seenUrls s
  /\ log (record_link d pageUrl s link) = log s.
Proof.
  intros Hh Hne. unfold record_link. rewrite Hh. simpl.
  by rewrite bool_decide_eq_false_2.
Qed.

(** C4.  Every link pushed on the queue during a crawl has a URL whose host
    is [siteDomain], the host of the seed URL, as the very same string.  A
    link with any other host, a subdomain such as [blog.example.com] under
    [example.com] included, changes neither the queue nor the visited
    set. *)
Theorem same_host_enqueue fuel startUrl t excluded w :
  let s := session_of (handleCrawlStart fuel startUrl t excluded w) in
  (forall u, EvLink u ∈ log s ->
     exists siteDomain, hostname startUrl = Some siteDomain /\ hostname u = Some siteDomain)
  /\ (forall d pageUrl s0 link h,
       hostname (link_url link) = Some h -> h <> d ->
       queue (record_link d pageUrl s0 link) = queue s0
       /\ seenUrls (record_link d pageUrl s0 link) = seenUrls s0
       /\ log (record_link d pageUrl s0 link) = log s0)
  /\ (forall pageUrl s0 link,
       hostname (link_url link) = Some "blog.example.com" ->
       queue (record_link "example.com" pageUrl s0 link) = queue s0).
Proof.
  intros s. split_and!.
  - intros u Hu. subst s. unfold handleCrawlStart in *.
    destruct (hostname startUrl) as [d|] eqn:Hd; simpl in Hu.
    + exists d. split; [done|].
      pose proof (Inv_loop startUrl excluded t d fuel _
                    (Inv_initial startUrl excluded d w)) as HI.
      pose proof (inv_hosts _ _ _ HI) as HF.
      rewrite Forall_forall in HF. apply (HF _ Hu).
    + exfalso. unfold initial_session in Hu. simpl in Hu.
      case_bool_decide; simpl in Hu; set_solver.
  - intros d pageUrl s0 link h. apply record_link_foreign.
  - intros pageUrl s0 link Hh.
    by apply (record_link_foreign "example.com" pageUrl s0 link "blog.example.com").
Qed.

(** ** The analyzer's contract and the results *)

Lemma echoes_cardinal : analyzer_echoes -> analyzer_cardinal.
Proof.
  intros H urls ctx w data w' Hg.
  rewrite <- (length_map url data). by rewrite (H urls ctx w data w' Hg).
Qed.

Lemma after_analysis_results s n pages w :
  results (after_analysis s n pages w) = results s ++ merge_inlinks (allInlinks s) pages.
Proof. reflexivity. Qed.

Lemma after_analysis_log s n pages w :
  log (after_analysis s n pages w) = log s ++ [EvAnalyze (take n (queue s))].
Proof. reflexivity. Qed.

Lemma after_analysis_count s n pages w :
  analyzedCount (after_analysis s n pages w) = analyzedCount s + Z.of_nat (length pages).
Proof. unfold after_analysis. simpl. by rewrite length_merge. Qed.

Lemma batches_analyze l b : batches (l ++ [EvAnalyze b]) = batches l ++ [b].
Proof. by rewrite batches_app. Qed.

Lemma grows_batches d s s' : grows d s s' -> batches (log s') = batches (log s).
Proof.
  intros [new L _ _ _ _ E _ _].
  by rewrite L, batches_app, (discovery_no_batches d new E), app_nil_r.
Qed.

(** The URLs of the results are the URLs dequeued, as long as the loop
    runs; a failed analysis leaves its batch dequeued and not reported. *)
Lemma echo_step startUrl t d s :
  analyzer_echoes ->
  take (batch_limit t s) (queue s) <> [] ->
  map url (results s) = concat (batches (log s)) ->
  match crawl_batch startUrl t d s with
  | Continue s' => map url (results s') = concat (batches (log s'))
  | Break s' | Throw _ s' =>
      map url (results s') `prefix_of` concat (batches (log s'))
  end.
Proof.
  intros Hecho Hne Hres.
  assert (Hafter : forall data w,
    generateAnalysis (take (batch_limit t s) (queue s)) startUrl (world s) = (inr data, w) ->
    map url (results (after_analysis s (batch_limit t s) (decoded data) w))
    = concat (batches (log (after_analysis s (batch_limit t s) (decoded data) w)))).
  { intros data w Hg.
    rewrite after_analysis_results, after_analysis_log, batches_analyze.
    rewrite map_app, url_merge, url_decoded, (Hecho _ _ _ _ _ Hg).
    rewrite concat_app. simpl. by rewrite app_nil_r, Hres. }
  destruct (crawl_batch_run startUrl t d s Hne) as [error w Hg|data w Hg Hb|data w Hg Hb].
  - simpl. rewrite batches_analyze, concat_app, Hres. by apply prefix_app_r.
  - by rewrite (Hafter data w Hg).
  - pose proof (visit_pages_grows t d (merge_inlinks (allInlinks s) (decoded data))
                  (after_analysis s (batch_limit t s) (decoded data) w)) as G.
    destruct (visit_pages _ _ _ _) as [s4|message s4]; simpl in G;
      destruct G as [new L _ _ _ _ E R _];
      rewrite R, L, batches_app, (discovery_no_batches d new E), app_nil_r;
      by rewrite (Hafter data w Hg).
Qed.

Lemma echo_loop startUrl t d fuel s :
  analyzer_echoes ->
  map url (results s) = concat (batches (log s)) ->
  map url (results (session_of (crawl_loop fuel startUrl t d s)))
    `prefix_of` concat (batches (log (session_of (crawl_loop fuel startUrl t d s)))).
Proof.
  intros Hecho.
  apply (crawl_loop_rule
           (fun s => map url (results s) = concat (batches (log s)))
           (fun s => map url (results s) `prefix_of` concat (batches (log s)))).
  - intros s' ->. done.
  - intros s' Hs Hg. apply echo_step; [done|by apply guard_batch|done].
Qed.

Lemma echo_run fuel startUrl t excluded w :
  analyzer_echoes ->
  let s := session_of (handleCrawlStart fuel startUrl t excluded w) in
  map url (results s) `prefix_of` concat (batches (log s)).
Proof.
  intros Hecho. unfold handleCrawlStart.
  assert (H0 : map url (results (initial_session startUrl excluded w))
               = concat (batches (log (initial_session startUrl excluded w)))).
  { unfold initial_session. simpl. by case_bool_decide. }
  destruct (hostname startUrl) as [d|]; simpl.
  - by apply echo_loop.
  - by rewrite H0.
Qed.

(** The visited set holds the exclusions and, apart from them, exactly the
    URLs pushed. *)
Lemma Inv_size excluded d s :
  Inv excluded d s ->
  size (seenUrls s) = (size excluded + length (pushed (log s)))%nat.
Proof.
  intros [F N V X C B H]. rewrite V, size_union.
  - by rewrite size_list_to_set.
  - intros u Hu Hp. apply elem_of_list_to_set in Hp. by apply (X u).
Qed.

Lemma Inv_dequeued excluded d s :
  Inv excluded d s ->
  NoDup (concat (batches (log s)))
  /\ (forall u, u ∈ concat (batches (log s)) -> u ∈ pushed (log s))
  /\ (forall u, u ∈ queue s -> u ∈ pushed (log s))
  /\ (length (concat (batches (log s))) <= length (pushed (log s)))%nat.
Proof.
  intros [F N V X C B H]. rewrite <- F in *. split_and!.
  - by apply NoDup_app in N as (? & _ & _).
  - intros u Hu. apply elem_of_app. by left.
  - intros u Hu. apply elem_of_app. by right.
  - rewrite length_app. lia.
Qed.

(** ** Deduplication and exclusion *)

Lemma record_link_seen d pageUrl s link :
  link_url link ∈ seenUrls s -> queue (record_link d pageUrl s link) = queue s.
Proof.
  intros Hs. unfold record_link. destruct (hostname (link_url link)); [|done].
  simpl. rewrite (bool_decide_eq_true_2 _ Hs). simpl. by rewrite andb_false_r.
Qed.

Lemma excluded_seed_idle fuel startUrl t excluded w :
  startUrl ∈ excluded ->
  session_of (handleCrawlStart fuel startUrl t excluded w)
  = mkSession [] excluded ∅ 0 [] [] w.
Proof.
  intros Hx. unfold handleCrawlStart, initial_session. simpl.
  rewrite (bool_decide_eq_true_2 _ Hx).
  destruct (hostname startUrl); [|done]. by destruct fuel.
Qed.

(** C1 (amended).  A link whose URL is in the visited set is not pushed,
    and the seed is not pushed when it is excluded.  So, in every crawl
    and after any number of iterations: no URL is pushed twice, no URL is
    dequeued (submitted for analysis) twice, and an excluded URL is in the
    visited set and is never pushed, never in the queue, never dequeued.
    When moreover every answer of the analyzer has one record per URL
    asked, carrying that URL, no URL is reported twice in the results, no
    excluded URL is reported, and the visited set is at least as large as
    the results. *)
Theorem visited_registry_dedup fuel startUrl t excluded w :
  let s := session_of (handleCrawlStart fuel startUrl t excluded w) in
  (forall d pageUrl s0 link,
     link_url link ∈ seenUrls s0 -> queue (record_link d pageUrl s0 link) = queue s0)
  /\ (startUrl ∈ excluded -> queue s = [] /\ pushed (log s) = [] /\ results s = [])
  /\ NoDup (pushed (log s))
  /\ NoDup (concat (batches (log s)))
  /\ (forall u, u ∈ excluded ->
        u ∈ seenUrls s /\ (u ∉ pushed (log s)) /\ (u ∉ queue s)
        /\ (u ∉ concat (batches (log s))))
  /\ (analyzer_echoes ->
        NoDup (map url (results s))
        /\ (forall u, u ∈ excluded -> u ∉ map url (results s))
        /\ (length (results s) <= size (seenUrls s))%nat).
Proof.
  intros s.
  pose proof (Inv_run fuel startUrl t excluded w) as HI. fold s in HI.
  destruct (Inv_dequeued _ _ _ HI) as (ND & Hdp & Hqp & Hlen).
  split_and!.
  - intros d pageUrl s0 link. apply record_link_seen.
  - intros Hx. subst s. by rewrite (excluded_seed_idle fuel startUrl t excluded w Hx).
  - apply (inv_nodup _ _ _ HI).
  - done.
  - intros u Hu. split_and!.
    + rewrite (inv_seen _ _ _ HI). set_solver.
    + intros Hp. by apply (inv_excl _ _ _ HI u).
    + intros Hq. apply (inv_excl _ _ _ HI u); [by apply Hqp|done].
    + intros Hd. apply (inv_excl _ _ _ HI u); [by apply Hdp|done].
  - intros Hecho.
    destruct (echo_run fuel startUrl t excluded w Hecho) as [rest Hrest]. fold s in Hrest.
    split_and!.
    + rewrite Hrest in ND. by apply NoDup_app in ND as (? & _ & _).
    + intros u Hu Hr. apply (inv_excl _ _ _ HI u); [|done].
      apply Hdp. rewrite Hrest. apply elem_of_app. by left.
    + rewrite (Inv_size _ _ _ HI).
      rewrite <- (length_map url (results s)).
      rewrite Hrest, length_app in Hlen. lia.
Qed.

(** ** The page budget *)

Lemma batch_limit_guard t s :
  analyzedCount s < t ->
  Z.of_nat (batch_limit t s) = Z.min BATCH_SIZE (t - analyzedCount s).
Proof. intros Ha. unfold batch_limit, BATCH_SIZE. lia. Qed.

Lemma batch_length t s :
  analyzedCount s < t ->
  Z.of_nat (length (take (batch_limit t s) (queue s)))
  = Z.min (Z.min BATCH_SIZE (t - analyzedCount s)) (Z.of_nat (length (queue s))).
Proof.
  intros Ha. rewrite length_take, Nat2Z.inj_min. by rewrite batch_limit_guard.
Qed.

(** What an iteration with a non-empty batch adds to the list of batches. *)
Lemma step_batches startUrl t d s :
  take (batch_limit t s) (queue s) <> [] ->
  batches (log (step_session (crawl_batch startUrl t d s)))
  = batches (log s) ++ [take (batch_limit t s) (queue s)].
Proof.
  intros Hne.
  destruct (crawl_batch_run startUrl t d s Hne) as [error w Hg|data w Hg Hb|data w Hg Hb].
  - simpl. by rewrite batches_analyze.
  - simpl. by rewrite batches_analyze.
  - pose proof (visit_pages_grows t d (merge_inlinks (allInlinks s) (decoded data))
                  (after_analysis s (batch_limit t s) (decoded data) w)) as G.
    destruct (visit_pages _ _ _ _) as [s4|message s4]; simpl in G |- *;
      rewrite (grows_batches _ _ _ G); by rewrite after_analysis_log, batches_analyze.
Qed.

(** What it adds to the counter, when the analyzer answers with one record
    per URL. *)
Lemma step_count startUrl t d s :
  analyzer_cardinal ->
  take (batch_limit t s) (queue s) <> [] ->
  let n := Z.of_nat (length (take (batch_limit t s) (queue s))) in
  match crawl_batch startUrl t d s with
  | Continue s' | Break s' => analyzedCount s' = analyzedCount s + n
  | Throw _ s' =>
      analyzedCount s' = analyzedCount s \/ analyzedCount s' = analyzedCount s + n
  end.
Proof.
  intros Hcard Hne n.
  assert (Hafter : forall data w,
    generateAnalysis (take (batch_limit t s) (queue s)) startUrl (world s) = (inr data, w) ->
    analyzedCount (after_analysis s (batch_limit t s) (decoded data) w)
    = analyzedCount s + n).
  { intros data w Hg.
    by rewrite after_analysis_count, length_decoded, (Hcard _ _ _ _ _ Hg). }
  destruct (crawl_batch_run startUrl t d s Hne) as [error w Hg|data w Hg Hb|data w Hg Hb].
  - by left.
  - by apply Hafter.
  - pose proof (visit_pages_grows t d (merge_inlinks (allInlinks s) (decoded data))
                  (after_analysis s (batch_limit t s) (decoded data) w)) as G.
    destruct (visit_pages _ _ _ _) as [s4|message s4]; simpl in G;
      destruct G as [new _ _ _ _ _ _ _ C]; rewrite C, (Hafter data w Hg); auto.
Qed.

Lemma budget_step startUrl t d s :
  analyzer_cardinal ->
  loop_guard t s = true -> 0 <= analyzedCount s ->
  0 <= analyzedCount (step_session (crawl_batch startUrl t d s)) <= t.
Proof.
  intros Hcard Hg H0. pose proof (guard_batch t s Hg) as Hne.
  destruct (guard_queue t s Hg) as [_ Ha].
  pose proof (batch_length t s Ha) as Hlen.
  pose proof (step_count startUrl t d s Hcard Hne) as Hc. simpl in Hc.
  unfold BATCH_SIZE in Hlen.
  destruct (crawl_batch startUrl t d s); simpl; lia.
Qed.

Lemma budget_loop startUrl t d fuel s :
  analyzer_cardinal ->
  0 <= analyzedCount s <= t ->
  0 <= analyzedCount (session_of (crawl_loop fuel startUrl t d s)) <= t.
Proof.
  intros Hcard.
  apply (crawl_loop_invariant (fun s => 0 <= analyzedCount s <= t)).
  intros s' Hs Hg. apply budget_step; [done|done|lia].
Qed.

Lemma batch_size_loop startUrl t d fuel s :
  Forall (fun b : list string => Z.of_nat (length b) <= BATCH_SIZE) (batches (log s)) ->
  Forall (fun b : list string => Z.of_nat (length b) <= BATCH_SIZE)
    (batches (log (session_of (crawl_loop fuel startUrl t d s)))).
Proof.
  apply (crawl_loop_invariant
           (fun s => Forall (fun b : list string => Z.of_nat (length b) <= BATCH_SIZE)
                       (batches (log s)))).
  intros s' Hs Hg.
  rewrite step_batches by (by apply guard_batch).
  apply Forall_app. split; [done|]. constructor; [|done].
  destruct (guard_queue t s' Hg) as [_ Ha]. rewrite (batch_length t s' Ha). lia.
Qed.

Lemma completed_on_budget startUrl t d fuel :
  analyzer_cardinal ->
  forall s s', 0 <= analyzedCount s <= t ->
    crawl_loop fuel startUrl t d s = Completed s' ->
    queue s' = [] \/ analyzedCount s' = t.
Proof.
  intros Hcard. induction fuel as [|fuel IH]; intros s s' Hs; simpl.
  - destruct (loop_guard t s) eqn:Hg; [done|]. intros [= <-].
    unfold loop_guard in Hg. apply andb_false_iff in Hg as [Hq%Z.ltb_ge|Ha%Z.ltb_ge].
    + left. destruct (queue s); [done|simpl in Hq; lia].
    + right. lia.
  - destruct (loop_guard t s) eqn:Hg.
    + pose proof (budget_step startUrl t d s Hcard Hg (proj1 Hs)) as Hb.
      pose proof (crawl_batch_run startUrl t d s (guard_batch t s Hg)) as Hrun.
      destruct (crawl_batch startUrl t d s) as [s1|s1|m s1] eqn:Hc; simpl in Hb.
      * by apply IH.
      * intros [= <-]. inversion Hrun as [| data w _ Hge Heq |data w _ _ Hm].
        -- right. rewrite <- Heq in Hb. lia.
        -- by destruct (visit_pages _ _ _ _).
      * done.
    + intros [= <-].
      unfold loop_guard in Hg. apply andb_false_iff in Hg as [Hq%Z.ltb_ge|Ha%Z.ltb_ge].
      * left. destruct (queue s); [done|simpl in Hq; lia].
      * right. lia.
Qed.

(** C2.  For a budget [t >= 0] and an analyzer that answers with one
    record per URL asked: the counter never exceeds [t]; no batch is
    longer than [BATCH_SIZE = 5]; the batch dequeued from a session with
    budget left has [min (BATCH_SIZE, t - analyzedCount)] URLs, or the
    whole queue if that is shorter, and these are the head of the queue;
    and a crawl that completes with URLs left in the queue has analyzed
    exactly [t] pages. *)
Theorem budget_respected fuel startUrl t excluded w :
  0 <= t ->
  analyzer_cardinal ->
  let o := handleCrawlStart fuel startUrl t excluded w in
  0 <= analyzedCount (session_of o) <= t
  /\ BATCH_SIZE = 5
  /\ Forall (fun b : list string => Z.of_nat (length b) <= BATCH_SIZE)
        (batches (log (session_of o)))
  /\ (forall d s, loop_guard t s = true ->
        let b := take (batch_limit t s) (queue s) in
        Z.of_nat (length b)
          = Z.min (Z.min BATCH_SIZE (t - analyzedCount s)) (Z.of_nat (length (queue s)))
        /\ batches (log (step_session (crawl_batch startUrl t d s)))
           = batches (log s) ++ [b]
        /\ analyzedCount (step_session (crawl_batch startUrl t d s)) <= t)
  /\ (forall s, o = Completed s -> queue s = [] \/ analyzedCount s = t).
Proof.
  intros Ht Hcard o.
  assert (H0 : 0 <= analyzedCount (initial_session startUrl excluded w) <= t).
  { unfold initial_session. simpl. case_bool_decide; simpl; lia. }
  assert (HB : Forall (fun b : list string => Z.of_nat (length b) <= BATCH_SIZE)
                 (batches (log (initial_session startUrl excluded w)))).
  { unfold initial_session. simpl. case_bool_decide; simpl; constructor. }
  assert (Hbud : 0 <= analyzedCount (session_of o) <= t).
  { subst o. unfold handleCrawlStart.
    destruct (hostname startUrl); [by apply budget_loop|exact H0]. }
  split; [exact Hbud|]. split_and!.
  - reflexivity.
  - subst o. unfold handleCrawlStart.
    destruct (hostname startUrl); [by apply batch_size_loop|exact HB].
  - intros d s Hg b. destruct (guard_queue t s Hg) as [_ Ha].
    pose proof (step_count startUrl t d s Hcard (guard_batch t s Hg)) as Hc.
    pose proof (batch_length t s Ha) as Hlen. simpl in Hc.
    split; [by apply batch_length|]. split; [apply step_batches; by apply guard_batch|].
    unfold BATCH_SIZE in Hlen.
    destruct (crawl_batch startUrl t d s); simpl; lia.
  - intros s. subst o. unfold handleCrawlStart.
    destruct (hostname startUrl); [|done]. by apply completed_on_budget.
Qed.

(** ** Termination *)

(** The remaining budget bounds the iterations left. *)
Lemma crawl_loop_fuel startUrl t d :
  analyzer_cardinal ->
  forall fuel s, (Z.to_nat (t - analyzedCount s) <= fuel)%nat ->
    finished (crawl_loop fuel startUrl t d s).
Proof.
  intros Hcard fuel. induction fuel as [|fuel IH]; intros s Hf; simpl.
  - destruct (loop_guard t s) eqn:Hg; [|done].
    destruct (guard_queue t s Hg) as [_ Ha]. lia.
  - destruct (loop_guard t s) eqn:Hg; [|done].
    pose proof (guard_batch t s Hg) as Hne.
    pose proof (step_count startUrl t d s Hcard Hne) as Hc. simpl in Hc.
    destruct (crawl_batch startUrl t d s) as [s1|s1|m s1]; [|done|done].
    apply IH. destruct (take (batch_limit t s) (queue s)); [done|].
    simpl in Hc. lia.
Qed.

Lemma batch_count_loop startUrl t d fuel s :
  analyzer_cardinal ->
  Z.of_nat (length (batches (log s))) <= analyzedCount s <= t ->
  Z.of_nat (length (batches (log (session_of (crawl_loop fuel startUrl t d s))))) <= t.
Proof.
  intros Hcard.
  apply (crawl_loop_rule
           (fun s => Z.of_nat (length (batches (log s))) <= analyzedCount s <= t)
           (fun s => Z.of_nat (length (batches (log s))) <= t)).
  - intros s'. lia.
  - intros s' Hs Hg.
    pose proof (guard_batch t s' Hg) as Hne.
    destruct (guard_queue t s' Hg) as [_ Ha].
    pose proof (step_count startUrl t d s' Hcard Hne) as Hc.
    pose proof (step_batches startUrl t d s' Hne) as Hb.
    pose proof (batch_length t s' Ha) as Hlen.
    apply (f_equal length) in Hb. rewrite length_app in Hb. simpl in Hb, Hc.
    destruct (take (batch_limit t s') (queue s')) as [|u b]; [done|]. simpl in Hc, Hlen.
    destruct (crawl_batch startUrl t d s'); simpl in *; lia.
Qed.

(** Whatever the collaborators answer, an iteration that goes on has either
    raised the counter or, the analyzer having returned no record, left
    the counter as it was and shortened the queue. *)
Lemma continue_progress startUrl t d s s' :
  loop_guard t s = true ->
  crawl_batch startUrl t d s = Continue s' ->
  analyzedCount s < analyzedCount s'
  \/ (analyzedCount s' = analyzedCount s /\ (length (queue s') < length (queue s))%nat).
Proof.
  intros Hg Hc. pose proof (guard_batch t s Hg) as Hne.
  destruct (guard_queue t s Hg) as [Hq _].
  pose proof (crawl_batch_run startUrl t d s Hne) as Hrun. rewrite Hc in Hrun.
  inversion Hrun as [| |data w Hgen Hb Hm]. clear Hrun.
  pose proof (visit_pages_grows t d (merge_inlinks (allInlinks s) (decoded data))
                (after_analysis s (batch_limit t s) (decoded data) w)) as G.
  pose proof (after_analysis_count s (batch_limit t s) (decoded data) w) as Ha.
  destruct data as [|p data].
  - right. simpl in Hm. injection Hm as <-. split; [simpl; lia|]. simpl.
    rewrite length_drop. destruct (batch_limit t s); [done|].
    destruct (queue s); [done|simpl; lia].
  - left. destruct (visit_pages _ _ _ _) as [s4|m4 s4]; [|done].
    injection Hm as ->.
    change (grows d (after_analysis s (batch_limit t s) (decoded (p :: data)) w) s') in G.
    destruct G as [new _ _ _ _ _ _ _ C].
    rewrite C, Ha. simpl. lia.
Qed.

(** The loop ends, whatever the collaborators answer: some number of
    iterations is enough. *)
Lemma crawl_loop_total startUrl t d s :
  exists fuel, finished (crawl_loop fuel startUrl t d s).
Proof.
  assert (H : forall n1 n2 s0,
            (Z.to_nat (t - analyzedCount s0) <= n1)%nat ->
            (length (queue s0) <= n2)%nat ->
            exists fuel, finished (crawl_loop fuel startUrl t d s0)).
  { induction n1 as [|n1 IH1].
    - intros n2 s0 H1 _. exists 0%nat. simpl.
      destruct (loop_guard t s0) eqn:Hg; [|done].
      destruct (guard_queue t s0 Hg) as [_ Ha]. lia.
    - induction n2 as [|n2 IH2]; intros s0 H1 H2.
      + exists 0%nat. simpl. destruct (loop_guard t s0) eqn:Hg; [|done].
        destruct (guard_queue t s0 Hg) as [Hq _].
        destruct (queue s0); [done|simpl in H2; lia].
      + destruct (loop_guard t s0) eqn:Hg;
          [|exists 0%nat; simpl; by rewrite Hg].
        destruct (crawl_batch startUrl t d s0) as [s1|s1|m s1] eqn:Hc;
          [|exists 1%nat; simpl; by rewrite Hg, Hc..].
        destruct (guard_queue t s0 Hg) as [_ Ha].
        destruct (continue_progress startUrl t d s0 s1 Hg Hc) as [Hlt|[Heq Hq]].
        * destruct (IH1 (length (queue s1)) s1) as [f Hf]; [lia|lia|].
          exists (S f). simpl. by rewrite Hg, Hc.
        * destruct (IH2 s1) as [f Hf]; [lia|lia|].
          exists (S f). simpl. by rewrite Hg, Hc. }
  by apply (H (Z.to_nat (t - analyzedCount s)) (length (queue s))).
Qed.

(** With collaborators that never fail, no iteration throws. *)
Lemma visit_pages_done t d batchResults s :
  (forall pageUrl siteDomain w, exists newLinks w',
      generateLinks pageUrl siteDomain w = (inr (Iterable newLinks), w')) ->
  exists s', visit_pages t d s batchResults = Done s'.
Proof.
  intros Hlinks. revert s.
  induction batchResults as [|page rest IH]; intros s; simpl; [by exists s|].
  assert (Hv : exists s1, visit_page t d s page = Done s1).
  { unfold visit_page, extractLinksFromPage.
    destruct (400 <=? status page); [by exists s|].
    destruct (oversupplied t s); [by exists s|]. simpl.
    destruct (Hlinks (url page) d (world s)) as (newLinks & w' & ->). by eexists. }
  destruct Hv as [s1 ->]. apply IH.
Qed.

Lemma crawl_loop_completes startUrl t d :
  (forall urls ctx w, exists data w', generateAnalysis urls ctx w = (inr data, w')) ->
  (forall pageUrl siteDomain w, exists newLinks w',
      generateLinks pageUrl siteDomain w = (inr (Iterable newLinks), w')) ->
  forall fuel s, finished (crawl_loop fuel startUrl t d s) ->
    exists s', crawl_loop fuel startUrl t d s = Completed s'.
Proof.
  intros Hana Hlinks fuel. induction fuel as [|fuel IH]; intros s; simpl.
  - destruct (loop_guard t s); [done|]. by exists s.
  - destruct (loop_guard t s) eqn:Hg; [|by exists s].
    pose proof (crawl_batch_run startUrl t d s (guard_batch t s Hg)) as Hrun.
    destruct Hrun as [error w Hgen|data w Hgen Hb|data w Hgen Hb].
    + destruct (Hana (take (batch_limit t s) (queue s)) startUrl (world s))
        as (data & w' & Hd). congruence.
    + by eexists.
    + destruct (visit_pages_done t d (merge_inlinks (allInlinks s) (decoded data))
                  (after_analysis s (batch_limit t s) (decoded data) w) Hlinks)
        as [s4 ->].
      apply IH.
Qed.

(** C9.  For a budget [t >= 0] and an analyzer that answers with one
    record per URL asked: however many iterations a run is given, it
    submits at most [t] batches; [t] iterations are enough for the loop to
    end, and more change nothing; every iteration that goes on to the next
    has dequeued a non-empty batch and raised the counter, which stays
    within [t].  When moreover no call of a collaborator fails, the
    extractor answering with links every time, the crawl ends by
    completing (or, with a seed that does not parse, before the loop). *)
Theorem crawl_terminates startUrl t excluded w :
  0 <= t ->
  analyzer_cardinal ->
  let run := fun fuel => handleCrawlStart fuel startUrl t excluded w in
  (forall fuel, Z.of_nat (length (batches (log (session_of (run fuel))))) <= t)
  /\ (forall fuel, (Z.to_nat t <= fuel)%nat ->
        finished (run fuel) /\ run fuel = run (Z.to_nat t))
  /\ (forall d s s', loop_guard t s = true ->
        crawl_batch startUrl t d s = Continue s' ->
        take (batch_limit t s) (queue s) <> []
        /\ analyzedCount s < analyzedCount s' <= t)
  /\ ((forall urls ctx w0, exists data w1,
          generateAnalysis urls ctx w0 = (inr data, w1)) ->
      (forall pageUrl siteDomain w0, exists newLinks w1,
          generateLinks pageUrl siteDomain w0 = (inr (Iterable newLinks), w1)) ->
      forall fuel, (Z.to_nat t <= fuel)%nat ->
        (exists s, run fuel = Completed s)
        \/ (hostname startUrl = None
            /\ run fuel = Failed (InvalidUrl startUrl) (initial_session startUrl excluded w))).
Proof.
  intros Ht Hcard run.
  assert (Ha0 : analyzedCount (initial_session startUrl excluded w) = 0).
  { unfold initial_session. simpl. by case_bool_decide. }
  assert (Hb0 : batches (log (initial_session startUrl excluded w)) = []).
  { unfold initial_session. simpl. by case_bool_decide. }
  assert (Hfin : forall fuel, (Z.to_nat t <= fuel)%nat -> finished (run fuel)).
  { intros fuel Hf. subst run. simpl. unfold handleCrawlStart.
    destruct (hostname startUrl) as [d|]; [|done].
    apply crawl_loop_fuel; [done|]. rewrite Ha0. by rewrite Z.sub_0_r. }
  split_and!.
  - intros fuel. subst run. simpl. unfold handleCrawlStart.
    destruct (hostname startUrl) as [d|]; simpl.
    + apply batch_count_loop; [done|]. rewrite Ha0, Hb0. simpl. lia.
    + rewrite Hb0. simpl. lia.
  - intros fuel Hf. split; [by apply Hfin|].
    specialize (Hfin (Z.to_nat t) (Nat.le_refl _)).
    subst run. simpl in *. unfold handleCrawlStart in *.
    destruct (hostname startUrl) as [d|]; [|done].
    replace fuel with (Z.to_nat t + (fuel - Z.to_nat t))%nat by lia.
    apply crawl_loop_stable. intros s' Hs'. by rewrite Hs' in Hfin.
  - intros d s s' Hg Hc.
    pose proof (guard_batch t s Hg) as Hne. split; [done|].
    destruct (guard_queue t s Hg) as [_ Ha].
    pose proof (step_count startUrl t d s Hcard Hne) as Hs.
    pose proof (batch_length t s Ha) as Hlen.
    rewrite Hc in Hs. simpl in Hs.
    destruct (take (batch_limit t s) (queue s)); [done|]. simpl in Hs, Hlen. lia.
  - intros Hana Hlinks fuel Hf. specialize (Hfin fuel Hf).
    subst run. simpl in *. unfold handleCrawlStart in *.
    destruct (hostname startUrl) as [d|]; [left|by right].
    by apply crawl_loop_completes.
Qed.

(** ** First in, first out *)

Lemma elem_of_concat (x : string) (ls : list (list string)) :
  x ∈ concat ls <-> exists l, l ∈ ls /\ x ∈ l.
Proof.
  induction ls as [|l ls IH]; simpl.
  - split; [by intros ?%elem_of_nil|by intros (l & ?%elem_of_nil & _)].
  - rewrite elem_of_app, IH. split.
    + intros [H|(l' & H1 & H2)]; [exists l|exists l']; split; try done;
        [by left|by right].
    + intros (l' & [->|H1]%elem_of_cons & H2); [by left|right; by exists l'].
Qed.

(** In a queue discipline where the URLs dequeued so far, batch after
    batch, followed by the queue, are the URLs pushed so far: of two URLs
    pushed, the one pushed first is in the same batch as the other or in an
    earlier one. *)
Lemma fifo_order (E q : list string) (bs : list (list string)) i j A B m b :
  NoDup E -> concat bs ++ q = E ->
  (i < j)%nat -> E !! i = Some A -> E !! j = Some B ->
  bs !! m = Some b -> B ∈ b ->
  exists k b', (k <= m)%nat /\ bs !! k = Some b' /\ A ∈ b'.
Proof.
  intros ND HE Hij HA HB Hm HBb.
  pose proof (take_drop_middle bs m b Hm) as Hsplit.
  assert (Hpre : concat (take (S m) bs) `prefix_of` E).
  { exists (concat (drop (S m) bs) ++ q).
    by rewrite app_assoc, <- concat_app, take_drop. }
  assert (HBin : B ∈ concat (take (S m) bs)).
  { rewrite (take_S_r bs m b Hm), concat_app. simpl. rewrite app_nil_r.
    apply elem_of_app. by right. }
  apply list_elem_of_lookup in HBin as [p Hp].
  pose proof (prefix_lookup_Some _ _ _ _ Hp Hpre) as Hp'.
  assert (p = j) by (by apply (NoDup_lookup E p j B)). subst p.
  apply lookup_lt_Some in Hp.
  assert (HAin : concat (take (S m) bs) !! i = Some A).
  { destruct Hpre as [rest Hrest]. rewrite Hrest in HA.
    rewrite lookup_app_l in HA by lia. done. }
  apply list_elem_of_lookup_2, elem_of_concat in HAin as (b' & Hb' & HAb').
  apply elem_of_take in Hb' as (k & Hk & Hlt).
  exists k, b'. split_and!; [lia|done|done].
Qed.

Lemma step_log_prefix startUrl t d s :
  log s `prefix_of` log (step_session (crawl_batch startUrl t d s)).
Proof.
  destruct (decide (take (batch_limit t s) (queue s) = [])) as [He|Hne].
  - by rewrite (crawl_batch_empty startUrl t d s He).
  - destruct (crawl_batch_run startUrl t d s Hne) as [error w Hg|data w Hg Hb|data w Hg Hb].
    + simpl. by apply prefix_app_r.
    + simpl. by apply prefix_app_r.
    + pose proof (visit_pages_grows t d (merge_inlinks (allInlinks s) (decoded data))
                    (after_analysis s (batch_limit t s) (decoded data) w)) as G.
      destruct (visit_pages _ _ _ _) as [s4|message s4]; simpl in G |- *;
        destruct G as [new L _ _ _ _ _ _ _]; rewrite L, after_analysis_log;
        by apply prefix_app_r, prefix_app_r.
Qed.

Lemma loop_log_prefix startUrl t d fuel s :
  log s `prefix_of` log (session_of (crawl_loop fuel startUrl t d s)).
Proof.
  apply (crawl_loop_invariant (fun s' => log s `prefix_of` log s')); [|done].
  intros s' Hs _. etrans; [exact Hs|apply step_log_prefix].
Qed.

(** The session of a longer run continues the session of a shorter one. *)
Lemma run_continues fuel0 fuel startUrl t excluded w :
  (fuel0 <= fuel)%nat ->
  session_of (handleCrawlStart fuel startUrl t excluded w)
  = session_of (handleCrawlStart fuel0 startUrl t excluded w)
  \/ exists d, hostname startUrl = Some d
       /\ session_of (handleCrawlStart fuel startUrl t excluded w)
          = session_of (crawl_loop (fuel - fuel0) startUrl t d
                          (session_of (handleCrawlStart fuel0 startUrl t excluded w))).
Proof.
  intros Hf.
  assert (exists k, fuel = (fuel0 + k)%nat) as [k ->] by (exists (fuel - fuel0)%nat; lia).
  replace (fuel0 + k - fuel0)%nat with k by lia.
  unfold handleCrawlStart.
  destruct (hostname startUrl) as [d|]; [|by left].
  destruct (crawl_loop fuel0 startUrl t d (initial_session startUrl excluded w))
    as [s0|f s0|s0] eqn:H0.
  - left. rewrite crawl_loop_stable; [by rewrite H0|]. intros s'. by rewrite H0.
  - left. rewrite crawl_loop_stable; [by rewrite H0|]. intros s'. by rewrite H0.
  - right. exists d. split; [done|]. by rewrite (crawl_loop_resume _ _ _ _ _ _ _ H0).
Qed.

Lemma run_log_prefix fuel0 fuel startUrl t excluded w :
  (fuel0 <= fuel)%nat ->
  log (session_of (handleCrawlStart fuel0 startUrl t excluded w))
    `prefix_of` log (session_of (handleCrawlStart fuel startUrl t excluded w)).
Proof.
  intros Hf.
  destruct (run_continues fuel0 fuel startUrl t excluded w Hf) as [->|(d & _ & ->)];
    [done|apply loop_log_prefix].
Qed.

(** What an iteration does to the queue: it removes the batch from the
    head, keeps the rest in order and appends the URLs pushed. *)
Lemma step_queue startUrl t d s :
  exists new,
    queue (step_session (crawl_batch startUrl t d s))
      = drop (batch_limit t s) (queue s) ++ new
    /\ pushed (log (step_session (crawl_batch startUrl t d s)))
       = pushed (log s) ++ new.
Proof.
  destruct (decide (take (batch_limit t s) (queue s) = [])) as [He|Hne].
  - rewrite (crawl_batch_empty startUrl t d s He). exists []. simpl.
    by rewrite !app_nil_r.
  - destruct (crawl_batch_run startUrl t d s Hne) as [error w Hg|data w Hg Hb|data w Hg Hb].
    + exists []. simpl. by rewrite pushed_app, !app_nil_r.
    + exists []. simpl. by rewrite pushed_app, !app_nil_r.
    + pose proof (visit_pages_grows t d (merge_inlinks (allInlinks s) (decoded data))
                    (after_analysis s (batch_limit t s) (decoded data) w)) as G.
      destruct (visit_pages _ _ _ _) as [s4|message s4]; simpl in G |- *;
        destruct G as [new L Q _ _ _ _ _ _]; exists (pushed new);
        rewrite L, Q, after_analysis_log, !pushed_app; simpl;
        by rewrite app_nil_r.
Qed.

(** C3.  The queue is first in, first out.  An iteration takes its batch
    from the head of the queue, leaves the rest in order and appends what
    it pushes at the tail.  At any time the URLs pushed so far, in push
    order, are the URLs dequeued so far, batch after batch, followed by the
    queue.  Hence of two URLs pushed at positions [i < j] the first is
    never analyzed in a later batch than the second; and the same holds of
    two URLs at positions [i < j] of the queue at any moment of the
    crawl. *)
Theorem frontier_fifo fuel startUrl t excluded w :
  let s := session_of (handleCrawlStart fuel startUrl t excluded w) in
  (forall d s0, exists new,
     queue (step_session (crawl_batch startUrl t d s0))
       = drop (batch_limit t s0) (queue s0) ++ new
     /\ pushed (log (step_session (crawl_batch startUrl t d s0)))
        = pushed (log s0) ++ new
     /\ (take (batch_limit t s0) (queue s0) <> [] ->
         batches (log (step_session (crawl_batch startUrl t d s0)))
         = batches (log s0) ++ [take (batch_limit t s0) (queue s0)]))
  /\ concat (batches (log s)) ++ queue s = pushed (log s)
  /\ (forall i j A B m b,
        (i < j)%nat ->
        pushed (log s) !! i = Some A -> pushed (log s) !! j = Some B ->
        batches (log s) !! m = Some b -> B ∈ b ->
        exists k b', (k <= m)%nat /\ batches (log s) !! k = Some b' /\ A ∈ b')
  /\ (forall fuel0 i j A B m b,
        (fuel0 <= fuel)%nat ->
        let s0 := session_of (handleCrawlStart fuel0 startUrl t excluded w) in
        (i < j)%nat ->
        queue s0 !! i = Some A -> queue s0 !! j = Some B ->
        batches (log s) !! m = Some b -> B ∈ b ->
        exists k b', (k <= m)%nat /\ batches (log s) !! k = Some b' /\ A ∈ b').
Proof.
  intros s.
  pose proof (Inv_run fuel startUrl t excluded w) as HI. fold s in HI.
  assert (Horder : forall i j A B m b,
        (i < j)%nat ->
        pushed (log s) !! i = Some A -> pushed (log s) !! j = Some B ->
        batches (log s) !! m = Some b -> B ∈ b ->
        exists k b', (k <= m)%nat /\ batches (log s) !! k = Some b' /\ A ∈ b').
  { intros i j A B m b. apply (fifo_order (pushed (log s)) (queue s));
      [apply (inv_nodup _ _ _ HI)|apply (inv_fifo _ _ _ HI)]. }
  split_and!.
  - intros d s0. destruct (step_queue startUrl t d s0) as (new & Hq & Hp).
    exists new. split_and!; [done|done|apply step_batches].
  - apply (inv_fifo _ _ _ HI).
  - exact Horder.
  - intros fuel0 i j A B m b Hf s0 Hij HA HB.
    pose proof (Inv_run fuel0 startUrl t excluded w) as HI0. fold s0 in HI0.
    pose proof (run_log_prefix fuel0 fuel startUrl t excluded w Hf) as [rest Hrest].
    fold s s0 in Hrest.
    set (n := length (concat (batches (log s0)))).
    assert (Hpos : forall p x, queue s0 !! p = Some x ->
                     pushed (log s) !! (n + p)%nat = Some x).
    { intros p x Hp. rewrite Hrest, pushed_app. apply lookup_app_l_Some.
      rewrite <- (inv_fifo _ _ _ HI0). by rewrite lookup_app_r, Nat.add_comm, Nat.add_sub
        by (subst n; lia). }
    apply (Horder (n + i)%nat (n + j)%nat A B m b); [lia|by apply Hpos|by apply Hpos].
Qed.

(** ** Inlink snapshots *)

(** What an iteration whose analysis succeeded appends to the results. *)
Lemma step_results startUrl t d s data w :
  take (batch_limit t s) (queue s) <> [] ->
  generateAnalysis (take (batch_limit t s) (queue s)) startUrl (world s) = (inr data, w) ->
  results (step_session (crawl_batch startUrl t d s))
  = results s ++ merge_inlinks (allInlinks s) (decoded data).
Proof.
  intros Hne Hg.
  destruct (crawl_batch_run startUrl t d s Hne) as [error w' Hg'|data' w' Hg' Hb|data' w' Hg' Hb];
    rewrite Hg in Hg';
    [discriminate|injection Hg' as <- <-; done|injection Hg' as <- <-].
  pose proof (visit_pages_grows t d (merge_inlinks (allInlinks s) (decoded data))
                (after_analysis s (batch_limit t s) (decoded data) w)) as G.
  destruct (visit_pages _ _ _ _) as [s4|message s4]; simpl in G |- *;
    destruct G as [new _ _ _ _ _ _ R _]; by rewrite R.
Qed.

Lemma step_results_prefix startUrl t d s :
  results s `prefix_of` results (step_session (crawl_batch startUrl t d s)).
Proof.
  destruct (decide (take (batch_limit t s) (queue s) = [])) as [He|Hne].
  - by rewrite (crawl_batch_empty startUrl t d s He).
  - destruct (generateAnalysis (take (batch_limit t s) (queue s)) startUrl (world s))
      as [[error|data] w] eqn:Hg.
    + destruct (crawl_batch_run startUrl t d s Hne)
        as [error' w' Hg'|data' w' Hg' Hb|data' w' Hg' Hb];
        rewrite Hg in Hg'; by simplify_eq.
    + rewrite (step_results startUrl t d s data w Hne Hg). by apply prefix_app_r.
Qed.

Lemma loop_results_prefix startUrl t d fuel s :
  results s `prefix_of` results (session_of (crawl_loop fuel startUrl t d s)).
Proof.
  apply (crawl_loop_invariant (fun s' => results s `prefix_of` results s')); [|done].
  intros s' Hs _. etrans; [exact Hs|apply step_results_prefix].
Qed.

Lemma merge_inlinks_lookup m pages page :
  page ∈ merge_inlinks m pages -> inlinks page = inlinks_of m (url page).
Proof.
  unfold merge_inlinks. intros (p & -> & _)%list_elem_of_fmap. done.
Qed.

(** ** Failures of the collaborators *)


Lemma analysis_failure_throws startUrl t d s error w :
  take (batch_limit t s) (queue s) <> [] ->
  generateAnalysis (take (batch_limit t s) (queue s)) startUrl (world s) = (inl error, w) ->
  crawl_batch startUrl t d s
  = Throw (handleApiError error "page analysis")
      (set_world w
         (add_log (EvAnalyze (take (batch_limit t s) (queue s)))
            (set_queue (drop (batch_limit t s) (queue s)) s))).
Proof.
  intros Hne Hg.
  destruct (crawl_batch_run startUrl t d s Hne) as [error' w' Hg'|data' w' Hg' Hb|data' w' Hg' Hb];
    rewrite Hg in Hg'; [by injection Hg' as <- <-|discriminate|discriminate].
Qed.

(** A throw out of the page loop comes from a call of the extractor, which
    failed or answered with a value that is not iterable, and that call is
    the last thing that happened. *)
Lemma visit_pages_raised t d batchResults s message s' :
  visit_pages t d s batchResults = Raised message s' ->
  exists page pre,
    page ∈ batchResults
    /\ ((exists error,
           message = handleApiError error ("link extraction for " +:+ url page))
        \/ message = notIterableMessage)
    /\ log s' = pre ++ [EvExtract (url page)].
Proof.
  revert s. induction batchResults as [|page rest IH]; intros s; simpl; [done|].
  destruct (visit_page t d s page) as [s1|m s1] eqn:Hv.
  - intros H. destruct (IH s1 H) as (p & pre & Hp & Hm & Hl).
    exists p, pre. split; [by right|done].
  - intros [= <- <-]. unfold visit_page, extractLinksFromPage in Hv.
    destruct (400 <=? status page); [done|].
    destruct (oversupplied t s); [done|]. simpl in Hv.
    destruct (generateLinks _ _ _) as [[error|[newLinks|]] w]; [|done|];
      injection Hv as <- <-; exists page, (log s); (split; [by left|]);
      (split; [|done]); [left; by exists error|by right].
Qed.


(** * Further properties of the crawl loop *)

(** ** Counters *)

(** X1.  After any number of iterations the counter of analyzed pages is the
    number of pages in the results, and the size of the visited set (the
    number the progress message gives as discovered) is the number of
    exclusions plus the number of URLs pushed on the queue; the URLs
    pushed are as many as those submitted to the analyzer and those still
    in the queue together. *)
Theorem progress_counters fuel startUrl t excluded w :
  let s := session_of (handleCrawlStart fuel startUrl t excluded w) in
  analyzedCount s = Z.of_nat (length (results s))
  /\ size (seenUrls s) = (size excluded + length (pushed (log s)))%nat
  /\ length (pushed (log s))
     = (length (concat (batches (log s))) + length (queue s))%nat.
Proof.
  intros s. pose proof (Inv_run fuel startUrl t excluded w) as HI. fold s in HI.
  split; [apply (inv_count _ _ _ HI)|]. split; [apply (Inv_size _ _ _ HI)|].
  by rewrite <- (inv_fifo _ _ _ HI), length_app.
Qed.

(** ** The order of the results *)

Lemma crawl_loop_outcome_rule (P Q : Session -> Prop) startUrl t d :
  (forall s, P s -> loop_guard t s = true ->
     match crawl_batch startUrl t d s with
     | Continue s' | Break s' => P s'
     | Throw _ s' => Q s'
     end) ->
  forall fuel s, P s ->
    match crawl_loop fuel startUrl t d s with
    | Completed s' | OutOfFuel s' => P s'
    | Failed _ s' => Q s'
    end.
Proof.
  intros Hstep fuel. induction fuel as [|fuel IH]; intros s Hs; simpl.
  - by destruct (loop_guard t s).
  - destruct (loop_guard t s) eqn:Hg; [|done].
    specialize (Hstep s Hs Hg).
    destruct (crawl_batch startUrl t d s); [by apply IH|done|done].
Qed.

Lemma echo_step_strict startUrl t d s :
  analyzer_echoes ->
  take (batch_limit t s) (queue s) <> [] ->
  map url (results s) = concat (batches (log s)) ->
  match crawl_batch startUrl t d s with
  | Continue s' | Break s' => map url (results s') = concat (batches (log s'))
  | Throw _ s' => True
  end.
Proof.
  intros Hecho Hne Hres.
  assert (Hafter : forall data w,
    generateAnalysis (take (batch_limit t s) (queue s)) startUrl (world s) = (inr data, w) ->
    map url (results (after_analysis s (batch_limit t s) (decoded data) w))
    = concat (batches (log (after_analysis s (batch_limit t s) (decoded data) w)))).
  { intros data w Hg.
    rewrite after_analysis_results, after_analysis_log, batches_analyze.
    rewrite map_app, url_merge, url_decoded, (Hecho _ _ _ _ _ Hg).
    rewrite concat_app. simpl. by rewrite app_nil_r, Hres. }
  destruct (crawl_batch_run startUrl t d s Hne) as [error w Hg|data w Hg Hb|data w Hg Hb].
  - done.
  - by apply Hafter.
  - pose proof (visit_pages_grows t d (merge_inlinks (allInlinks s) (decoded data))
                  (after_analysis s (batch_limit t s) (decoded data) w)) as G.
    destruct (visit_pages _ _ _ _) as [s4|message s4]; [|done]. simpl in G.
    destruct G as [new L _ _ _ _ E R _].
    rewrite R, L, batches_app, (discovery_no_batches d new E), app_nil_r.
    by apply Hafter.
Qed.

(** X2.  With an analyzer that answers with one record per URL asked,
    carrying that URL: the URLs of the results are a beginning of the URLs
    pushed on the queue, in push order; and unless the run failed, the
    results followed by the queue are exactly the URLs pushed, so that a
    page is reported in the place its URL was discovered. *)
Theorem results_in_discovery_order fuel startUrl t excluded w :
  analyzer_echoes ->
  let o := handleCrawlStart fuel startUrl t excluded w in
  map url (results (session_of o)) `prefix_of` pushed (log (session_of o))
  /\ match o with
     | Failed _ _ => True
     | Completed s | OutOfFuel s => map url (results s) ++ queue s = pushed (log s)
     end.
Proof.
  intros Hecho o.
  pose proof (Inv_run fuel startUrl t excluded w) as HI. fold o in HI.
  split.
  - etrans; [apply (echo_run fuel startUrl t excluded w Hecho)|].
    exists (queue (session_of o)). symmetry. apply (inv_fifo _ _ _ HI).
  - assert (H0 : map url (results (initial_session startUrl excluded w))
                 = concat (batches (log (initial_session startUrl excluded w)))).
    { unfold initial_session. simpl. by case_bool_decide. }
    unfold o, handleCrawlStart in HI |- *.
    destruct (hostname startUrl) as [d|]; [|done].
    pose proof (crawl_loop_outcome_rule
                  (fun s => map url (results s) = concat (batches (log s)))
                  (fun _ => True) startUrl t d) as Hrule.
    specialize (Hrule (fun s Hs Hg =>
                  echo_step_strict startUrl t d s Hecho (guard_batch t s Hg) Hs)
                  fuel _ H0).
    destruct (crawl_loop fuel startUrl t d (initial_session startUrl excluded w));
      simpl in HI; [|done|]; by rewrite Hrule, (inv_fifo _ _ _ HI).
Qed.

(** ** The inlink map *)

Lemma record_link_map d pageUrl s link :
  allInlinks (record_link d pageUrl s link)
  = match hostname (link_url link) with
    | None => allInlinks s
    | Some _ =>
        <[link_url link := inlinks_of (allInlinks s) (link_url link)
                             ++ [mkInlink pageUrl (link_anchorText link)]]> (allInlinks s)
    end.
Proof.
  unfold record_link. destruct (hostname (link_url link)); [|done]. simpl.
  by destruct (bool_decide _ && _).
Qed.

Lemma record_link_extracted d pageUrl s link :
  extracted (log (record_link d pageUrl s link)) = extracted (log s)
  /\ results (record_link d pageUrl s link) = results s.
Proof.
  unfold record_link. destruct (hostname (link_url link)); [|done]. simpl.
  destruct (bool_decide _ && _); simpl; [|done].
  by rewrite extracted_app, app_nil_r.
Qed.

Lemma edges_kept_refl s : edges_kept s s.
Proof. by intros u. Qed.

Lemma edges_kept_trans s1 s2 s3 :
  edges_kept s1 s2 -> edges_kept s2 s3 -> edges_kept s1 s3.
Proof. intros H1 H2 u. etrans; [apply H1|apply H2]. Qed.

Lemma edges_kept_same s s' : allInlinks s' = allInlinks s -> edges_kept s s'.
Proof. intros E u. by rewrite E. Qed.

Lemma record_link_edges_kept d pageUrl s link :
  edges_kept s (record_link d pageUrl s link).
Proof.
  intros u. rewrite record_link_map.
  destruct (hostname (link_url link)); [|done].
  unfold inlinks_of at 2. destruct (decide (link_url link = u)) as [->|Hne].
  - rewrite lookup_insert_eq. simpl. by apply prefix_app_r.
  - by rewrite lookup_insert_ne.
Qed.

Lemma record_links_edges_kept d pageUrl newLinks s :
  edges_kept s (record_links d pageUrl s newLinks).
Proof.
  unfold record_links. revert s.
  induction newLinks as [|link rest IH]; intros s; simpl; [apply edges_kept_refl|].
  eapply edges_kept_trans; [apply record_link_edges_kept|apply IH].
Qed.

Lemma visit_page_edges_kept t d s page :
  edges_kept s (attempt_session (visit_page t d s page)).
Proof.
  unfold visit_page.
  destruct (400 <=? status page); [apply edges_kept_refl|].
  destruct (oversupplied t s); [apply edges_kept_refl|].
  destruct (extractLinksFromPage _ _ _) as [[message|[newLinks|]] w]; simpl.
  - by apply edges_kept_same.
  - eapply edges_kept_trans; [|apply record_links_edges_kept].
    by apply edges_kept_same.
  - by apply edges_kept_same.
Qed.

Lemma visit_pages_edges_kept t d batchResults s :
  edges_kept s (attempt_session (visit_pages t d s batchResults)).
Proof.
  revert s. induction batchResults as [|page rest IH]; intros s; simpl;
    [apply edges_kept_refl|].
  pose proof (visit_page_edges_kept t d s page) as G.
  destruct (visit_page t d s page) as [s'|message s']; simpl in *; [|done].
  eapply edges_kept_trans; [exact G|apply IH].
Qed.

Lemma step_edges_kept startUrl t d s :
  edges_kept s (step_session (crawl_batch startUrl t d s)).
Proof.
  destruct (decide (take (batch_limit t s) (queue s) = [])) as [He|Hne].
  - rewrite (crawl_batch_empty startUrl t d s He). by apply edges_kept_same.
  - destruct (crawl_batch_run startUrl t d s Hne) as [error w Hg|data w Hg Hb|data w Hg Hb].
    + by apply edges_kept_same.
    + by apply edges_kept_same.
    + pose proof (visit_pages_edges_kept t d (merge_inlinks (allInlinks s) (decoded data))
                    (after_analysis s (batch_limit t s) (decoded data) w)) as G.
      destruct (visit_pages _ _ _ _) as [s4|message s4]; simpl in G |- *;
        (eapply edges_kept_trans; [|exact G]); by apply edges_kept_same.
Qed.

Lemma loop_edges_kept startUrl t d fuel s :
  edges_kept s (session_of (crawl_loop fuel startUrl t d s)).
Proof.
  apply (crawl_loop_invariant (fun s' => edges_kept s s')); [|apply edges_kept_refl].
  intros s' Hs _. eapply edges_kept_trans; [exact Hs|apply step_edges_kept].
Qed.

(** What an iteration does to the results: nothing, or it appends the
    analyzer's records merged with the map it started with. *)
Lemma step_results_cases startUrl t d s :
  results (step_session (crawl_batch startUrl t d s)) = results s
  \/ exists data w,
       generateAnalysis (take (batch_limit t s) (queue s)) startUrl (world s) = (inr data, w)
       /\ take (batch_limit t s) (queue s) <> []
       /\ results (step_session (crawl_batch startUrl t d s))
          = results s ++ merge_inlinks (allInlinks s) (decoded data).
Proof.
  destruct (decide (take (batch_limit t s) (queue s) = [])) as [He|Hne].
  - left. by rewrite (crawl_batch_empty startUrl t d s He).
  - destruct (generateAnalysis (take (batch_limit t s) (queue s)) startUrl (world s))
      as [[error|data] w] eqn:Hg.
    + left. by rewrite (analysis_failure_throws startUrl t d s error w Hne Hg).
    + right. exists data, w. split_and!; [done|done|].
      by apply (step_results startUrl t d s data w).
Qed.

Lemma snapshot_step startUrl t d s :
  (forall page, page ∈ results s ->
     inlinks page `prefix_of` inlinks_of (allInlinks s) (url page)) ->
  forall page, page ∈ results (step_session (crawl_batch startUrl t d s)) ->
    inlinks page
      `prefix_of` inlinks_of (allInlinks (step_session (crawl_batch startUrl t d s)))
                    (url page).
Proof.
  intros HJ page Hp.
  pose proof (step_edges_kept startUrl t d s (url page)) as Hk.
  destruct (step_results_cases startUrl t d s) as [E|(data & w & _ & _ & E)];
    rewrite E in Hp.
  - etrans; [by apply HJ|exact Hk].
  - apply elem_of_app in Hp as [Hp|Hp]; [etrans; [by apply HJ|exact Hk]|].
    by rewrite (merge_inlinks_lookup _ _ _ Hp).
Qed.

Lemma snapshot_run fuel startUrl t excluded w page :
  page ∈ results (session_of (handleCrawlStart fuel startUrl t excluded w)) ->
  inlinks page
    `prefix_of` inlinks_of
                  (allInlinks (session_of (handleCrawlStart fuel startUrl t excluded w)))
                  (url page).
Proof.
  revert page. unfold handleCrawlStart.
  assert (H0 : forall page, page ∈ results (initial_session startUrl excluded w) ->
            inlinks page `prefix_of`
              inlinks_of (allInlinks (initial_session startUrl excluded w)) (url page)).
  { unfold initial_session. simpl. intros page Hp.
    case_bool_decide; simpl in Hp; by apply elem_of_nil in Hp. }
  destruct (hostname startUrl) as [d|]; [|exact H0].
  apply (crawl_loop_invariant
           (fun s => forall page, page ∈ results s ->
              inlinks page `prefix_of` inlinks_of (allInlinks s) (url page)));
    [|exact H0].
  intros s' Hs _. by apply snapshot_step.
Qed.

(** X3.  The inlink map only grows: what it holds for a URL after some
    iterations is the beginning of what it holds after more.  The inlinks
    of every page of the results are the beginning of what the map holds
    for the URL of the page: a page may miss edges found after it was
    emitted, and carries no edge that the map does not have, in the same
    order. *)
Theorem inlinks_under_report fuel startUrl t excluded w :
  let s := session_of (handleCrawlStart fuel startUrl t excluded w) in
  (forall page, page ∈ results s ->
     inlinks page `prefix_of` inlinks_of (allInlinks s) (url page))
  /\ (forall fuel0 u, (fuel0 <= fuel)%nat ->
        inlinks_of (allInlinks (session_of (handleCrawlStart fuel0 startUrl t excluded w))) u
          `prefix_of` inlinks_of (allInlinks s) u).
Proof.
  intros s. split.
  - apply snapshot_run.
  - intros fuel0 u Hf. subst s.
    destruct (run_continues fuel0 fuel startUrl t excluded w Hf) as [->|(d & _ & ->)];
      [done|apply loop_edges_kept].
Qed.

(** ** Where edges come from *)

Lemma record_link_sourced d pageUrl s link :
  pageUrl ∈ extracted (log s) ->
  edges_sourced s -> edges_sourced (record_link d pageUrl s link).
Proof.
  intros Hp [K1 K2]. destruct (record_link_extracted d pageUrl s link) as [Ex Rs].
  split.
  - intros v Hv. rewrite Ex in Hv. rewrite Rs. by apply K1.
  - intros u edge He. rewrite Ex. rewrite record_link_map in He.
    destruct (hostname (link_url link)) as [h|] eqn:Hh; [|by apply K2].
    unfold inlinks_of in He. destruct (decide (link_url link = u)) as [<-|Hne].
    + rewrite lookup_insert_eq in He. simpl in He.
      apply elem_of_app in He as [He|He]; [by apply K2|].
      apply list_elem_of_singleton in He as ->. simpl. by rewrite Hh.
    + rewrite lookup_insert_ne in He by done. by apply K2.
Qed.

Lemma record_links_sourced d pageUrl newLinks s :
  pageUrl ∈ extracted (log s) ->
  edges_sourced s -> edges_sourced (record_links d pageUrl s newLinks).
Proof.
  unfold record_links. revert s.
  induction newLinks as [|link rest IH]; intros s Hp HK; simpl; [done|].
  apply IH; [|by apply record_link_sourced].
  by rewrite (proj1 (record_link_extracted d pageUrl s link)).
Qed.

Lemma visit_page_results t d s page :
  results (attempt_session (visit_page t d s page)) = results s.
Proof. by destruct (visit_page_grows t d s page). Qed.

Lemma visit_page_sourced t d s page :
  page ∈ results s ->
  edges_sourced s -> edges_sourced (attempt_session (visit_page t d s page)).
Proof.
  intros Hp [K1 K2]. unfold visit_page.
  destruct (400 <=? status page) eqn:Hs; [done|]. apply Z.leb_gt in Hs.
  destruct (oversupplied t s); [done|].
  assert (HK : forall w, edges_sourced (set_world w (add_log (EvExtract (url page)) s))).
  { intros w. split; simpl.
    - intros v Hv. rewrite extracted_app in Hv.
      apply elem_of_app in Hv as [Hv|Hv]; [by apply K1|].
      apply list_elem_of_singleton in Hv as ->. by exists page.
    - intros u edge He. destruct (K2 u edge He) as [Hsrc Hhost]. split; [|done].
      rewrite extracted_app. apply elem_of_app. by left. }
  destruct (extractLinksFromPage _ _ _) as [[message|[newLinks|]] w]; simpl;
    [apply HK| |apply HK].
  apply record_links_sourced; [|apply HK].
  simpl. rewrite extracted_app. apply elem_of_app. right. apply list_elem_of_here.
Qed.

Lemma visit_pages_sourced t d batchResults s :
  (forall page, page ∈ batchResults -> page ∈ results s) ->
  edges_sourced s -> edges_sourced (attempt_session (visit_pages t d s batchResults)).
Proof.
  revert s. induction batchResults as [|page rest IH]; intros s Hin HK; simpl; [done|].
  pose proof (visit_page_sourced t d s page (Hin page (list_elem_of_here _ _)) HK) as HK'.
  pose proof (visit_page_results t d s page) as HR.
  destruct (visit_page t d s page) as [s'|message s']; simpl in *; [|done].
  apply IH; [|done]. intros p Hp. rewrite HR. apply Hin. by right.
Qed.

Lemma step_sourced startUrl t d s :
  edges_sourced s -> edges_sourced (step_session (crawl_batch startUrl t d s)).
Proof.
  intros [K1 K2].
  destruct (decide (take (batch_limit t s) (queue s) = [])) as [He|Hne].
  - by rewrite (crawl_batch_empty startUrl t d s He).
  - assert (HA : forall pages w,
              edges_sourced (after_analysis s (batch_limit t s) pages w)).
    { intros pages w. split.
      - intros v Hv. rewrite after_analysis_log, extracted_app, app_nil_r in Hv.
        destruct (K1 v Hv) as (page & Hp & Hu & Hs). exists page.
        split; [|done]. rewrite after_analysis_results. apply elem_of_app. by left.
      - intros u edge He. rewrite after_analysis_log, extracted_app, app_nil_r.
        by apply K2. }
    destruct (crawl_batch_run startUrl t d s Hne) as [error w Hg|data w Hg Hb|data w Hg Hb].
    + split; simpl.
      * intros v Hv. rewrite extracted_app, app_nil_r in Hv. by apply K1.
      * intros u edge He. rewrite extracted_app, app_nil_r. by apply K2.
    + apply HA.
    + pose proof (visit_pages_sourced t d (merge_inlinks (allInlinks s) (decoded data))
                    (after_analysis s (batch_limit t s) (decoded data) w)) as G.
      destruct (visit_pages _ _ _ _) as [s4|message s4];
        (apply G; [|apply HA]); intros page Hp;
        rewrite after_analysis_results; apply elem_of_app; by right.
Qed.

Lemma sourced_run fuel startUrl t excluded w :
  edges_sourced (session_of (handleCrawlStart fuel startUrl t excluded w)).
Proof.
  unfold handleCrawlStart.
  assert (H0 : edges_sourced (initial_session startUrl excluded w)).
  { unfold initial_session. simpl. case_bool_decide;
      (split; simpl;
       [intros v Hv; by apply elem_of_nil in Hv
       |intros u edge He; unfold inlinks_of in He; rewrite lookup_empty in He;
        by apply elem_of_nil in He]). }
  destruct (hostname startUrl) as [d|]; [|exact H0].
  apply (crawl_loop_invariant edges_sourced); [|exact H0].
  intros s Hs _. by apply step_sourced.
Qed.

(** X4.  Every edge of the inlink map, and so every inlink of every page
    of the results, has as its source the URL of a page of the results
    whose status is below 400, and the map only has entries for URLs that
    parse; the extractor is only ever called for such pages. *)
Theorem inlink_sources_followed fuel startUrl t excluded w :
  let s := session_of (handleCrawlStart fuel startUrl t excluded w) in
  (forall v, v ∈ extracted (log s) ->
     exists source, source ∈ results s /\ url source = v /\ status source < 400)
  /\ (forall u edge, edge ∈ inlinks_of (allInlinks s) u ->
        is_Some (hostname u)
        /\ exists source,
             source ∈ results s /\ url source = sourceUrl edge /\ status source < 400)
  /\ (forall page edge, page ∈ results s -> edge ∈ inlinks page ->
        exists source,
          source ∈ results s /\ url source = sourceUrl edge /\ status source < 400).
Proof.
  intros s. destruct (sourced_run fuel startUrl t excluded w) as [K1 K2]. fold s in K1, K2.
  assert (HE : forall u edge, edge ∈ inlinks_of (allInlinks s) u ->
        is_Some (hostname u)
        /\ exists source,
             source ∈ results s /\ url source = sourceUrl edge /\ status source < 400).
  { intros u edge He. destruct (K2 u edge He) as [Hsrc Hhost]. split; [done|].
    by apply K1. }
  split; [exact K1|]. split; [exact HE|].
  intros page edge Hp He.
  destruct (snapshot_run fuel startUrl t excluded w page Hp) as [rest Hrest].
  apply (HE (url page) edge). fold s in Hrest. rewrite Hrest. apply elem_of_app. by left.
Qed.

(** ** Pages without inlinks *)

Lemma record_link_has_edges d pageUrl s link :
  links_have_edges s -> links_have_edges (record_link d pageUrl s link).
Proof.
  intros HB u Hu.
  assert (Hlog : EvLink u ∈ log s \/ (u = link_url link /\ is_Some (hostname (link_url link)))).
  { unfold record_link in Hu. destruct (hostname (link_url link)); [|by left].
    simpl in Hu. destruct (bool_decide _ && _); simpl in Hu; [|by left].
    apply elem_of_app in Hu as [Hu|Hu]; [by left|].
    apply list_elem_of_singleton in Hu. injection Hu as ->. by right. }
  rewrite record_link_map.
  destruct (hostname (link_url link)) as [h|] eqn:Hh.
  - unfold inlinks_of. destruct (decide (link_url link = u)) as [<-|Hne].
    + rewrite lookup_insert_eq. simpl. intros E. by apply app_nil in E as [_ ?].
    + rewrite lookup_insert_ne by done.
      destruct Hlog as [Hold|[-> _]]; [by apply HB|done].
  - destruct Hlog as [Hold|[_ [? ?]]]; [by apply HB|done].
Qed.

Lemma record_links_have_edges d pageUrl newLinks s :
  links_have_edges s -> links_have_edges (record_links d pageUrl s newLinks).
Proof.
  unfold record_links. revert s.
  induction newLinks as [|link rest IH]; intros s HB; simpl; [done|].
  by apply IH, record_link_has_edges.
Qed.

Lemma links_have_edges_event (e : Event) (s s' : Session) :
  (forall u, e <> EvLink u) ->
  log s' = log s ++ [e] -> allInlinks s' = allInlinks s ->
  links_have_edges s -> links_have_edges s'.
Proof.
  intros He L M HB u Hu. rewrite L in Hu. rewrite M.
  apply elem_of_app in Hu as [Hu|Hu]; [by apply HB|].
  apply list_elem_of_singleton in Hu. by destruct (He u).
Qed.

Lemma visit_page_has_edges t d s page :
  links_have_edges s -> links_have_edges (attempt_session (visit_page t d s page)).
Proof.
  intros HB. unfold visit_page.
  destruct (400 <=? status page); [done|].
  destruct (oversupplied t s); [done|].
  assert (HB1 : forall w, links_have_edges (set_world w (add_log (EvExtract (url page)) s))).
  { intros w. by apply (links_have_edges_event (EvExtract (url page)) s). }
  destruct (extractLinksFromPage _ _ _) as [[message|[newLinks|]] w]; simpl;
    [apply HB1| |apply HB1].
  apply record_links_have_edges, HB1.
Qed.

Lemma visit_pages_have_edges t d batchResults s :
  links_have_edges s ->
  links_have_edges (attempt_session (visit_pages t d s batchResults)).
Proof.
  revert s. induction batchResults as [|page rest IH]; intros s HB; simpl; [done|].
  pose proof (visit_page_has_edges t d s page HB) as HB'.
  destruct (visit_page t d s page) as [s'|message s']; simpl in *; [|done].
  by apply IH.
Qed.

Lemma step_has_edges startUrl t d s :
  links_have_edges s -> links_have_edges (step_session (crawl_batch startUrl t d s)).
Proof.
  intros HB.
  destruct (decide (take (batch_limit t s) (queue s) = [])) as [He|Hne].
  - by rewrite (crawl_batch_empty startUrl t d s He).
  - assert (HA : forall pages w,
              links_have_edges (after_analysis s (batch_limit t s) pages w)).
    { intros pages w.
      by apply (links_have_edges_event (EvAnalyze (take (batch_limit t s) (queue s))) s). }
    destruct (crawl_batch_run startUrl t d s Hne) as [error w Hg|data w Hg Hb|data w Hg Hb].
    + by apply (links_have_edges_event (EvAnalyze (take (batch_limit t s) (queue s))) s).
    + apply HA.
    + pose proof (visit_pages_have_edges t d (merge_inlinks (allInlinks s) (decoded data))
                    (after_analysis s (batch_limit t s) (decoded data) w) (HA _ _)) as G.
      by destruct (visit_pages _ _ _ _).
Qed.

Lemma pushed_origin (l : list Event) u :
  u ∈ pushed l -> EvSeed u ∈ l \/ EvLink u ∈ l.
Proof.
  induction l as [|e l IH]; [by intros ?%elem_of_nil|].
  change (pushed (e :: l)) with (pushed_of e ++ pushed l).
  intros [Hu|Hu]%elem_of_app.
  - destruct e; simpl in Hu; try (by apply elem_of_nil in Hu);
      apply list_elem_of_singleton in Hu as ->; [left|right]; apply list_elem_of_here.
  - destruct (IH Hu); [left|right]; by right.
Qed.

(** The events an iteration logs: none is the push of a seed. *)
Lemma step_seed_events startUrl t d s u :
  EvSeed u ∈ log (step_session (crawl_batch startUrl t d s)) -> EvSeed u ∈ log s.
Proof.
  destruct (decide (take (batch_limit t s) (queue s) = [])) as [He|Hne].
  - by rewrite (crawl_batch_empty startUrl t d s He).
  - assert (HA : forall l, EvSeed u ∈ log s ++ [EvAnalyze l] -> EvSeed u ∈ log s).
    { intros l [H|H]%elem_of_app; [done|]. by apply list_elem_of_singleton in H. }
    destruct (crawl_batch_run startUrl t d s Hne) as [error w Hg|data w Hg Hb|data w Hg Hb].
    + apply HA.
    + apply HA.
    + pose proof (visit_pages_grows t d (merge_inlinks (allInlinks s) (decoded data))
                    (after_analysis s (batch_limit t s) (decoded data) w)) as G.
      assert (HG : forall s4,
                grows d (after_analysis s (batch_limit t s) (decoded data) w) s4 ->
                EvSeed u ∈ log s4 -> EvSeed u ∈ log s).
      { intros s4 [new L _ _ _ _ E _ _] H4. rewrite L in H4.
        apply elem_of_app in H4 as [H4|H4]; [by apply (HA _ H4)|].
        rewrite Forall_forall in E. by destruct (E _ H4). }
      destruct (visit_pages _ _ _ _) as [s4|message s4]; by apply HG.
Qed.

Lemma Origin_initial startUrl excluded d w :
  Origin startUrl excluded d (initial_session startUrl excluded w).
Proof.
  split; [apply Inv_initial|..]; unfold initial_session; simpl;
    case_bool_decide; simpl.
  - by intros u ?%elem_of_nil.
  - intros u Hu%list_elem_of_singleton. by injection Hu.
  - by left.
  - right. by exists [].
  - done.
  - done.
  - by intros u ?%elem_of_nil.
  - intros u Hu. by apply list_elem_of_singleton in Hu.
  - by intros page ?%elem_of_nil.
  - by intros page ?%elem_of_nil.
Qed.

Lemma Origin_step startUrl excluded t d s :
  analyzer_echoes ->
  Origin startUrl excluded d s ->
  Origin startUrl excluded d (step_session (crawl_batch startUrl t d s)).
Proof.
  intros Hecho [HI HS HH HE HB HR].
  destruct (decide (take (batch_limit t s) (queue s) = [])) as [He|Hne].
  { rewrite (crawl_batch_empty startUrl t d s He). split; try done.
    pose proof (Inv_step startUrl excluded t d s HI) as HI'.
    by rewrite (crawl_batch_empty startUrl t d s He) in HI'. }
  assert (Hq : forall u, u ∈ queue s -> u ∈ pushed (log s)).
  { intros u Hu. rewrite <- (inv_fifo _ _ _ HI). apply elem_of_app. by right. }
  split.
  - by apply Inv_step.
  - intros u Hu. by apply HS, (step_seed_events startUrl t d s).
  - destruct (step_queue startUrl t d s) as (new & _ & Hp). rewrite Hp.
    destruct HH as [Hnil|[rest Hrest]].
    + exfalso. apply Hne. destruct (queue s) as [|u q] eqn:Hqs; [by rewrite take_nil|].
      assert (Hu : u ∈ pushed (log s)) by (apply Hq; apply list_elem_of_here).
      rewrite Hnil in Hu. by apply elem_of_nil in Hu.
    + right. exists (rest ++ new). by rewrite Hrest.
  - rewrite (step_batches startUrl t d s Hne). intros E. by apply app_nil in E as [_ ?].
  - by apply step_has_edges.
  - intros page Hp.
    destruct (step_results_cases startUrl t d s) as [E|(data & w & Hg & _ & E)];
      rewrite E in Hp; [by apply HR|].
    apply elem_of_app in Hp as [Hp|Hp]; [by apply HR|].
    rewrite (merge_inlinks_lookup _ _ _ Hp).
    assert (Hu : url page ∈ queue s).
    { assert (Hin : url page ∈ map url (merge_inlinks (allInlinks s) (decoded data)))
        by (apply list_elem_of_fmap; by exists page).
      rewrite url_merge, url_decoded, (Hecho _ _ _ _ _ Hg) in Hin.
      apply elem_of_take in Hin as (i & Hi & _). by apply list_elem_of_lookup_2 in Hi. }
    split.
    + intros Hstart. rewrite Hstart in *.
      assert (Hnone : batches (log s) = []).
      { destruct (batches (log s)) as [|b bs] eqn:Hbs; [done|]. exfalso.
        pose proof (inv_batches _ _ _ HI) as Hnb. rewrite Hbs in Hnb.
        apply Forall_cons in Hnb as [Hb _]. destruct b as [|x b]; [done|].
        pose proof (inv_fifo _ _ _ HI) as Hf. pose proof (inv_nodup _ _ _ HI) as Hn.
        rewrite Hbs in Hf. simpl in Hf.
        destruct HH as [Hnil|[rest Hrest]]; [by rewrite Hnil in Hf|].
        rewrite Hrest in Hf. injection Hf as -> Hf.
        rewrite Hrest, <- Hf in Hn. apply NoDup_cons in Hn as [Hn _].
        apply Hn. apply elem_of_app. by right. }
      unfold inlinks_of. by rewrite (HE Hnone), lookup_empty.
    + intros Hother. apply HB.
      destruct (pushed_origin _ _ (Hq _ Hu)) as [Hseed|Hlink]; [|done].
      by destruct (Hother (HS _ Hseed)).
Qed.

Lemma Origin_run fuel startUrl t excluded w :
  analyzer_echoes ->
  Origin startUrl excluded (site_domain startUrl)
    (session_of (handleCrawlStart fuel startUrl t excluded w)).
Proof.
  intros Hecho. unfold handleCrawlStart, site_domain.
  destruct (hostname startUrl) as [d|]; simpl; [|apply Origin_initial].
  apply (crawl_loop_invariant (Origin startUrl excluded d)); [|apply Origin_initial].
  intros s Hs _. by apply Origin_step.
Qed.

(** X5.  With an analyzer that answers with one record per URL asked,
    carrying that URL: a page of the results has no inlink if and only if
    it is the start page.  The start page is analyzed before any link is
    extracted, so that links back to it never show on it; every other page
    was discovered through a link, whose edge it carries. *)
Theorem no_inlinks_iff_start_page fuel startUrl t excluded w :
  analyzer_echoes ->
  forall page,
    page ∈ results (session_of (handleCrawlStart fuel startUrl t excluded w)) ->
    (inlinks page = [] <-> url page = startUrl).
Proof.
  intros Hecho page Hp.
  destruct (org_rule _ _ _ _ (Origin_run fuel startUrl t excluded w Hecho) page Hp)
    as [Hstart Hother].
  split; [|exact Hstart].
  intros Hnil. destruct (decide (url page = startUrl)) as [|Hne]; [done|].
  by destruct (Hother Hne).
Qed.

(** ** The number of API calls *)

Lemma visit_page_extracted t d s page :
  exists x, extracted (log (attempt_session (visit_page t d s page)))
            = extracted (log s) ++ x
            /\ (length x <= 1)%nat.
Proof.
  destruct (Z_lt_dec (status page) 400) as [Hs|Hs];
    [destruct (oversupplied t s) eqn:Ho|].
  - rewrite visit_page_skip by (by right). exists []. simpl.
    rewrite app_nil_r. split; [done|simpl; lia].
  - destruct (visit_page_log t d s page Hs Ho) as (new & _ & X & L).
    exists [url page]. rewrite L, extracted_app.
    change (extracted (EvExtract (url page) :: new)) with (url page :: extracted new).
    rewrite X. split; [done|simpl; lia].
  - rewrite visit_page_skip by (left; lia). exists []. simpl.
    rewrite app_nil_r. split; [done|simpl; lia].
Qed.

Lemma visit_pages_extracted t d batchResults s :
  exists x, extracted (log (attempt_session (visit_pages t d s batchResults)))
            = extracted (log s) ++ x
            /\ (length x <= length batchResults)%nat.
Proof.
  revert s. induction batchResults as [|page rest IH]; intros s; simpl.
  - exists []. rewrite app_nil_r. split; [done|simpl; lia].
  - destruct (visit_page_extracted t d s page) as (x & Hx & Hlen).
    destruct (visit_page t d s page) as [s'|message s']; simpl in Hx.
    + destruct (IH s') as (y & Hy & Hleny). exists (x ++ y).
      rewrite Hy, Hx, app_assoc, length_app. split; [done|lia].
    + exists x. simpl. split; [done|lia].
Qed.

(** What the loop keeps about the calls of the extractor: there are no
    more of them than pages in the results, and once there is one their
    number is below the budget. *)
Lemma extraction_count_step startUrl t d s :
  (length (extracted (log s)) <= length (results s))%nat
  /\ analyzedCount s = Z.of_nat (length (results s))
  /\ (extracted (log s) = [] \/ Z.of_nat (length (extracted (log s))) < t) ->
  let s' := step_session (crawl_batch startUrl t d s) in
  (length (extracted (log s')) <= length (results s'))%nat
  /\ analyzedCount s' = Z.of_nat (length (results s'))
  /\ (extracted (log s') = [] \/ Z.of_nat (length (extracted (log s'))) < t).
Proof.
  intros (H1 & H2 & H3) s'. subst s'.
  destruct (decide (take (batch_limit t s) (queue s) = [])) as [He|Hne].
  { by rewrite (crawl_batch_empty startUrl t d s He). }
  assert (HA : forall pages w,
    let s3 := after_analysis s (batch_limit t s) pages w in
    extracted (log s3) = extracted (log s)
    /\ length (results s3) = (length (results s) + length pages)%nat
    /\ analyzedCount s3 = Z.of_nat (length (results s3))).
  { intros pages w s3. subst s3.
    rewrite after_analysis_log, extracted_app, app_nil_r, after_analysis_results,
      after_analysis_count, length_app, length_merge. split_and!; [done|done|lia]. }
  destruct (crawl_batch_run startUrl t d s Hne) as [error w Hg|data w Hg Hb|data w Hg Hb].
  - simpl. by rewrite extracted_app, app_nil_r.
  - destruct (HA (decoded data) w) as (E & R & C). simpl step_session.
    rewrite E. split_and!; [lia|done|done].
  - destruct (HA (decoded data) w) as (E & R & C).
    pose proof (visit_pages_grows t d (merge_inlinks (allInlinks s) (decoded data))
                  (after_analysis s (batch_limit t s) (decoded data) w)) as G.
    destruct (visit_pages_extracted t d (merge_inlinks (allInlinks s) (decoded data))
                (after_analysis s (batch_limit t s) (decoded data) w))
      as (x & Hx & Hlen).
    rewrite length_merge in Hlen.
    assert (HG : forall s4,
      grows d (after_analysis s (batch_limit t s) (decoded data) w) s4 ->
      extracted (log s4)
        = extracted (log (after_analysis s (batch_limit t s) (decoded data) w)) ++ x ->
      (length (extracted (log s4)) <= length (results s4))%nat
      /\ analyzedCount s4 = Z.of_nat (length (results s4))
      /\ (extracted (log s4) = [] \/ Z.of_nat (length (extracted (log s4))) < t)).
    { intros s4 [new _ _ _ _ _ _ R4 C4] E4.
      rewrite E4, E, R4, C4, length_app. split_and!; [lia|done|right; lia]. }
    destruct (visit_pages _ _ _ _) as [s4|message s4]; by apply HG.
Qed.

Lemma extraction_count_run fuel startUrl t excluded w :
  let s := session_of (handleCrawlStart fuel startUrl t excluded w) in
  (length (extracted (log s)) <= length (results s))%nat
  /\ analyzedCount s = Z.of_nat (length (results s))
  /\ (extracted (log s) = [] \/ Z.of_nat (length (extracted (log s))) < t).
Proof.
  unfold handleCrawlStart.
  assert (H0 : let s := initial_session startUrl excluded w in
    (length (extracted (log s)) <= length (results s))%nat
    /\ analyzedCount s = Z.of_nat (length (results s))
    /\ (extracted (log s) = [] \/ Z.of_nat (length (extracted (log s))) < t)).
  { unfold initial_session. simpl. case_bool_decide; simpl; split_and!; auto. }
  destruct (hostname startUrl) as [d|]; [|exact H0].
  apply (crawl_loop_invariant (fun s =>
    (length (extracted (log s)) <= length (results s))%nat
    /\ analyzedCount s = Z.of_nat (length (results s))
    /\ (extracted (log s) = [] \/ Z.of_nat (length (extracted (log s))) < t)));
    [|exact H0].
  intros s Hs _. by apply extraction_count_step.
Qed.

Lemma batch_count_run fuel startUrl t excluded w :
  0 <= t -> analyzer_cardinal ->
  Z.of_nat (length (batches (log (session_of (handleCrawlStart fuel startUrl t excluded w)))))
  <= t.
Proof.
  intros Ht Hcard. unfold handleCrawlStart.
  assert (Ha0 : analyzedCount (initial_session startUrl excluded w) = 0).
  { unfold initial_session. simpl. by case_bool_decide. }
  assert (Hb0 : batches (log (initial_session startUrl excluded w)) = []).
  { unfold initial_session. simpl. by case_bool_decide. }
  destruct (hostname startUrl) as [d|]; simpl.
  - apply batch_count_loop; [done|]. rewrite Ha0, Hb0. simpl. lia.
  - rewrite Hb0. simpl. lia.
Qed.

(** X6.  Whatever the collaborators answer, the extractor is called at most
    once per page of the results and fewer than [t] times in all.  For a
    budget [t >= 0] and an analyzer that answers with one record per URL
    asked, a crawl makes at most [t] calls of the analyzer, and at most
    [2 t - 1] API calls in all. *)
Theorem api_call_budget fuel startUrl t excluded w :
  let s := session_of (handleCrawlStart fuel startUrl t excluded w) in
  (length (extracted (log s)) <= length (results s))%nat
  /\ Z.of_nat (length (extracted (log s))) <= Z.max 0 (t - 1)
  /\ (0 <= t -> analyzer_cardinal ->
      Z.of_nat (length (batches (log s))) <= t
      /\ Z.of_nat (length (batches (log s)) + length (extracted (log s)))
         <= Z.max 0 (2 * t - 1)).
Proof.
  intros s.
  destruct (extraction_count_run fuel startUrl t excluded w) as (H1 & _ & H3).
  fold s in H1, H3.
  assert (H4 : Z.of_nat (length (extracted (log s))) <= Z.max 0 (t - 1)).
  { destruct H3 as [->|H3]; simpl; lia. }
  split; [exact H1|]. split; [exact H4|].
  intros Ht Hcard.
  pose proof (batch_count_run fuel startUrl t excluded w Ht Hcard) as Hb. fold s in Hb.
  split; [exact Hb|].
  destruct (batches (log s)) as [|b bs] eqn:Hbs.
  - destruct H3 as [->|H3]; simpl in *; lia.
  - destruct H3 as [->|H3]; simpl in *; lia.
Qed.

(** ** The first call *)

Lemma loop_after_step startUrl t d fuel s :
  loop_guard t s = true ->
  log (step_session (crawl_batch startUrl t d s))
    `prefix_of` log (session_of (crawl_loop (S fuel) startUrl t d s)).
Proof.
  intros Hg. simpl. rewrite Hg.
  destruct (crawl_batch startUrl t d s) as [s'|s'|m s']; simpl; [|done|done].
  apply loop_log_prefix.
Qed.

(** X7.  The first batch submitted to the analyzer is the start URL alone.
    A run submits a batch, that is, makes any API call at all, exactly when
    it is given at least one iteration, the start URL parses and is not
    excluded, and the budget is positive; otherwise it leaves the results
    empty and the outside world as it was. *)
Theorem first_call_is_start_page fuel startUrl t excluded w :
  let s := session_of (handleCrawlStart fuel startUrl t excluded w) in
  (batches (log s) = [] \/ exists rest, batches (log s) = [startUrl] :: rest)
  /\ (batches (log s) <> [] <->
      (0 < fuel)%nat /\ is_Some (hostname startUrl) /\ (startUrl ∉ excluded) /\ 0 < t)
  /\ (batches (log s) = [] ->
      results s = [] /\ extracted (log s) = [] /\ world s = w).
Proof.
  intros s.
  assert (Hidle : s = initial_session startUrl excluded w ->
            batches (log s) = [] /\ results s = [] /\ extracted (log s) = [] /\ world s = w).
  { intros ->. unfold initial_session. simpl. by case_bool_decide. }
  assert (Hcases :
    (s = initial_session startUrl excluded w
     /\ ~ ((0 < fuel)%nat /\ is_Some (hostname startUrl) /\ (startUrl ∉ excluded) /\ 0 < t))
    \/ ((exists rest, batches (log s) = [startUrl] :: rest)
        /\ (0 < fuel)%nat /\ is_Some (hostname startUrl) /\ (startUrl ∉ excluded) /\ 0 < t)).
  { subst s. unfold handleCrawlStart.
    destruct (hostname startUrl) as [d|] eqn:Hd;
      [|left; split; [done|]; intros (_ & [? ?] & _); done].
    destruct (decide (startUrl ∈ excluded)) as [Hx|Hx].
    { left. split; [|by intros (_ & _ & ? & _)].
      pose proof (excluded_seed_idle fuel startUrl t excluded w Hx) as Hi.
      unfold handleCrawlStart in Hi. rewrite Hd in Hi. rewrite Hi.
      unfold initial_session. simpl. by rewrite bool_decide_eq_true_2. }
    set (s0 := initial_session startUrl excluded w).
    assert (Hq0 : queue s0 = [startUrl] /\ batches (log s0) = [] /\ analyzedCount s0 = 0).
    { subst s0. unfold initial_session. simpl. by rewrite bool_decide_eq_false_2. }
    destruct Hq0 as (Hq0 & Hb0 & Ha0).
    destruct (loop_guard t s0) eqn:Hg.
    - destruct (guard_queue t s0 Hg) as [_ Ha]. rewrite Ha0 in Ha.
      destruct fuel as [|fuel].
      + left. simpl. rewrite Hg. split; [done|]. intros (? & _). lia.
      + right. split; [|split_and!; [lia|by eexists|done|done]].
        pose proof (loop_after_step startUrl t d fuel s0 Hg) as [evs Hevs].
        pose proof (step_batches startUrl t d s0 (guard_batch t s0 Hg)) as Hsb.
        pose proof (guard_batch t s0 Hg) as Hne.
        assert (Hb : take (batch_limit t s0) (queue s0) = [startUrl]).
        { rewrite Hq0 in Hne |- *.
          destruct (batch_limit t s0) as [|n]; simpl in Hne |- *;
            [done|by rewrite take_nil]. }
        rewrite Hevs, batches_app, Hsb, Hb0, Hb. simpl. by eexists.
    - left. split.
      + destruct fuel; simpl; by rewrite Hg.
      + intros (_ & _ & _ & Ht). unfold loop_guard in Hg. rewrite Hq0, Ha0 in Hg.
        simpl in Hg. apply Z.ltb_ge in Hg. lia. }
  destruct Hcases as [[Hs Hnot]|[[rest Hrest] Hyes]].
  - destruct (Hidle Hs) as (Hb & Hr & He & Hw). split_and!.
    + by left.
    + split; [by intros ?|by intros ?].
    + done.
  - split_and!.
    + right. by exists rest.
    + split; [done|]. intros _. by rewrite Hrest.
    + rewrite Hrest. done.
Qed.

(** * ResultsTable *)

(** ** The page loop, page by page *)

Lemma visit_pages_app t d pre post s :
  visit_pages t d s (pre ++ post)
  = match visit_pages t d s pre with
    | Done s' => visit_pages t d s' post
    | Raised message s' => Raised message s'
    end.
Proof.
  revert s. induction pre as [|page pre IH]; intros s; simpl; [done|].
  destruct (visit_page t d s page); [apply IH|done].
Qed.

(** The turn of the page at position [i]: the loop body, run in the session
    that the pages before it left. *)
Lemma visit_pages_turn t d s pages i page s_i :
  pages !! i = Some page ->
  visit_pages t d s (take i pages) = Done s_i ->
  visit_pages t d s (take (S i) pages) = visit_page t d s_i page.
Proof.
  intros Hi Hpre. rewrite (take_S_r _ _ _ Hi), visit_pages_app, Hpre. simpl.
  by destruct (visit_page t d s_i page).
Qed.

Lemma visit_pages_rest t d s pages i :
  visit_pages t d s pages
  = match visit_pages t d s (take i pages) with
    | Done s' => visit_pages t d s' (drop i pages)
    | Raised message s' => Raised message s'
    end.
Proof. rewrite <- (take_drop i pages) at 1. apply visit_pages_app. Qed.

Lemma crawl_batch_discovery startUrl t d s data w :
  take (batch_limit t s) (queue s) <> [] ->
  generateAnalysis (take (batch_limit t s) (queue s)) startUrl (world s) = (inr data, w) ->
  analyzedCount (after_analysis s (batch_limit t s) (decoded data) w) < t ->
  crawl_batch startUrl t d s =
    match visit_pages t d (after_analysis s (batch_limit t s) (decoded data) w)
            (merge_inlinks (allInlinks s) (decoded data)) with
    | Done s4 => Continue s4
    | Raised message s4 => Throw message s4
    end.
Proof.
  intros Hne Hg Hlt.
  pose proof (crawl_batch_run startUrl t d s Hne) as Hrun.
  inversion Hrun as [error w' Hg' Heq|data' w' Hg' Hge Heq|data' w' Hg' Hlt' Heq];
    rewrite Hg in Hg'; simplify_eq; [lia|done].
Qed.

Lemma visit_page_guard t d s page :
  let over :=
    (inject_Z (t - analyzedCount s) * (3 # 2)
       < inject_Z (Z.of_nat (length (queue s))))%Q in
  let s' := attempt_session (visit_page t d s page) in
  (extracted (log s') = extracted (log s) ++ [url page]
     <-> status page < 400 /\ ~ over)
  /\ (status page < 400 /\ ~ over ->
       exists new, log s' = log s ++ EvExtract (url page) :: new
         /\ world s' = snd (generateLinks (url page) d (world s)))
  /\ (~ (status page < 400 /\ ~ over) -> visit_page t d s page = Done s).
Proof.
  intros over s'.
  assert (Hover : oversupplied t s = true <-> over) by apply oversupplied_spec.
  assert (Hskip : ~ (status page < 400 /\ ~ over) -> visit_page t d s page = Done s).
  { intros Hn. apply visit_page_skip.
    destruct (Z_lt_dec (status page) 400) as [Hs|Hs]; [|left; lia].
    right. destruct (oversupplied t s) eqn:Ho; [done|].
    exfalso. apply Hn. split; [done|]. intros Hov. apply Hover in Hov. congruence. }
  assert (Hcall : status page < 400 /\ ~ over -> oversupplied t s = false).
  { intros [_ Hn]. destruct (oversupplied t s) eqn:Ho; [|done].
    exfalso. by apply Hn, Hover. }
  split_and!.
  - split.
    + intros Hx. destruct (Z_lt_dec (status page) 400) as [Hs|Hs];
        [destruct (oversupplied t s) eqn:Ho|].
      * exfalso. subst s'. rewrite visit_page_skip in Hx by (by right).
        simpl in Hx. apply (f_equal length) in Hx. rewrite length_app in Hx.
        simpl in Hx. lia.
      * split; [done|]. intros Hov. apply Hover in Hov. congruence.
      * exfalso. subst s'. rewrite visit_page_skip in Hx by (left; lia).
        simpl in Hx. apply (f_equal length) in Hx. rewrite length_app in Hx.
        simpl in Hx. lia.
    + intros Hc. destruct (visit_page_log t d s page (proj1 Hc) (Hcall Hc))
        as (new & _ & X & L).
      subst s'. rewrite L. rewrite extracted_app.
      change (extracted (EvExtract (url page) :: new)) with (url page :: extracted new).
      by rewrite X.
  - intros Hc. destruct (visit_page_log t d s page (proj1 Hc) (Hcall Hc))
      as (new & _ & _ & L).
    exists new. split; [done|]. subst s'.
    rewrite (visit_page_call t d s page (proj1 Hc) (Hcall Hc)).
    destruct (generateLinks _ _ _) as [[error|[newLinks|]] w]; simpl; [done| |done].
    by rewrite record_links_world.
  - exact Hskip.
Qed.

(** C6.  In an iteration whose analysis did not exhaust the budget, the
    pages emitted are considered one after the other, each in the session
    that the pages before it left.  When the turn of a page comes, the
    extractor is called for it if and only if its status is below 400 and
    the queue, as it stands at that moment, is not longer than one and a
    half times the remaining budget; otherwise the turn leaves the session
    as it is: no call, nothing pushed.  The loop then goes on with the
    pages after it, and the iteration ends as the page loop does. *)
Theorem extraction_guard startUrl t d s data w i page s_i :
  take (batch_limit t s) (queue s) <> [] ->
  generateAnalysis (take (batch_limit t s) (queue s)) startUrl (world s) = (inr data, w) ->
  let s3 := after_analysis s (batch_limit t s) (decoded data) w in
  let batchResults := merge_inlinks (allInlinks s) (decoded data) in
  analyzedCount s3 < t ->
  batchResults !! i = Some page ->
  visit_pages t d s3 (take i batchResults) = Done s_i ->
  let over :=
    (inject_Z (t - analyzedCount s_i) * (3 # 2)
       < inject_Z (Z.of_nat (length (queue s_i))))%Q in
  let a := visit_pages t d s3 (take (S i) batchResults) in
  (extracted (log (attempt_session a)) = extracted (log s_i) ++ [url page]
     <-> status page < 400 /\ ~ over)
  /\ (status page < 400 /\ ~ over ->
       exists new, log (attempt_session a) = log s_i ++ EvExtract (url page) :: new
         /\ world (attempt_session a) = snd (generateLinks (url page) d (world s_i)))
  /\ (~ (status page < 400 /\ ~ over) -> a = Done s_i)
  /\ analyzedCount s_i = analyzedCount s3
  /\ page ∈ results s3
  /\ visit_pages t d s3 batchResults
     = match a with
       | Done s'' => visit_pages t d s'' (drop (S i) batchResults)
       | Raised message s'' => Raised message s''
       end
  /\ crawl_batch startUrl t d s
     = match visit_pages t d s3 batchResults with
       | Done s4 => Continue s4
       | Raised message s4 => Throw message s4
       end.
Proof.
  intros Hne Hgen s3 batchResults Hlt Hi Hpre over a.
  assert (Ha : a = visit_page t d s_i page) by by apply visit_pages_turn.
  destruct (visit_page_guard t d s_i page) as (H1 & H2 & H3).
  rewrite Ha. split_and!; [exact H1|exact H2|exact H3|..].
  - pose proof (visit_pages_grows t d (take i batchResults) s3) as G.
    rewrite Hpre in G. by destruct G.
  - subst s3. rewrite after_analysis_results. apply elem_of_app. right.
    by apply list_elem_of_lookup_2 in Hi.
  - rewrite <- Ha. apply visit_pages_rest.
  - by apply crawl_batch_discovery.
Qed.

(** ** Links returned by the extractor *)

Lemma record_link_lookup d pageUrl s link u :
  default [] (allInlinks (record_link d pageUrl s link) !! u)
  = default [] (allInlinks s !! u)
    ++ map (fun l => mkInlink pageUrl (link_anchorText l))
         (filter (fun l => link_url l = u /\ is_Some (hostname u)) [link]).
Proof.
  rewrite record_link_map.
  destruct (hostname (link_url link)) as [h|] eqn:Hh.
  - destruct (decide (link_url link = u)) as [<-|Hne].
    + rewrite lookup_insert_eq, filter_cons_True by (split; [done|by exists h]).
      done.
    + rewrite lookup_insert_ne by done.
      rewrite filter_cons_False by (by intros [? _]). simpl. by rewrite app_nil_r.
  - rewrite filter_cons_False; [simpl; by rewrite app_nil_r|].
    intros [<- [h Hh']]. congruence.
Qed.

(** What a reply leaves in the inlink map: for every URL, one more edge
    for each link to it, in the order of the reply. *)
Lemma record_links_lookup d pageUrl links s u :
  default [] (allInlinks (record_links d pageUrl s links) !! u)
  = default [] (allInlinks s !! u)
    ++ map (fun l => mkInlink pageUrl (link_anchorText l))
         (filter (fun l => link_url l = u /\ is_Some (hostname u)) links).
Proof.
  revert s. induction links as [|link rest IH]; intros s.
  - simpl. by rewrite app_nil_r.
  - change (record_links d pageUrl s (link :: rest))
      with (record_links d pageUrl (record_link d pageUrl s link) rest).
    rewrite IH, record_link_lookup, <- app_assoc. f_equal.
    change (link :: rest) with ([link] ++ rest).
    by rewrite filter_app, map_app.
Qed.

Lemma record_links_queue d pageUrl links s u :
  u ∈ queue (record_links d pageUrl s links) ->
  u ∈ queue s
  \/ exists link, link ∈ links /\ link_url link = u /\ hostname u = Some d.
Proof.
  revert s. induction links as [|link rest IH]; intros s; [by left|].
  change (record_links d pageUrl s (link :: rest))
    with (record_links d pageUrl (record_link d pageUrl s link) rest).
  intros [Hq|(l & Hl & Hu & Hh)]%IH.
  - unfold record_link in Hq. destruct (hostname (link_url link)) as [h|] eqn:Hh; [|by left].
    simpl in Hq. case_bool_decide as Hd; simpl in Hq; [|by left].
    case_bool_decide as Hv; simpl in Hq; [by left|].
    apply elem_of_app in Hq as [Hq|Hq%list_elem_of_singleton]; [by left|].
    right. exists link. split; [by left|]. split; [done|]. by subst.
  - right. exists l. split; [by right|done].
Qed.

Lemma record_links_discard d pageUrl before link after s :
  hostname (link_url link) = None ->
  record_links d pageUrl s (before ++ link :: after)
  = record_links d pageUrl s (before ++ after).
Proof.
  intros Hn. unfold record_links. rewrite !fold_left_app. simpl.
  unfold record_link at 2. by rewrite Hn.
Qed.

(** C8.  When the turn of a page comes and the extractor answers with
    links, each of them is processed, with that page as the source, and
    the page loop goes on whatever they are.  A link whose URL does not
    parse is discarded: the session is the one that the reply without it
    would have left, no edge, nothing pushed.  For every URL that parses,
    the entry of the inlink map gets one more edge, from the page's URL
    with the anchor text given, for every link of the reply to that URL,
    in the order of the reply: whatever the host, and as often as the link
    occurs.  Only links to the host of the site are ever pushed. *)
Theorem link_edge_recording startUrl t d s data w i page s_i links w1 :
  take (batch_limit t s) (queue s) <> [] ->
  generateAnalysis (take (batch_limit t s) (queue s)) startUrl (world s) = (inr data, w) ->
  let s3 := after_analysis s (batch_limit t s) (decoded data) w in
  let batchResults := merge_inlinks (allInlinks s) (decoded data) in
  analyzedCount s3 < t ->
  batchResults !! i = Some page ->
  visit_pages t d s3 (take i batchResults) = Done s_i ->
  status page < 400 ->
  oversupplied t s_i = false ->
  generateLinks (url page) d (world s_i) = (inr (Iterable links), w1) ->
  exists s',
    visit_pages t d s3 (take (S i) batchResults) = Done s'
    /\ (forall u,
          default [] (allInlinks s' !! u)
          = default [] (allInlinks s_i !! u)
            ++ map (fun link => mkInlink (url page) (link_anchorText link))
                 (filter (fun link => link_url link = u /\ is_Some (hostname u)) links))
    /\ (forall link h, link ∈ links -> hostname (link_url link) = Some h ->
          mkInlink (url page) (link_anchorText link)
            ∈ default [] (allInlinks s' !! link_url link))
    /\ (forall before link after,
          links = before ++ link :: after ->
          hostname (link_url link) = None ->
          s' = record_links d (url page)
                 (set_world w1 (add_log (EvExtract (url page)) s_i)) (before ++ after))
    /\ (Forall (fun link => hostname (link_url link) = None) links ->
          allInlinks s' = allInlinks s_i /\ queue s' = queue s_i
          /\ seenUrls s' = seenUrls s_i)
    /\ (forall u, u ∈ queue s' ->
          u ∈ queue s_i
          \/ exists link, link ∈ links /\ link_url link = u /\ hostname u = Some d)
    /\ crawl_batch startUrl t d s
       = match visit_pages t d s' (drop (S i) batchResults) with
         | Done s4 => Continue s4
         | Raised message s4 => Throw message s4
         end.
Proof.
  intros Hne Hgen s3 batchResults Hlt Hi Hpre Hs Ho Hlinks.
  set (s1 := set_world w1 (add_log (EvExtract (url page)) s_i)).
  assert (Ha : visit_pages t d s3 (take (S i) batchResults)
               = Done (record_links d (url page) s1 links)).
  { rewrite (visit_pages_turn t d s3 batchResults i page s_i Hi Hpre).
    by rewrite (visit_page_call t d s_i page Hs Ho), Hlinks. }
  exists (record_links d (url page) s1 links).
  assert (Hmap : forall u,
    default [] (allInlinks (record_links d (url page) s1 links) !! u)
    = default [] (allInlinks s_i !! u)
      ++ map (fun link => mkInlink (url page) (link_anchorText link))
           (filter (fun link => link_url link = u /\ is_Some (hostname u)) links)).
  { intros u. apply (record_links_lookup d (url page) links s1 u). }
  split_and!.
  - exact Ha.
  - exact Hmap.
  - intros link h Hin Hh. rewrite Hmap. apply elem_of_app. right.
    apply (list_elem_of_fmap_2 (fun l => mkInlink (url page) (link_anchorText l))).
    apply list_elem_of_filter. split; [|done]. split; [done|by exists h].
  - intros before link after -> Hn. by apply record_links_discard.
  - intros Hall. clear Ha Hmap Hlinks.
    assert (E : record_links d (url page) s1 links = s1); [|by rewrite E].
    generalize s1. induction Hall as [|link rest Hn _ IH]; intros s0; [done|].
    change (record_links d (url page) s0 (link :: rest))
      with (record_links d (url page) (record_link d (url page) s0 link) rest).
    rewrite IH. unfold record_link. by rewrite Hn.
  - intros u Hu. by apply (record_links_queue d (url page) links s1 u).
  - rewrite (crawl_batch_discovery startUrl t d s data w Hne Hgen Hlt).
    fold s3 batchResults. by rewrite (visit_pages_rest t d s3 batchResults (S i)), Ha.
Qed.

(** ** Inlink snapshots, iteration by iteration *)

Lemma out_of_fuel_guard startUrl t d fuel s s' :
  crawl_loop fuel startUrl t d s = OutOfFuel s' -> loop_guard t s' = true.
Proof.
  revert s. induction fuel as [|fuel IH]; intros s; simpl;
    destruct (loop_guard t s) eqn:Hg; try done.
  - by intros [= <-].
  - destruct (crawl_batch startUrl t d s); [apply IH|done|done].
Qed.

Lemma crawl_loop_one startUrl t d s :
  loop_guard t s = true ->
  session_of (crawl_loop 1 startUrl t d s) = step_session (crawl_batch startUrl t d s).
Proof.
  intros Hg. simpl. rewrite Hg.
  destruct (crawl_batch startUrl t d s) as [s'|s'|m s']; simpl; [|done|done].
  by destruct (loop_guard t s').
Qed.

Lemma step_results_lookup startUrl t d s data w :
  take (batch_limit t s) (queue s) <> [] ->
  generateAnalysis (take (batch_limit t s) (queue s)) startUrl (world s) = (inr data, w) ->
  results (step_session (crawl_batch startUrl t d s))
  = results s
    ++ map (fun p => with_inlinks p (default [] (allInlinks s !! url p))) data.
Proof.
  intros Hne Hgen. rewrite (step_results startUrl t d s data w Hne Hgen).
  unfold merge_inlinks, decoded, inlinks_of. by rewrite map_map.
Qed.

(** C5.  The pages an iteration emits are the analyzer's records, each
    with [inlinks] set to what the inlink map holds for its URL in the
    session in which the iteration started, that is, before any link
    extraction of the batch: the empty list when the map has no entry.
    So for the iteration that follows any point of a run, the pages added
    carry the entries of the map as it stood at that point, and they stay
    as they are in every longer run, whatever the map holds by then:
    results are only ever appended to. *)
Theorem inlinks_snapshot fuel startUrl t excluded w :
  (forall d s data w1,
     take (batch_limit t s) (queue s) <> [] ->
     generateAnalysis (take (batch_limit t s) (queue s)) startUrl (world s) = (inr data, w1) ->
     results (step_session (crawl_batch startUrl t d s))
     = results s
       ++ map (fun p => with_inlinks p (default [] (allInlinks s !! url p))) data)
  /\ (forall n s0, (n < fuel)%nat ->
        handleCrawlStart n startUrl t excluded w = OutOfFuel s0 ->
        exists new,
          results (session_of (handleCrawlStart (S n) startUrl t excluded w))
          = results s0 ++ new
          /\ Forall (fun page => inlinks page = default [] (allInlinks s0 !! url page)) new
          /\ (results s0 ++ new)
               `prefix_of` results (session_of (handleCrawlStart fuel startUrl t excluded w)))
  /\ (forall d s, results s `prefix_of` results (step_session (crawl_batch startUrl t d s)))
  /\ (forall fuel0, (fuel0 <= fuel)%nat ->
        results (session_of (handleCrawlStart fuel0 startUrl t excluded w))
          `prefix_of` results (session_of (handleCrawlStart fuel startUrl t excluded w))).
Proof.
  assert (Hprefix : forall fuel0, (fuel0 <= fuel)%nat ->
        results (session_of (handleCrawlStart fuel0 startUrl t excluded w))
          `prefix_of` results (session_of (handleCrawlStart fuel startUrl t excluded w))).
  { intros fuel0 Hf.
    destruct (run_continues fuel0 fuel startUrl t excluded w Hf) as [->|(d & _ & ->)];
      [done|apply loop_results_prefix]. }
  split_and!.
  - intros d s data w1. apply step_results_lookup.
  - intros n s0 Hn Hrun.
    assert (Hnext : exists d, loop_guard t s0 = true
              /\ session_of (handleCrawlStart (S n) startUrl t excluded w)
                 = step_session (crawl_batch startUrl t d s0)).
    { unfold handleCrawlStart in *. destruct (hostname startUrl) as [d|]; [|done].
      exists d. pose proof (out_of_fuel_guard _ _ _ _ _ _ Hrun) as Hg. split; [done|].
      replace (S n) with (n + 1)%nat by lia.
      rewrite (crawl_loop_resume startUrl t d n 1 _ s0 Hrun). by apply crawl_loop_one. }
    destruct Hnext as (d & Hg & Hnext).
    pose proof (guard_batch t s0 Hg) as Hne.
    assert (Hnew : exists new,
              results (step_session (crawl_batch startUrl t d s0)) = results s0 ++ new
              /\ Forall (fun page => inlinks page = default [] (allInlinks s0 !! url page)) new).
    { destruct (generateAnalysis (take (batch_limit t s0) (queue s0)) startUrl (world s0))
        as [[error|data] w1] eqn:Hgen.
      - exists []. rewrite (analysis_failure_throws startUrl t d s0 error w1 Hne Hgen).
        simpl. by rewrite app_nil_r.
      - eexists. split; [by apply (step_results_lookup startUrl t d s0 data w1)|].
        apply Forall_fmap, Forall_forall. by intros p _. }
    destruct Hnew as (new & Hres & Hall). exists new.
    rewrite Hnext. split; [done|]. split; [done|].
    rewrite <- Hres, <- Hnext. apply Hprefix. lia.
  - intros d s. apply step_results_prefix.
  - exact Hprefix.
Qed.

(** ** Expanded rows *)

Lemma filter_unique_url (pages : list CrawledPage) page :
  NoDup (map url pages) -> page ∈ pages ->
  filter (fun q => Some (url page) = Some (url q)) pages = [page].
Proof.
  induction pages as [|q pages IH]; intros Hnd Hin; [by apply elem_of_nil in Hin|].
  simpl in Hnd. apply NoDup_cons in Hnd as [Hq Hnd].
  assert (Hnone : forall l, (forall r, r ∈ l -> url r <> url page) ->
            filter (fun q => Some (url page) = Some (url q)) l = []).
  { induction l as [|r l IHl]; intros Hl; [done|].
    rewrite filter_cons_False.
    - apply IHl. intros r' Hr'. apply Hl. by right.
    - intros [= E]. by apply (Hl r (list_elem_of_here _ _)). }
  apply elem_of_cons in Hin as [->|Hin].
  - rewrite filter_cons_True by done. f_equal. apply Hnone.
    intros r Hr E. apply Hq. rewrite <- E. apply list_elem_of_fmap. by exists r.
  - rewrite filter_cons_False; [by apply IH|].
    intros [= E]. apply Hq. rewrite <- E. apply list_elem_of_fmap. by exists page.
Qed.

(** X9.  With an analyzer that answers with one record per URL asked,
    carrying that URL, the rows of the results have distinct URLs; so a
    click on a row leaves the detail of that one row open if it was closed,
    and no detail open if it was open. *)
Theorem click_opens_one_row fuel startUrl t excluded w :
  analyzer_echoes ->
  let pages := results (session_of (handleCrawlStart fuel startUrl t excluded w)) in
  NoDup (map url pages)
  /\ forall expandedRowUrl page, page ∈ pages ->
       detail_rows (handleRowClick expandedRowUrl (url page)) pages
       = if bool_decide (expandedRowUrl = Some (url page)) then [] else [page].
Proof.
  intros Hecho pages.
  assert (Hnd : NoDup (map url pages)).
  { destruct (echo_run fuel startUrl t excluded w Hecho) as [rest Hrest].
    destruct (Inv_dequeued _ _ _ (Inv_run fuel startUrl t excluded w)) as (ND & _).
    rewrite Hrest in ND. by apply NoDup_app in ND as (? & _ & _). }
  split; [exact Hnd|].
  intros expandedRowUrl page Hp. unfold handleRowClick, detail_rows.
  case_bool_decide.
  - clear Hnd Hp. induction pages as [|q l IH]; [done|].
    by rewrite filter_cons_False.
  - by apply filter_unique_url.
Qed.

(** ** Status badges and link following *)





(** ** Fields of the CSV export *)

Lemma append_cons (x : ascii) (a b : string) :
  String x a +:+ b = String x (a +:+ b).
Proof. reflexivity. Qed.

Lemma append_assoc (a b c : string) : (a +:+ b) +:+ c = a +:+ (b +:+ c).
Proof. induction a as [|x a IH]; [done|]. by rewrite !append_cons, IH. Qed.

Lemma append_empty_r (a : string) : a +:+ EmptyString = a.
Proof. induction a as [|x a IH]; [done|]. by rewrite append_cons, IH. Qed.

Lemma append_last_inj (a b : string) (c : ascii) :
  a +:+ String c EmptyString = b +:+ String c EmptyString -> a = b.
Proof.
  revert b. induction a as [|x a IH]; intros [|y b]; rewrite ?append_cons; intros H.
  - done.
  - injection H as _ H. by destruct b.
  - injection H as _ H. by destruct a.
  - injection H as -> H. by rewrite (IH b H).
Qed.

Lemma includes_char (c : ascii) (str : string) :
  includes (String c EmptyString) str = has_char (Ascii.eqb c) str.
Proof.
  induction str as [|x str IH]; [done|]. simpl.
  destruct (ascii_dec c x) as [->|Hne].
  - rewrite Ascii.eqb_refl. by destruct str.
  - rewrite IH. by rewrite (proj2 (Ascii.eqb_neq c x) Hne).
Qed.

Lemma replace_quotes_plain (str : string) :
  has_char (Ascii.eqb double_quote) str = false -> replace_quotes str = str.
Proof.
  induction str as [|x str IH]; [done|].
  change (has_char (Ascii.eqb double_quote) (String x str))
    with (Ascii.eqb double_quote x || has_char (Ascii.eqb double_quote) str).
  intros [Hx Hs]%orb_false_iff. cbn [replace_quotes].
  rewrite Ascii.eqb_sym, Hx. by rewrite IH.
Qed.

Lemma replace_quotes_inj (s1 s2 : string) :
  replace_quotes s1 = replace_quotes s2 -> s1 = s2.
Proof.
  revert s2. induction s1 as [|x s1 IH]; intros [|y s2]; simpl.
  - done.
  - by destruct (Ascii.eqb y double_quote).
  - by destruct (Ascii.eqb x double_quote).
  - destruct (Ascii.eqb x double_quote) eqn:Hx; destruct (Ascii.eqb y double_quote) eqn:Hy.
    + apply Ascii.eqb_eq in Hx as ->, Hy as ->. intros [= H]. by rewrite (IH s2 H).
    + intros [= Hc H]. rewrite <- Hc in Hy. discriminate Hy.
    + intros [= Hc H]. rewrite Hc in Hx. discriminate Hx.
    + intros [= -> H]. by rewrite (IH s2 H).
Qed.

Lemma escapeCsvField_quoted (field : CsvField) :
  escapeCsvField field
  = String double_quote (replace_quotes (field_text field) +:+ String double_quote EmptyString).
Proof.
  assert (H : forall str,
    (if includes "," str
        || includes (String double_quote EmptyString) str
        || includes (String line_feed EmptyString) str
     then String double_quote (replace_quotes str +:+ String double_quote EmptyString)
     else String double_quote (str +:+ String double_quote EmptyString))
    = String double_quote (replace_quotes str +:+ String double_quote EmptyString)).
  { intros str.
    destruct (includes (String double_quote EmptyString) str) eqn:Hq.
    - by rewrite orb_true_r.
    - rewrite includes_char in Hq. rewrite (replace_quotes_plain str Hq).
      by destruct (_ || _ || _). }
  destruct field; [done|apply H..].
Qed.

(** X10.  Every field that [escapeCsvField] returns is its text between
    two double quotes with every double quote of the text doubled,
    whether or not the text holds a comma, a quote or a line feed.  Two
    fields are exported alike exactly when their texts are the same: no
    two texts collide, while [null], the empty string and the empty array
    all give the same field. *)
Theorem csv_field_always_quoted :
  (forall field,
     escapeCsvField field
     = String double_quote
         (replace_quotes (field_text field) +:+ String double_quote EmptyString))
  /\ (forall f1 f2,
        escapeCsvField f1 = escapeCsvField f2 <-> field_text f1 = field_text f2)
  /\ escapeCsvField FieldNull = escapeCsvField (FieldString EmptyString)
  /\ escapeCsvField (FieldStrings []) = escapeCsvField FieldNull
  /\ escapeCsvField (FieldInlinks []) = escapeCsvField FieldNull.
Proof.
  split; [apply escapeCsvField_quoted|]. split; [|done].
  intros f1 f2. rewrite !escapeCsvField_quoted. split.
  - intros [= H]. by apply replace_quotes_inj, (append_last_inj _ _ double_quote).
  - by intros ->.
Qed.

(** ** Lines, fields and quotes of a file *)

Lemma split_lines_unfold (c : ascii) (rest : string) :
  split_lines (String c rest)
  = if is_break c then
      match rest with
      | String c' _ =>
          if is_break c' then split_lines rest else EmptyString :: split_lines rest
      | EmptyString => EmptyString :: split_lines rest
      end
    else
      match split_lines rest with
      | piece :: pieces => String c piece :: pieces
      | [] => [String c EmptyString]
      end.
Proof. reflexivity. Qed.

Lemma has_char_unfold (p : ascii -> bool) (c : ascii) (rest : string) :
  has_char p (String c rest) = p c || has_char p rest.
Proof. reflexivity. Qed.

Lemma split_lines_cons (content : string) :
  exists piece pieces, split_lines content = piece :: pieces.
Proof.
  induction content as [|c rest IH]; [by eexists _, _|].
  rewrite split_lines_unfold. destruct (is_break c).
  - destruct rest as [|c' rest']; [by eexists _, _|].
    destruct (is_break c'); [exact IH|by eexists _, _].
  - destruct IH as (p & ps & ->). by eexists _, _.
Qed.

(** A stretch without a line break stays in the piece it starts in. *)
Lemma split_lines_app (a r p : string) (ps : list string) :
  has_char is_break a = false ->
  split_lines r = p :: ps ->
  split_lines (a +:+ r) = (a +:+ p) :: ps.
Proof.
  intros Ha Hr. induction a as [|x a IH]; [done|].
  rewrite has_char_unfold in Ha. apply orb_false_iff in Ha as [Hx Ha].
  rewrite append_cons, split_lines_unfold, Hx, (IH Ha). by rewrite append_cons.
Qed.

(** A run of line breaks before such a string ends one piece, the empty
    one when nothing precedes the run. *)
Lemma split_lines_breaks (run s : string) :
  run <> EmptyString ->
  has_char (fun c => negb (is_break c)) run = false ->
  starts_clean s = true ->
  split_lines (run +:+ s) = EmptyString :: split_lines s.
Proof.
  intros Hne Hrun Hs. induction run as [|b run IH]; [done|].
  rewrite has_char_unfold in Hrun. apply orb_false_iff in Hrun as [Hb Hrun].
  apply negb_false_iff in Hb.
  rewrite append_cons, split_lines_unfold, Hb.
  destruct run as [|b' run'].
  - change (EmptyString +:+ s) with s.
    destruct s as [|c s']; [done|]. simpl in Hs.
    apply negb_true_iff in Hs. by rewrite Hs.
  - rewrite append_cons. rewrite has_char_unfold in Hrun.
    pose proof Hrun as Hrun'.
    apply orb_false_iff in Hrun' as [Hb' _]. apply negb_false_iff in Hb'.
    rewrite Hb'. rewrite <- append_cons. by apply IH.
Qed.

Lemma one_line_starts (u r : string) : one_line u -> starts_clean (u +:+ r) = true.
Proof.
  intros [Hne Hb]. destruct u as [|c u]; [done|].
  rewrite has_char_unfold in Hb. apply orb_false_iff in Hb as [Hc _].
  rewrite append_cons. change (negb (is_break c) = true). by rewrite Hc.
Qed.

Lemma join_cons (sep u u' : string) (us : list string) :
  join sep (u :: u' :: us) = u +:+ sep +:+ join sep (u' :: us).
Proof. reflexivity. Qed.

Lemma join_starts (sep u r : string) (us : list string) :
  one_line u -> starts_clean (join sep (u :: us) +:+ r) = true.
Proof.
  intros Hu. destruct us as [|u' us]; [by apply one_line_starts|].
  rewrite join_cons, append_assoc. by apply one_line_starts.
Qed.

Lemma split_lines_only_breaks (run : string) :
  all_breaks run ->
  exists tail, split_lines run = EmptyString :: tail /\ Forall (fun l => l = EmptyString) tail.
Proof.
  intros Hrun. destruct run as [|b run].
  - exists []. by split.
  - exists [EmptyString]. split; [|by repeat constructor].
    rewrite <- (append_empty_r (String b run)). by apply split_lines_breaks.
Qed.

(** Lines joined by runs of line breaks, with or without a run at the
    end, split into the same lines, followed by at most an empty piece. *)
Lemma split_lines_join (sep trailer u : string) (us : list string) :
  sep <> EmptyString -> all_breaks sep -> all_breaks trailer ->
  Forall one_line (u :: us) ->
  exists tail,
    split_lines (join sep (u :: us) +:+ trailer) = (u :: us) ++ tail
    /\ Forall (fun l => l = EmptyString) tail.
Proof.
  intros Hne Hsep Htr. revert u. induction us as [|u' us IH]; intros u Hall.
  - destruct (split_lines_only_breaks trailer Htr) as (tail & Ht & Hempty).
    exists tail. split; [|done]. apply Forall_cons in Hall as [[_ Hu] _].
    change (join sep [u]) with u.
    rewrite (split_lines_app u trailer EmptyString tail Hu Ht).
    by rewrite append_empty_r.
  - apply Forall_cons in Hall as [[_ Hu] Hall].
    destruct (IH u' Hall) as (tail & Ht & Hempty). exists tail. split; [|done].
    rewrite join_cons, !append_assoc.
    rewrite (split_lines_app u _ EmptyString (split_lines (join sep (u' :: us) +:+ trailer)) Hu).
    + by rewrite append_empty_r, Ht.
    + apply split_lines_breaks; [done..|]. apply join_starts.
      by apply Forall_cons in Hall as [? _].
Qed.

Lemma trim_end_unfold (c : ascii) (rest : string) :
  trim_end (String c rest)
  = match trim_end rest with
    | EmptyString => if is_space c then EmptyString else String c EmptyString
    | kept => String c kept
    end.
Proof. reflexivity. Qed.

(** What [trim] removes at the end lies after the last code unit that is
    not white space. *)
Lemma trim_end_app (a r : string) (c : ascii) :
  is_space c = false -> trim_end (a +:+ String c r) = a +:+ String c (trim_end r).
Proof.
  intros Hc. induction a as [|x a IH].
  - change (trim_end (String c r) = String c (trim_end r)).
    rewrite trim_end_unfold, Hc. by destruct (trim_end r).
  - rewrite append_cons, trim_end_unfold, IH. by destruct a.
Qed.

Lemma has_char_app (p : ascii -> bool) (a b : string) :
  has_char p (a +:+ b) = has_char p a || has_char p b.
Proof.
  induction a as [|x a IH]; [done|].
  by rewrite append_cons, !has_char_unfold, IH, orb_assoc.
Qed.

Lemma before_comma_unfold (c : ascii) (rest : string) :
  before_comma (String c rest)
  = if is_comma c then EmptyString else String c (before_comma rest).
Proof. reflexivity. Qed.

Lemma before_comma_app (a r : string) :
  has_char is_comma a = false -> before_comma (a +:+ String ","%char r) = a.
Proof.
  induction a as [|x a IH]; [done|].
  rewrite has_char_unfold. intros [Hx Ha]%orb_false_iff.
  by rewrite append_cons, before_comma_unfold, Hx, (IH Ha).
Qed.

Lemma before_comma_clean (s : string) : has_char is_comma (before_comma s) = false.
Proof.
  induction s as [|x s IH]; [done|]. rewrite before_comma_unfold.
  destruct (is_comma x) eqn:Hx; [done|]. by rewrite has_char_unfold, Hx, IH.
Qed.

Lemma strip_end_quote_unfold (c : ascii) (rest : string) :
  strip_end_quote (String c rest)
  = match rest with
    | EmptyString => if Ascii.eqb c double_quote then EmptyString else String c rest
    | _ => String c (strip_end_quote rest)
    end.
Proof. reflexivity. Qed.

Lemma strip_end_quote_app (a : string) :
  strip_end_quote (a +:+ String double_quote EmptyString) = a.
Proof.
  induction a as [|x a IH]; [done|].
  rewrite append_cons, strip_end_quote_unfold, IH. by destruct a.
Qed.

(** The pieces a string is cut into keep no code unit it did not have. *)
Lemma trim_start_keeps (p : ascii -> bool) (s : string) :
  has_char p s = false -> has_char p (trim_start s) = false.
Proof.
  induction s as [|x s IH]; [done|]. intros H.
  change (trim_start (String x s)) with (if is_space x then trim_start s else String x s).
  destruct (is_space x); [|done].
  rewrite has_char_unfold in H. apply orb_false_iff in H as [_ H]. by apply IH.
Qed.

Lemma trim_end_keeps (p : ascii -> bool) (s : string) :
  has_char p s = false -> has_char p (trim_end s) = false.
Proof.
  induction s as [|x s IH]; [done|]. rewrite has_char_unfold, trim_end_unfold.
  intros [Hx H]%orb_false_iff. specialize (IH H).
  destruct (trim_end s) as [|y k].
  - destruct (is_space x); [done|]. by rewrite has_char_unfold, Hx.
  - by rewrite has_char_unfold, Hx, IH.
Qed.

Lemma before_comma_keeps (p : ascii -> bool) (s : string) :
  has_char p s = false -> has_char p (before_comma s) = false.
Proof.
  induction s as [|x s IH]; [done|]. rewrite has_char_unfold, before_comma_unfold.
  intros [Hx H]%orb_false_iff. destruct (is_comma x); [done|].
  by rewrite has_char_unfold, Hx, (IH H).
Qed.

Lemma strip_end_quote_keeps (p : ascii -> bool) (s : string) :
  has_char p s = false -> has_char p (strip_end_quote s) = false.
Proof.
  induction s as [|x s IH]; [done|]. rewrite has_char_unfold, strip_end_quote_unfold.
  intros [Hx H]%orb_false_iff. destruct s as [|y s].
  - destruct (Ascii.eqb x double_quote); [done|]. by rewrite has_char_unfold, Hx.
  - by rewrite has_char_unfold, Hx, (IH H).
Qed.

Lemma strip_quotes_keeps (p : ascii -> bool) (s : string) :
  has_char p s = false -> has_char p (strip_quotes s) = false.
Proof.
  intros H. apply strip_end_quote_keeps. destruct s as [|x s]; [done|].
  change (strip_start_quote (String x s))
    with (if Ascii.eqb x double_quote then s else String x s).
  destruct (Ascii.eqb x double_quote); [|done].
  rewrite has_char_unfold in H. by apply orb_false_iff in H as [_ H].
Qed.

Lemma trim_keeps (p : ascii -> bool) (s : string) :
  has_char p s = false -> has_char p (trim s) = false.
Proof. intros H. by apply trim_end_keeps, trim_start_keeps. Qed.

(** No piece of [split_lines] holds a line break. *)
Lemma split_lines_pieces (content : string) :
  Forall (fun piece => has_char is_break piece = false) (split_lines content).
Proof.
  induction content as [|c rest IH]; [by repeat constructor|].
  rewrite split_lines_unfold. destruct (is_break c) eqn:Hc.
  - destruct rest as [|c' rest']; [by repeat constructor|].
    destruct (is_break c'); [done|by constructor].
  - destruct (split_lines rest) as [|p ps]; [by repeat constructor; rewrite has_char_unfold, Hc|].
    apply Forall_cons in IH as [Hp Hps]. constructor; [|done].
    by rewrite has_char_unfold, Hc, Hp.
Qed.

Lemma split_lines_after (pre s : string) (b c : ascii) :
  is_break b = true -> is_break c = false ->
  exists front,
    split_lines (pre +:+ String b (String c s)) = front ++ split_lines (String c s).
Proof.
  intros Hb Hc.
  enough (exists f front,
    split_lines (pre +:+ String b (String c s)) = (f :: front) ++ split_lines (String c s))
    as (f & front & H) by by exists (f :: front).
  induction pre as [|x pre (f & front & IH)].
  - exists EmptyString, [].
    change (EmptyString +:+ String b (String c s)) with (String b (String c s)).
    by rewrite split_lines_unfold, Hb, Hc.
  - rewrite append_cons, split_lines_unfold, IH. destruct (is_break x).
    + destruct (pre +:+ String b (String c s)) as [|c' r] eqn:E.
      { by destruct pre. }
      destruct (is_break c'); [by exists f, front|by exists EmptyString, (f :: front)].
    + by exists (String x f), front.
Qed.

Lemma join_elem (sep x h : string) (l : list string) :
  x ∈ l -> exists pre rest, join sep (h :: l) = pre +:+ sep +:+ x +:+ rest.
Proof.
  revert h. induction l as [|y l IH]; intros h Hx; [by apply elem_of_nil in Hx|].
  rewrite join_cons. apply elem_of_cons in Hx as [->|Hx].
  - exists h. destruct l as [|z l].
    + exists EmptyString. by rewrite append_empty_r.
    + exists (sep +:+ join sep (z :: l)). by rewrite join_cons.
  - destruct (IH y Hx) as (pre & rest & ->).
    exists (h +:+ sep +:+ pre), rest. by rewrite !append_assoc.
Qed.

(** ** The exclusion file *)

Lemma prefix_http_head (u : string) :
  String.prefix "http" u = true -> exists r, u = String "h"%char r.
Proof.
  destruct u as [|c u]; [done|].
  change (String.prefix "http" (String c u))
    with (if ascii_dec "h" c then String.prefix "ttp" u else false).
  destruct (ascii_dec "h" c) as [<-|]; [by eexists|done].
Qed.

Lemma has_char_ext (p q : ascii -> bool) (s : string) :
  (forall c, p c = q c) -> has_char p s = has_char q s.
Proof.
  intros H. induction s as [|x s IH]; [done|]. by rewrite !has_char_unfold, H, IH.
Qed.

Lemma includes_comma (s : string) : includes "," s = has_char is_comma s.
Proof.
  rewrite includes_char. apply has_char_ext. intros c. apply Ascii.eqb_sym.
Qed.

Lemma exclusion_line_empty (isCsv : bool) : exclusion_line isCsv EmptyString = None.
Proof. by destruct isCsv. Qed.

Lemma exclusion_line_sound (isCsv : bool) (line u : string) :
  has_char is_break line = false ->
  exclusion_line isCsv line = Some u ->
  String.prefix "http" u = true
  /\ is_Some (hostname u)
  /\ has_char is_break u = false
  /\ (isCsv = true -> has_char is_comma u = false).
Proof.
  intros Hline. unfold exclusion_line. cbv zeta.
  set (field := if isCsv && includes "," (trim line)
                then before_comma (trim line) else trim line).
  destruct (String.prefix "http" (strip_quotes field)) eqn:Hp; [|done].
  destruct (hostname (strip_quotes field)) as [h|] eqn:Hh; [|done].
  intros [= <-]. split_and!; [done|by exists h|..].
  - apply strip_quotes_keeps. unfold field.
    destruct (_ && _); [apply before_comma_keeps|]; by apply trim_keeps.
  - intros ->. apply strip_quotes_keeps. unfold field. cbn [andb].
    destruct (includes "," (trim line)) eqn:Hc; [apply before_comma_clean|].
    by rewrite <- includes_comma.
Qed.

(** X11.  Whatever the uploaded file holds, every URL that
    [handleFileChange] puts in the exclusion set starts with http, is
    accepted by the [URL] constructor, and holds no line break; read as
    CSV it holds no comma either. *)
Theorem exclusion_file_sound (isCsv : bool) (content u : string) :
  u ∈ parse_exclusions isCsv content ->
  String.prefix "http" u = true
  /\ is_Some (hostname u)
  /\ has_char is_break u = false
  /\ (isCsv = true -> has_char is_comma u = false).
Proof.
  unfold parse_exclusions. rewrite elem_of_list_to_set, list_elem_of_omap.
  intros (line & Hin & Hl). apply (exclusion_line_sound isCsv line); [|done].
  pose proof (split_lines_pieces content) as Hall.
  rewrite Forall_forall in Hall. by apply Hall.
Qed.

Lemma plain_line_one_line (u : string) : plain_line u = true -> one_line u.
Proof.
  unfold plain_line. intros [[[Hp Hb]%andb_true_iff _]%andb_true_iff _]%andb_true_iff.
  split; [|by apply negb_true_iff]. intros ->. discriminate Hp.
Qed.

Lemma exclusion_line_plain (u : string) :
  plain_line u = true -> is_Some (hostname u) -> exclusion_line false u = Some u.
Proof.
  unfold plain_line.
  intros [[[Hp Hb]%andb_true_iff Ht%String.eqb_eq]%andb_true_iff Hq%String.eqb_eq]%andb_true_iff
         [h Hh].
  destruct (prefix_http_head u Hp) as [r ->].
  unfold exclusion_line, trim, strip_quotes. cbv zeta. cbn [andb].
  change (trim_start (String "h" r)) with (String "h"%char r). rewrite Ht.
  change (strip_start_quote (String "h" r)) with (String "h"%char r).
  by rewrite Hq, Hp, Hh.
Qed.

Lemma omap_exclusion_empties (isCsv : bool) (tail : list string) :
  Forall (fun l => l = EmptyString) tail -> omap (exclusion_line isCsv) tail = [].
Proof.
  induction 1 as [|l tail -> _ IH]; [done|].
  cbn [omap list_omap]. by rewrite exclusion_line_empty.
Qed.

Lemma omap_exclusion_plain (urls : list string) :
  Forall (fun u => plain_line u = true /\ is_Some (hostname u)) urls ->
  omap (exclusion_line false) urls = urls.
Proof.
  induction 1 as [|u urls [Hu Hh] _ IH]; [done|].
  cbn [omap list_omap]. by rewrite (exclusion_line_plain u Hu Hh), IH.
Qed.

(** X12.  A plain list of URLs, one on each line, is read back as exactly
    those URLs: the lines may be separated by any run of line feeds and
    carriage returns, blank lines included, and the file may end with such
    a run or without one.  Each line is a URL that starts with http, ends
    neither with white space nor with a double quote, and is accepted by
    the [URL] constructor. *)
Theorem plain_list_round_trip (sep trailer : string) (urls : list string) :
  sep <> EmptyString -> all_breaks sep -> all_breaks trailer ->
  Forall (fun u => plain_line u = true /\ is_Some (hostname u)) urls ->
  parse_exclusions false (join sep urls +:+ trailer) = list_to_set urls.
Proof.
  intros Hne Hsep Htr Hall. unfold parse_exclusions. f_equal.
  destruct urls as [|u us].
  - destruct (split_lines_only_breaks trailer Htr) as (tail & Ht & Hempty).
    change (join sep [] +:+ trailer) with trailer. rewrite Ht.
    apply (omap_exclusion_empties false (EmptyString :: tail)). by constructor.
  - destruct (split_lines_join sep trailer u us Hne Hsep Htr) as (tail & -> & Hempty).
    { eapply Forall_impl; [exact Hall|]. intros v [Hv _]. by apply plain_line_one_line. }
    rewrite omap_app, (omap_exclusion_empties false tail Hempty), app_nil_r.
    by apply omap_exclusion_plain.
Qed.

(** ** From the export back to the exclusion file *)

Lemma has_char_weaken (p q : ascii -> bool) (s : string) :
  (forall c, q c = true -> p c = true) -> has_char p s = false -> has_char q s = false.
Proof.
  intros H. induction s as [|x s IH]; [done|]. rewrite !has_char_unfold.
  intros [Hx Hs]%orb_false_iff. rewrite (IH Hs), orb_false_r.
  destruct (q x) eqn:Hq; [|done]. by rewrite (H x Hq) in Hx.
Qed.

Lemma exportable_spec (u : string) :
  exportable u = true ->
  String.prefix "http" u = true
  /\ has_char is_break u = false
  /\ has_char (Ascii.eqb double_quote) u = false
  /\ has_char is_comma u = false.
Proof.
  unfold exportable. intros [Hp Hc%negb_true_iff]%andb_true_iff.
  split_and!; [done|..]; refine (has_char_weaken _ _ u _ Hc); intros c Hq.
  - by rewrite Hq.
  - rewrite Ascii.eqb_sym in Hq. rewrite Hq. by rewrite orb_true_r.
  - unfold is_comma in Hq. rewrite Hq. by rewrite orb_true_r.
Qed.

Lemma trim_start_head (c : ascii) (r : string) :
  is_space c = false -> trim_start (String c r) = String c r.
Proof.
  intros Hc. change (trim_start (String c r))
    with (if is_space c then trim_start r else String c r). by rewrite Hc.
Qed.

(** The line of a row as the upload reads it: whatever follows the first
    comma, the quoted first field gives back the URL. *)
Lemma exclusion_line_csv (u stuff : string) :
  has_char (Ascii.eqb double_quote) u = false ->
  has_char is_comma u = false ->
  String.prefix "http" u = true ->
  is_Some (hostname u) ->
  exclusion_line true (escapeCsvField (FieldString u) +:+ String ","%char stuff) = Some u.
Proof.
  intros Hq Hc Hp [h Hh]. rewrite escapeCsvField_quoted. cbn [field_text].
  rewrite (replace_quotes_plain u Hq).
  set (a := String double_quote (u +:+ String double_quote EmptyString)).
  assert (Ha : has_char is_comma a = false).
  { unfold a. by rewrite has_char_unfold, has_char_app, Hc. }
  unfold exclusion_line, trim. cbv zeta.
  assert (Ht : trim_end (trim_start (a +:+ String ","%char stuff))
               = a +:+ String ","%char (trim_end stuff)).
  { unfold a at 1. rewrite append_cons, trim_start_head by done.
    rewrite <- append_cons. by apply trim_end_app. }
  rewrite Ht, includes_comma, has_char_app, Ha. cbn [orb andb has_char].
  replace (is_comma ",") with true by done. cbn [orb].
  rewrite (before_comma_app a _ Ha). unfold strip_quotes, a.
  change (strip_start_quote (String double_quote ?r)) with r.
  by rewrite strip_end_quote_app, Hp, Hh.
Qed.

Lemma split_lines_line (pre a R : string) (b : ascii) :
  is_break b = true -> one_line a ->
  exists front p ps,
    split_lines (pre +:+ String b EmptyString +:+ a +:+ R) = front ++ (a +:+ p) :: ps.
Proof.
  intros Hb [Hne Ha]. destruct a as [|c a]; [done|].
  pose proof Ha as Ha'. rewrite has_char_unfold in Ha'.
  apply orb_false_iff in Ha' as [Hc _].
  destruct (split_lines_after pre (a +:+ R) b c Hb Hc) as [front Hf].
  destruct (split_lines_cons R) as (p & ps & HR).
  exists front, p, ps.
  change (pre +:+ String b EmptyString +:+ String c a +:+ R)
    with (pre +:+ String b (String c (a +:+ R))).
  rewrite Hf. f_equal.
  change (String c (a +:+ R)) with (String c a +:+ R). by apply split_lines_app.
Qed.

Lemma exported_url_imported (numberToString : Q -> string)
    (pages : list CrawledPage) (page : CrawledPage) :
  page ∈ pages ->
  exportable (url page) = true ->
  is_Some (hostname (url page)) ->
  url page ∈ parse_exclusions true (exportToCSV numberToString pages).
Proof.
  intros Hin (Hp & Hb & Hq & Hc)%exportable_spec Hh.
  unfold parse_exclusions, exportToCSV.
  rewrite elem_of_list_to_set, list_elem_of_omap.
  destruct (join_elem (String line_feed EmptyString) (csv_row numberToString page)
              (join "," csv_headers) (map (csv_row numberToString) pages))
    as (pre & rest & ->).
  { apply list_elem_of_fmap. by exists page. }
  unfold csv_row at 1. rewrite join_cons.
  set (E := escapeCsvField (FieldString (url page))).
  set (J := join "," _).
  assert (HE : one_line (E +:+ ",")).
  { unfold E. rewrite escapeCsvField_quoted. cbn [field_text].
    rewrite (replace_quotes_plain _ Hq). split; [done|].
    by rewrite append_cons, has_char_unfold, !has_char_app, Hb. }
  assert (Hrow : (E +:+ "," +:+ J) +:+ rest = (E +:+ ",") +:+ J +:+ rest).
  { by rewrite !append_assoc. }
  rewrite Hrow.
  destruct (split_lines_line pre (E +:+ ",") (J +:+ rest) line_feed eq_refl HE)
    as (front & p & ps & ->).
  exists ((E +:+ ",") +:+ p). split.
  - apply elem_of_app. right. by left.
  - rewrite append_assoc. by apply exclusion_line_csv.
Qed.

(** X13.  The export fed back as the exclusion file keeps the crawler off
    the pages it lists.  For every exported page whose URL starts with
    http, holds no comma, double quote or line break and is accepted by
    the [URL] constructor, whatever its other fields hold: the URL is in
    the set that [handleFileChange] reads from the file produced by
    [exportToCSV] when the file is read as CSV; and a crawl of any site
    with that set never puts the URL in its queue, and never names it in a
    request to the analyzer. *)
Theorem exported_pages_stay_excluded (numberToString : Q -> string)
    (pages : list CrawledPage) (page : CrawledPage)
    fuel startUrl t w :
  page ∈ pages ->
  exportable (url page) = true ->
  is_Some (hostname (url page)) ->
  let excluded := parse_exclusions true (exportToCSV numberToString pages) in
  let s := session_of (handleCrawlStart fuel startUrl t excluded w) in
  url page ∈ excluded
  /\ (url page ∉ queue s)
  /\ (url page ∉ concat (batches (log s))).
Proof.
  intros Hin Hex Hh excluded s.
  assert (Hu : url page ∈ excluded) by by apply exported_url_imported.
  pose proof (Inv_run fuel startUrl t excluded w) as HI. fold s in HI.
  destruct (Inv_dequeued _ _ _ HI) as (_ & Hd & Hqu & _).
  split_and!; [done|..]; intros Hm; by apply (inv_excl _ _ _ HI (url page)); auto.
Qed.

(** ** The form and the page *)

Lemma crawl_batch_message startUrl t d s message s' :
  loop_guard t s = true ->
  crawl_batch startUrl t d s = Throw message s' ->
  loop_error message.
Proof.
  intros Hg Hc. pose proof (crawl_batch_run startUrl t d s (guard_batch t s Hg)) as Hrun.
  rewrite Hc in Hrun. inversion Hrun as [error w Hgen Heq|data w Hgen Hb Heq|data w Hgen Hb Heq].
  - left. by exists error, "page analysis"%string.
  - destruct (visit_pages _ _ _ _) as [s4|m s4] eqn:Hv; [done|].
    injection Heq as -> ->.
    destruct (visit_pages_raised _ _ _ _ _ _ Hv) as (page & _ & _ & [[error ->]| ->] & _).
    + left. by eexists _, _.
    + by right.
Qed.

Lemma crawl_loop_failure startUrl t d fuel s f s' :
  crawl_loop fuel startUrl t d s = Failed f s' ->
  exists message, f = ApiFailure message /\ loop_error message.
Proof.
  revert s. induction fuel as [|fuel IH]; intros s; simpl;
    destruct (loop_guard t s) eqn:Hg; [done..| |done].
  destruct (crawl_batch startUrl t d s) as [s1|s1|m s1] eqn:Hc; [apply IH|done|].
  intros [= <- <-]. exists m. split; [done|].
  by apply (crawl_batch_message startUrl t d s m s1).
Qed.

Lemma loop_error_truthy (message : string) :
  loop_error message -> truthy (Some message) = true.
Proof.
  intros [(error & context & ->)| ->]; [|done].
  destruct error as [message|]; simpl; [by destruct (includes "JSON" message)|done].
Qed.

Lemma form_rejected fuel u maxPages excludedUrls w message :
  handleSubmit fuel u maxPages excludedUrls w = Rejected message ->
  u = EmptyString \/ hostname u = None.
Proof.
  unfold handleSubmit. case_bool_decide as Hu; [by left|].
  destruct (hostname u); [done|by right].
Qed.

Lemma form_started fuel u maxPages excludedUrls w o :
  handleSubmit fuel u maxPages excludedUrls w = Started o ->
  u <> EmptyString
  /\ is_Some (hostname u)
  /\ o = handleCrawlStart fuel u maxPages excludedUrls w
  /\ (forall f s, o = Failed f s ->
        exists message, f = ApiFailure message /\ loop_error message).
Proof.
  unfold handleSubmit. case_bool_decide as Hu; [done|].
  destruct (hostname u) as [d|] eqn:Hd; [|done]. intros [= <-].
  split_and!; [done|by exists d|done|].
  unfold handleCrawlStart. rewrite Hd. intros f s. apply crawl_loop_failure.
Qed.

(** X14.  [handleSubmit] starts a crawl only from a start URL that is not
    empty and that the [URL] constructor accepts, and sets its own error
    otherwise.  A crawl started from the form therefore never fails on its
    start URL: if it fails, the error was thrown inside the loop, and is
    one built by [handleApiError] or the [TypeError] of iterating an
    extractor reply that is not iterable. *)
Theorem form_checks_start_url fuel u maxPages excludedUrls w :
  match handleSubmit fuel u maxPages excludedUrls w with
  | Rejected _ => u = EmptyString \/ hostname u = None
  | Started o =>
      u <> EmptyString
      /\ is_Some (hostname u)
      /\ o = handleCrawlStart fuel u maxPages excludedUrls w
      /\ (forall f s, o = Failed f s ->
            exists message,
              f = ApiFailure message
              /\ ((exists error context, message = handleApiError error context)
                  \/ message = notIterableMessage))
  end.
Proof.
  destruct (handleSubmit fuel u maxPages excludedUrls w) as [message|o] eqn:Hs.
  - by apply form_rejected in Hs.
  - by apply form_started in Hs.
Qed.

Lemma shows_table_spec (v : View) :
  shows_table v = true <-> view_results v <> [].
Proof.
  unfold shows_table. destruct (view_results v); simpl.
  - by rewrite andb_false_r.
  - by rewrite orb_true_r.
Qed.

(** X15.  What the page shows.  In every state at least one of the four
    blocks is rendered; the table is rendered exactly when there are
    results, whether or not the crawl is still running; the placeholder is
    rendered only when nothing else is.  After a crawl started from the
    form: a failed one shows the error panel, without the spinner and
    without the placeholder, and still shows the table of the pages
    analyzed before the failure; a completed one shows no error panel and
    either the table or, with no page analyzed, the placeholder. *)
Theorem page_blocks (urlErrorMessage : string -> string) :
  (forall v : View,
     shows_spinner v || shows_error v || shows_table v || shows_placeholder v = true
     /\ (shows_table v = true <-> view_results v <> [])
     /\ (shows_placeholder v = true ->
           shows_spinner v = false /\ shows_error v = false /\ shows_table v = false))
  /\ (forall fuel u maxPages excludedUrls w o,
        handleSubmit fuel u maxPages excludedUrls w = Started o ->
        let v := view_of urlErrorMessage o in
        match o with
        | Failed _ s =>
            shows_error v = true /\ shows_spinner v = false
            /\ shows_placeholder v = false
            /\ (shows_table v = true <-> results s <> [])
        | Completed s =>
            shows_error v = false /\ shows_spinner v = false
            /\ shows_table v = negb (shows_placeholder v)
            /\ (shows_placeholder v = true <-> results s = [])
        | OutOfFuel s =>
            shows_spinner v = true /\ shows_error v = false
            /\ shows_placeholder v = false
        end).
Proof.
  split.
  - intros v. split_and!; [|apply shows_table_spec|].
    + unfold shows_spinner, shows_error, shows_table, shows_placeholder.
      destruct (view_isLoading v), (truthy (view_error v)), (view_results v); done.
    + unfold shows_spinner, shows_error, shows_table, shows_placeholder.
      destruct (view_isLoading v), (truthy (view_error v)), (view_results v); done.
  - intros fuel u maxPages excludedUrls w o Hs v.
    destruct (form_started fuel u maxPages excludedUrls w o Hs) as (_ & _ & _ & Hfail).
    destruct o as [s|f s|s]; subst v.
    + split_and!; [done|done|..]; cbn; by destruct (results s).
    + destruct (Hfail f s eq_refl) as (m & -> & Hm).
      unfold shows_error, shows_spinner, shows_placeholder. cbn [view_of view_error view_isLoading view_results].
      rewrite (loop_error_truthy m Hm). split_and!; [done|done|by rewrite andb_false_r|].
      apply shows_table_spec.
    + done.
Qed.

End Crawler.

Arguments queue {World} _.
Arguments seenUrls {World} _.
Arguments allInlinks {World} _.
Arguments analyzedCount {World} _.
Arguments results {World} _.
Arguments log {World} _.
Arguments world {World} _.
Arguments mkSession {World} _ _ _ _ _ _ _.
Arguments session_of {World} _.
Arguments Completed {World} _.
Arguments Failed {World} _ _.
Arguments OutOfFuel {World} _.
Arguments Done {World} _.
Arguments Raised {World} _ _.
Arguments finished {World} _.

(** ** The crawl of the small site *)

(** A crawl of the demo site from its home page, with the API that answers
    from the site. *)
Local Abbreviation demo_crawl fuel t excluded :=
  (handleCrawlStart nat Demo.generateAnalysis Demo.generateLinks Demo.hostname
     fuel Demo.home t excluded 0%nat).

Lemma demo_echoes : analyzer_echoes nat Demo.generateAnalysis.
Proof.
  intros urls ctx w data w' H. unfold Demo.generateAnalysis in H.
  injection H as <- <-. rewrite <- list_fmap_compose. apply list_fmap_id.
Defined.

Lemma demo_cardinal : analyzer_cardinal nat Demo.generateAnalysis.
Proof.
  intros urls ctx w data w' H. unfold Demo.generateAnalysis in H.
  injection H as <- <-. apply length_map.
Defined.

Example demo_crawl_budget_4 :
  let s := session_of (demo_crawl 10 4 ∅) in
  batches (log s)
    = [[Demo.home]; [Demo.page_a; Demo.page_b; "https://example.com/c"]]
  /\ queue s = ["https://example.com/d"; "https://example.com/e"; "https://example.com/f"]
  /\ analyzedCount s = 4
  /\ size (seenUrls s) = 7%nat.
Proof. vm_compute. repeat split. Qed.

(** With [page_a] excluded, the crawl of the whole site never pushes nor
    reports it. *)
Lemma visited_registry_dedup_witness :
  let s := session_of (demo_crawl 10 20 {[Demo.page_a]}) in
  analyzer_echoes nat Demo.generateAnalysis
  /\ (Demo.page_a ∉ pushed (log s))
  /\ (Demo.page_a ∉ map url (results s))
  /\ (length (results s) <= size (seenUrls s))%nat.
Proof.
  intros s.
  destruct (visited_registry_dedup nat Demo.generateAnalysis Demo.generateLinks
              Demo.hostname 10 Demo.home 20 {[Demo.page_a]} 0%nat)
    as (_ & _ & _ & _ & Hex & Hres).
  destruct (Hres demo_echoes) as (_ & Hnot & Hsize).
  assert (Hin : Demo.page_a ∈ ({[Demo.page_a]} : gset string))
    by (apply elem_of_singleton; reflexivity).
  split; [exact demo_echoes|]. split; [exact (proj1 (proj2 (Hex _ Hin)))|].
  split; [exact (Hnot _ Hin)|exact Hsize].
Defined.

(** C1 as stated, for every crawl, fails on an API that does not keep to
    one record per URL, carrying that URL: with two records for the seed
    the results outnumber the visited set, and with a record carrying
    another URL an excluded URL is reported. *)
Lemma visited_registry_dedup_counterexample :
  (let s := session_of
              (handleCrawlStart nat Demo.generateAnalysis_twice Demo.generateLinks
                 Demo.hostname 10 Demo.home 2 ∅ 0%nat) in
   ~ (length (results s) <= size (seenUrls s))%nat)
  /\ (let excluded : gset string := {[Demo.page_a]} in
      let s := session_of
                 (handleCrawlStart nat Demo.generateAnalysis_renamed Demo.generateLinks
                    Demo.hostname 10 Demo.home 1 excluded 0%nat) in
      ~ (forall u, u ∈ excluded -> u ∉ map url (results s))).
Proof.
  split.
  - vm_compute. intros H. inversion H as [|? H1]. inversion H1.
  - intros excluded s H. apply (H Demo.page_a).
    + apply elem_of_singleton. reflexivity.
    + vm_compute. apply list_elem_of_here.
Qed.

Lemma budget_respected_witness :
  let o := demo_crawl 10 4 ∅ in
  0 <= 4
  /\ analyzer_cardinal nat Demo.generateAnalysis
  /\ 0 <= analyzedCount (session_of o) <= 4
  /\ (forall s, o = Completed s -> queue s = [] \/ analyzedCount s = 4).
Proof.
  intros o.
  assert (H4 : 0 <= 4) by (intros H; discriminate H).
  destruct (budget_respected nat Demo.generateAnalysis Demo.generateLinks
              Demo.hostname 10 Demo.home 4 ∅ 0%nat H4 demo_cardinal)
    as (Hb & _ & _ & _ & Hc).
  split; [exact H4|]. split; [exact demo_cardinal|]. split; [exact Hb|exact Hc].
Defined.

Lemma demo_analysis_returns urls ctx (w0 : nat) :
  exists data w1, Demo.generateAnalysis urls ctx w0 = (inr data, w1).
Proof. eexists _, _. reflexivity. Defined.

Lemma demo_links_return pageUrl siteDomain (w0 : nat) :
  exists newLinks w1,
    Demo.generateLinks pageUrl siteDomain w0 = (inr (Iterable newLinks), w1).
Proof. eexists _, _. reflexivity. Defined.

Lemma crawl_terminates_witness :
  0 <= 4
  /\ analyzer_cardinal nat Demo.generateAnalysis
  /\ Z.of_nat (length (batches (log (session_of (demo_crawl 4 4 ∅))))) <= 4
  /\ finished (demo_crawl 4 4 ∅)
  /\ exists s, demo_crawl 4 4 ∅ = Completed s.
Proof.
  assert (H4 : 0 <= 4) by (intros H; discriminate H).
  destruct (crawl_terminates nat Demo.generateAnalysis Demo.generateLinks
              Demo.hostname Demo.home 4 ∅ 0%nat H4 demo_cardinal)
    as (Hcount & Hfin & _ & Hdone).
  split; [exact H4|]. split; [exact demo_cardinal|]. split; [exact (Hcount 4%nat)|].
  split; [exact (proj1 (Hfin 4%nat (le_n _)))|].
  destruct (Hdone demo_analysis_returns demo_links_return 4%nat (le_n _))
    as [Hc|[Hn _]]; [exact Hc|discriminate Hn].
Defined.

Example demo_crawl_whole_site :
  let s := session_of (demo_crawl 10 20 ∅) in
  pushed (log s)
    = [Demo.home; Demo.page_a; Demo.page_b; "https://example.com/c";
       "https://example.com/d"; "https://example.com/e"; "https://example.com/f";
       Demo.missing; "https://example.com/g"]
  /\ batches (log s)
     = [[Demo.home];
        [Demo.page_a; Demo.page_b; "https://example.com/c"; "https://example.com/d";
         "https://example.com/e"];
        ["https://example.com/f"; Demo.missing; "https://example.com/g"]]
  /\ extracted (log s)
     = [Demo.home; Demo.page_a; Demo.page_b; "https://example.com/c";
        "https://example.com/d"; "https://example.com/e"; "https://example.com/f";
        "https://example.com/g"]
  /\ queue s = [].
Proof. vm_compute. repeat split. Qed.

(** [page_a] was pushed before [missing]; [missing] is in the third batch,
    [page_a] in an earlier one. *)
Lemma frontier_fifo_witness :
  let s := session_of (demo_crawl 10 20 ∅) in
  exists k b', (k <= 2)%nat /\ batches (log s) !! k = Some b' /\ Demo.page_a ∈ b'.
Proof.
  intros s.
  destruct (frontier_fifo nat Demo.generateAnalysis Demo.generateLinks
              Demo.hostname 10 Demo.home 20 ∅ 0%nat) as (_ & _ & Horder & _).
  apply (Horder 1%nat 7%nat Demo.page_a Demo.missing 2%nat
           ["https://example.com/f"; Demo.missing; "https://example.com/g"]).
  - apply le_S, le_S, le_S, le_S, le_S, le_n.
  - vm_compute. reflexivity.
  - vm_compute. reflexivity.
  - vm_compute. reflexivity.
  - apply list_elem_of_further, list_elem_of_here.
Defined.

(** The link to [blog.example.com] found on the home page changes nothing
    in the queue, and [page_a], which was pushed, has the host of the
    seed. *)
Lemma same_host_enqueue_witness :
  let s := session_of (demo_crawl 10 20 ∅) in
  let s0 := initial_session nat Demo.home ∅ 0%nat in
  let link := mkLink "https://blog.example.com/post" "Blog" in
  queue (record_link nat Demo.hostname "example.com" Demo.home s0 link) = queue s0
  /\ exists siteDomain,
       Demo.hostname Demo.home = Some siteDomain
       /\ Demo.hostname Demo.page_a = Some siteDomain.
Proof.
  intros s s0 link.
  destruct (same_host_enqueue nat Demo.generateAnalysis Demo.generateLinks
              Demo.hostname 10 Demo.home 20 ∅ 0%nat) as (Hhost & _ & Hblog).
  split.
  - apply (Hblog Demo.home s0 link). vm_compute. reflexivity.
  - apply (Hhost Demo.page_a). vm_compute.
    apply list_elem_of_further, list_elem_of_further, list_elem_of_further,
      list_elem_of_here.
Defined.

(** [page_b] is analyzed in the same batch as [page_a], which links to it:
    the page emitted for [page_b] has the one inlink known when the batch
    was merged, while the map ends with both. *)
Example sibling_edge_not_attached :
  let s := session_of (demo_crawl 10 20 ∅) in
  (inlinks <$> results s !! 2%nat) = Some [mkInlink Demo.home "B"]
  /\ (url <$> results s !! 2%nat) = Some Demo.page_b
  /\ allInlinks s !! Demo.page_b
     = Some [mkInlink Demo.home "B"; mkInlink Demo.page_a "B again"].
Proof. vm_compute. repeat split. Qed.

Lemma inlinks_snapshot_witness :
  let s0 := session_of (demo_crawl 1 20 ∅) in
  allInlinks s0 !! Demo.page_a = Some [mkInlink Demo.home "A"; mkInlink Demo.home "A"]
  /\ exists new,
       results (session_of (demo_crawl 2 20 ∅)) = results s0 ++ new
       /\ Forall (fun page => inlinks page = default [] (allInlinks s0 !! url page)) new
       /\ (results s0 ++ new) `prefix_of` results (session_of (demo_crawl 10 20 ∅)).
Proof.
  intros s0. split; [vm_compute; reflexivity|].
  destruct (inlinks_snapshot nat Demo.generateAnalysis Demo.generateLinks
              Demo.hostname 10 Demo.home 20 ∅ 0%nat) as (_ & Hnext & _).
  apply (Hnext 1%nat s0).
  - apply le_n_S, le_n_S, Nat.le_0_l.
  - vm_compute. reflexivity.
Defined.

(** With a budget of 7, after the second batch one page is left to
    analyze: the extractor is called for [page_a], which leaves two URLs
    in the queue, more than one and a half, and for no page after it. *)
Example demo_crawl_budget_7 :
  let s := session_of (demo_crawl 10 7 ∅) in
  extracted (log s) = [Demo.home; Demo.page_a]
  /\ analyzedCount s = 7
  /\ queue s = [Demo.missing].
Proof. vm_compute. repeat split. Qed.

(** The third batch of the crawl is [f], [missing], [g]: the extractor is
    called for [f]; the turn of [missing], whose status is 404, changes
    nothing. *)
Lemma extraction_guard_witness :
  let s := session_of (demo_crawl 2 20 ∅) in
  let batch := take (batch_limit nat 20 s) (queue s) in
  let data := map (fun u => Demo.page u (Demo.status_of u)) batch in
  let s3 := after_analysis nat s (batch_limit nat 20 s) (decoded data) (S (world s)) in
  let pages := merge_inlinks (allInlinks s) (decoded data) in
  let visit := visit_pages nat Demo.generateLinks Demo.hostname 20 "example.com" s3 in
  map url pages = ["https://example.com/f"; Demo.missing; "https://example.com/g"]
  /\ extracted (log (attempt_session nat (visit (take 1 pages))))
     = extracted (log s3) ++ ["https://example.com/f"]
  /\ visit (take 2 pages) = visit (take 1 pages).
Proof.
  intros s batch data s3 pages visit.
  assert (Hne : batch <> []) by (vm_compute; intros H; discriminate H).
  assert (Hgen : Demo.generateAnalysis batch Demo.home (world s) = (inr data, S (world s)))
    by reflexivity.
  assert (Hlt : analyzedCount s3 < 20) by (vm_compute; reflexivity).
  split; [vm_compute; reflexivity|]. split.
  - destruct (extraction_guard nat Demo.generateAnalysis Demo.generateLinks Demo.hostname
                Demo.home 20 "example.com" s data (S (world s)) 0%nat
                (with_inlinks (Demo.page "https://example.com/f" 200)
                   [mkInlink Demo.home "F"]) s3 Hne Hgen Hlt)
      as (Hcall & _).
    + vm_compute. reflexivity.
    + reflexivity.
    + apply Hcall. split; [vm_compute; reflexivity|].
      intros H. vm_compute in H. discriminate H.
  - set (s_1 := attempt_session nat (visit (take 1 pages))).
    assert (H1 : visit (take 1 pages) = Done s_1) by (vm_compute; reflexivity).
    destruct (extraction_guard nat Demo.generateAnalysis Demo.generateLinks Demo.hostname
                Demo.home 20 "example.com" s data (S (world s)) 1%nat
                (with_inlinks (Demo.page Demo.missing 404)
                   [mkInlink Demo.page_a "Gone"]) s_1 Hne Hgen Hlt)
      as (_ & _ & Hskip & _).
    + vm_compute. reflexivity.
    + exact H1.
    + etrans; [apply Hskip|symmetry; exact H1].
      intros [H _]. vm_compute in H. discriminate H.
Defined.


(** The extraction for the home page (the second API call) fails: the run
    ends failed, with the page of the batch that had been appended. *)
Example extraction_failure_keeps_batch :
  let o := handleCrawlStart nat Demo.generateAnalysis (Demo.generateLinks_failing 1)
             Demo.hostname 10 Demo.home 20 ∅ 0%nat in
  (exists s, o = Failed
     (ApiFailure
        "Failed during link extraction for https://example.com. Gemini API Error: 503 Service Unavailable")
     s)
  /\ map url (results (session_of o)) = [Demo.home]
  /\ log (session_of o)
     = [EvSeed Demo.home; EvAnalyze [Demo.home]; EvExtract Demo.home].
Proof. vm_compute. split; [eexists; reflexivity|]. split; reflexivity. Qed.

(** The links of the home page: the one that does not parse leaves no
    entry, the one to another host gets its edge, the one that occurs twice
    gets two. *)
Lemma link_edge_recording_witness :
  let s := initial_session nat Demo.home ∅ 0%nat in
  let data := [Demo.page Demo.home 200] in
  let s3 := after_analysis nat s (batch_limit nat 20 s) (decoded data) 1%nat in
  let pages := merge_inlinks (allInlinks s) (decoded data) in
  exists s',
    visit_pages nat Demo.generateLinks Demo.hostname 20 "example.com" s3 (take 1 pages)
    = Done s'
    /\ default [] (allInlinks s' !! "not a url") = []
    /\ default [] (allInlinks s' !! "https://blog.example.com/post")
       = [mkInlink Demo.home "Blog"]
    /\ default [] (allInlinks s' !! Demo.page_a)
       = [mkInlink Demo.home "A"; mkInlink Demo.home "A"]
    /\ ("https://blog.example.com/post" ∉ queue s').
Proof.
  intros s data s3 pages.
  destruct (link_edge_recording nat Demo.generateAnalysis Demo.generateLinks Demo.hostname
              Demo.home 20 "example.com" s data 1%nat 0%nat (Demo.page Demo.home 200) s3
              (Demo.links_of Demo.home) 2%nat)
    as (s' & Hv & Hmap & _ & _ & _ & Hq & _).
  - vm_compute. intros H. discriminate H.
  - vm_compute. reflexivity.
  - vm_compute. reflexivity.
  - vm_compute. reflexivity.
  - reflexivity.
  - vm_compute. reflexivity.
  - vm_compute. reflexivity.
  - vm_compute. reflexivity.
  - exists s'. split; [exact Hv|]. rewrite !Hmap.
    split; [vm_compute; reflexivity|]. split; [vm_compute; reflexivity|].
    split; [vm_compute; reflexivity|].
    intros [Hin|(link & _ & _ & Hh)]%Hq.
    + vm_compute in Hin. inversion Hin.
    + vm_compute in Hh. discriminate Hh.
Defined.

(** No URL, no call: the answer is the empty array even with an API whose
    next call would fail; and an iteration on an empty queue leaves the
    loop with the log as it was. *)
Lemma empty_batch_short_circuit_witness :
  let idle := mkSession [] ∅ ∅ 0 [] [] 0%nat in
  analyzePages nat (Demo.generateAnalysis_failing 0) [] Demo.home 0%nat = (inr [], 0%nat)
  /\ log (step_session nat
            (crawl_batch nat (Demo.generateAnalysis_failing 0) Demo.generateLinks
               Demo.hostname Demo.home 5 "example.com" idle)) = [].
Proof.
  intros idle.
  destruct (empty_batch_short_circuit nat (Demo.generateAnalysis_failing 0)
              Demo.generateLinks Demo.hostname 10 Demo.home 5 ∅ Demo.home 0%nat)
    as (Hempty & Hbreak & _).
  split; [exact Hempty|].
  destruct (Hbreak "example.com" idle) as (_ & Hlog & _).
  - vm_compute. reflexivity.
  - exact Hlog.
Defined.
(** ** The further properties on the small site *)

Lemma results_in_discovery_order_witness :
  let s := session_of (demo_crawl 10 4 ∅) in
  map url (results s) `prefix_of` pushed (log s).
Proof.
  intros s.
  exact (proj1 (results_in_discovery_order nat Demo.generateAnalysis Demo.generateLinks
                  Demo.hostname 10 Demo.home 4 ∅ 0%nat demo_echoes)).
Defined.

Lemma no_inlinks_iff_start_page_witness :
  Demo.page Demo.home 200 ∈ results (session_of (demo_crawl 10 4 ∅))
  /\ (inlinks (Demo.page Demo.home 200) = [] <-> url (Demo.page Demo.home 200) = Demo.home).
Proof.
  assert (Hin : Demo.page Demo.home 200 ∈ results (session_of (demo_crawl 10 4 ∅))).
  { vm_compute. apply list_elem_of_here. }
  split; [exact Hin|].
  exact (no_inlinks_iff_start_page nat Demo.generateAnalysis Demo.generateLinks
           Demo.hostname 10 Demo.home 4 ∅ 0%nat demo_echoes _ Hin).
Defined.

Lemma api_call_budget_witness :
  let s := session_of (demo_crawl 10 4 ∅) in
  Z.of_nat (length (batches (log s)) + length (extracted (log s))) <= 7.
Proof.
  intros s.
  destruct (api_call_budget nat Demo.generateAnalysis Demo.generateLinks
              Demo.hostname 10 Demo.home 4 ∅ 0%nat) as (_ & _ & H).
  apply H; [lia|exact demo_cardinal].
Defined.

Lemma click_opens_one_row_witness :
  let pages := results (session_of (demo_crawl 10 4 ∅)) in
  detail_rows (handleRowClick None Demo.home) pages = [Demo.page Demo.home 200]
  /\ detail_rows (handleRowClick (Some Demo.home) Demo.home) pages = [].
Proof.
  intros pages.
  destruct (click_opens_one_row nat Demo.generateAnalysis Demo.generateLinks
              Demo.hostname 10 Demo.home 4 ∅ 0%nat demo_echoes) as [_ H].
  assert (Hin : Demo.page Demo.home 200 ∈ pages).
  { vm_compute. apply list_elem_of_here. }
  split.
  - exact (H None _ Hin).
  - exact (H (Some Demo.home) _ Hin).
Defined.

Lemma exclusion_file_sound_witness :
  Demo.home ∈ parse_exclusions Demo.hostname true "https://example.com,200,0"
  /\ has_char is_comma Demo.home = false.
Proof.
  assert (Hin : Demo.home ∈ parse_exclusions Demo.hostname true "https://example.com,200,0").
  { unfold parse_exclusions. apply elem_of_list_to_set. vm_compute. apply list_elem_of_here. }
  split; [exact Hin|].
  destruct (exclusion_file_sound Demo.hostname true _ _ Hin) as (_ & _ & _ & H).
  apply H. reflexivity.
Defined.

Lemma plain_list_round_trip_witness :
  parse_exclusions Demo.hostname false
    (join (String carriage_return (String line_feed EmptyString)) [Demo.home; Demo.page_a]
       +:+ String line_feed EmptyString)
  = list_to_set [Demo.home; Demo.page_a].
Proof.
  apply (plain_list_round_trip Demo.hostname).
  - discriminate.
  - reflexivity.
  - reflexivity.
  - repeat constructor; eexists; reflexivity.
Defined.

Lemma exported_pages_stay_excluded_witness :
  let pages := [Demo.page Demo.home 200; Demo.page Demo.page_a 200] in
  let excluded :=
    parse_exclusions Demo.hostname true (exportToCSV Demo.numberToString pages) in
  Demo.page_a ∈ excluded
  /\ (Demo.page_a ∉ concat (batches (log (session_of (demo_crawl 10 20 excluded))))).
Proof.
  intros pages excluded.
  destruct (exported_pages_stay_excluded nat Demo.generateAnalysis Demo.generateLinks
              Demo.hostname Demo.numberToString pages (Demo.page Demo.page_a 200)
              10 Demo.home 20 0%nat) as (Hin & _ & Hout).
  - apply list_elem_of_further, list_elem_of_here.
  - reflexivity.
  - eexists. reflexivity.
  - split; [exact Hin|exact Hout].
Defined.

(** An analysis that fails on the second batch leaves the error panel
    above the table of the first batch. *)
Lemma page_blocks_witness :
  let o := handleCrawlStart nat (Demo.generateAnalysis_failing 2) Demo.generateLinks
             Demo.hostname 10 Demo.home 20 ∅ 0%nat in
  let v := view_of nat Demo.urlErrorMessage o in
  shows_error v = true /\ shows_table v = true /\ shows_placeholder v = false.
Proof.
  intros o v.
  destruct (page_blocks nat (Demo.generateAnalysis_failing 2) Demo.generateLinks
              Demo.hostname Demo.urlErrorMessage) as [_ H].
  specialize (H 10%nat Demo.home 20 ∅ 0%nat o eq_refl).
  assert (Ho : exists f s, o = Failed f s /\ results s <> []).
  { vm_compute. eexists _, _. split; [reflexivity|discriminate]. }
  destruct Ho as (f & s & Ho & Hr). fold v in H. clearbody v o. subst o.
  destruct H as (He & _ & Hp & Ht). split; [exact He|]. split; [|exact Hp].
  apply Ht, Hr.
Defined.


(** The extraction for the home page answers with a JSON object: the run
    started from the form ends failed, with the message of the
    [TypeError]. *)
Lemma form_checks_start_url_witness :
  let o := handleCrawlStart nat Demo.generateAnalysis (Demo.generateLinks_object 1)
             Demo.hostname 10 Demo.home 20 ∅ 0%nat in
  exists s,
    o = Failed (ApiFailure notIterableMessage) s
    /\ map url (results s) = [Demo.home]
    /\ ((exists error context, notIterableMessage = handleApiError error context)
        \/ notIterableMessage = notIterableMessage).
Proof.
  intros o.
  pose proof (form_checks_start_url nat Demo.generateAnalysis (Demo.generateLinks_object 1)
                Demo.hostname 10 Demo.home 20 ∅ 0%nat) as H.
  assert (E : handleSubmit nat Demo.generateAnalysis (Demo.generateLinks_object 1)
                Demo.hostname 10 Demo.home 20 ∅ 0%nat = Started nat o) by reflexivity.
  rewrite E in H. destruct H as (_ & _ & _ & Hfail).
  assert (Ho : exists s, o = Failed (ApiFailure notIterableMessage) s
                         /\ map url (results s) = [Demo.home]).
  { vm_compute. eexists. split; reflexivity. }
  destruct Ho as (s & Ho & Hr). exists s. split; [exact Ho|]. split; [exact Hr|].
  destruct (Hfail _ _ Ho) as (m & [= <-] & Hm). exact Hm.
Defined.
